(** * BlackStars: forward-archetype pipeline

    A shallow embedding of the feature-engineering pipeline
    ([src/processor.py]), the feature selection, the cluster-count search
    and the naming heuristic ([src/clustering.py]) and the roster lookup
    ([scripts/run_ghana_analysis.py]), with the properties of the
    specification stated and settled against them.

    Conventions of the embedding.
    - Numbers are IEEE binary64 values, Rocq's primitive [float]: this is
      numpy's [float64], NaN being pandas' missing value.
    - Text is [string], read as ASCII; [lower] and [upper] change the case of
      the ASCII letters only.
    - A pandas DataFrame is a row count and an insertion-ordered list of named
      columns; a column is either numeric ([FloatCol], dtype float64, which
      also stands for integer columns) or textual ([ObjCol], dtype object,
      [None] being a missing cell).  A textual cell is text that does not
      read as a number, which is what makes [read_csv] give the column the
      object dtype.
    - A Python [dict] is an insertion-ordered association list.
    - Exceptions and the lines printed on standard output are threaded through
      the monad [M]. *)

From Stdlib Require Import Floats ZArith List String Ascii Bool Arith Lia.
Import ListNotations.

Set Implicit Arguments.

(* ================================================================== *)
(** * Part I: the embedding *)
(* ================================================================== *)

(** ** Python strings *)

Module Text.

Definition lower_char (c : ascii) : ascii :=
  let n := nat_of_ascii c in
  if (65 <=? n)%nat && (n <=? 90)%nat then ascii_of_nat (n + 32) else c.

Definition upper_char (c : ascii) : ascii :=
  let n := nat_of_ascii c in
  if (97 <=? n)%nat && (n <=? 122)%nat then ascii_of_nat (n - 32) else c.

(** [s.lower()] *)
Fixpoint lower (s : string) : string :=
  match s with
  | EmptyString => EmptyString
  | String c s' => String (lower_char c) (lower s')
  end.

(** [s.upper()] *)
Fixpoint upper (s : string) : string :=
  match s with
  | EmptyString => EmptyString
  | String c s' => String (upper_char c) (upper s')
  end.

(** [s.startswith(p)] *)
Fixpoint startswith (p s : string) : bool :=
  match p, s with
  | EmptyString, _ => true
  | String _ _, EmptyString => false
  | String a p', String b s' => Ascii.eqb a b && startswith p' s'
  end.

(** [p in s]: [p] occurs in [s] as a contiguous substring. *)
Fixpoint str_in (p s : string) : bool :=
  startswith p s
  || match s with
     | EmptyString => false
     | String _ s' => str_in p s'
     end.

End Text.

(** ** Python dictionaries *)

Module Dict.

Section Dict.
Variable V : Type.

Definition dict := list (string * V).

(** [d.get(k)] *)
Fixpoint get (d : dict) (k : string) : option V :=
  match d with
  | [] => None
  | (k', v) :: d' => if String.eqb k' k then Some v else get d' k
  end.

(** [d[k] = v]: an existing key keeps its place, a new key goes last. *)
Fixpoint set (d : dict) (k : string) (v : V) : dict :=
  match d with
  | [] => [(k, v)]
  | (k', v') :: d' =>
      if String.eqb k' k then (k, v) :: d' else (k', v') :: set d' k v
  end.

(** [k in d] *)
Definition mem (d : dict) (k : string) : bool :=
  match get d k with Some _ => true | None => false end.

Definition keys (d : dict) : list string := map fst d.
End Dict.

End Dict.

(** ** Exceptions and standard output *)

Inductive exn :=
| KeyError (k : string)
| ValueError
| TypeError.

(** The lines [src/processor.py] prints, but for the banners. *)
Inductive event :=
| NoPositionColumn                       (* "No position column found, returning all players" *)
| FilteredForwards (n : nat)             (* "Filtered to n forwards/attackers" *)
| Deduplicated (before after : nat)      (* "Deduplicated: before -> after players ..." *)
| NoMinutesColumn                        (* "No minutes column found" *)
| FilteredMinutes (n : nat)              (* "Filtered to n players with >=450 minutes" *)
| NormalizedFeatures (n : nat)           (* "Normalized n features to 0-1 scale" *)
| Inverted (col : string)                (* "Inverted: col" *)
| NoData                                 (* "No data to process!" *)
| IdentifiedColumns (m : list (string * string))
| Saved (n : nat).                       (* "Saved processed data: ..." and "Total forwards: n" *)

Inductive result (A : Type) :=
| Ok (a : A)
| Raise (e : exn).
Arguments Raise {A} e.

(** A computation returns a value and the lines it printed, or raises. *)
Definition M (A : Type) : Type := result (A * list event).

Definition ret {A} (a : A) : M A := Ok (a, []).

Definition raise {A} (e : exn) : M A := Raise e.

Definition print (e : event) : M unit := Ok (tt, [e]).

Definition bind {A B} (m : M A) (k : A -> M B) : M B :=
  match m with
  | Raise e => Raise e
  | Ok (a, out1) =>
      match k a with
      | Raise e => Raise e
      | Ok (b, out2) => Ok (b, out1 ++ out2)
      end
  end.

Declare Scope py_scope.
Delimit Scope py_scope with py.
Notation "x <- m ;; k" := (bind m (fun x => k))
  (at level 61, m at next level, right associativity) : py_scope.
Notation "m ;;; k" := (bind m (fun _ => k))
  (at level 61, right associativity) : py_scope.

(** ** DataFrames *)

Module Frame.

Inductive column :=
| FloatCol (xs : list float)
| ObjCol (xs : list (option string)).

Record DataFrame := mkDF {
  nrows : nat;                          (* len(df) *)
  cols : Dict.dict column               (* the columns, in df.columns order *)
}.

Definition col_len (c : column) : nat :=
  match c with
  | FloatCol xs => List.length xs
  | ObjCol xs => List.length xs
  end.

(** [df.columns] *)
Definition columns (df : DataFrame) : list string := Dict.keys (cols df).

(** [c in df.columns] *)
Definition has_col (df : DataFrame) (c : string) : bool :=
  existsb (String.eqb c) (columns df).

(** [df.empty] *)
Definition empty (df : DataFrame) : bool :=
  (nrows df =? 0)%nat || (List.length (cols df) =? 0)%nat.

(** [df[c]] *)
Definition getitem (df : DataFrame) (c : string) : M column :=
  match Dict.get (cols df) c with
  | Some col => ret col
  | None => raise (KeyError c)
  end.

(** [df[c] = col] *)
Definition setitem (df : DataFrame) (c : string) (col : column) : DataFrame :=
  mkDF (nrows df) (Dict.set (cols df) c col).

Definition is_none {A} (o : option A) : bool :=
  match o with None => true | Some _ => false end.

(** [col.astype(float)], also the conversion numpy applies to an object
    column: missing cells become NaN, text raises. *)
Definition astype_float (col : column) : M (list float) :=
  match col with
  | FloatCol xs => ret xs
  | ObjCol xs =>
      if forallb is_none xs then ret (map (fun _ => nan) xs)
      else raise ValueError
  end.

(** Boolean indexing [xs[mask]]. *)
Fixpoint select {A} (mask : list bool) (xs : list A) : list A :=
  match mask, xs with
  | true :: mask', x :: xs' => x :: select mask' xs'
  | false :: mask', _ :: xs' => select mask' xs'
  | _, _ => []
  end.

Definition select_col (mask : list bool) (c : column) : column :=
  match c with
  | FloatCol xs => FloatCol (select mask xs)
  | ObjCol xs => ObjCol (select mask xs)
  end.

(** [df[mask]] *)
Definition filter_rows (mask : list bool) (df : DataFrame) : DataFrame :=
  mkDF (List.length (filter (fun b : bool => b) mask))
       (map (fun kc => (fst kc, select_col mask (snd kc))) (cols df)).

(** [x1 op x2] on two aligned series. *)
Fixpoint map2 {A B C} (f : A -> B -> C) (xs : list A) (ys : list B) : list C :=
  match xs, ys with
  | x :: xs', y :: ys' => f x y :: map2 f xs' ys'
  | _, _ => []
  end.

End Frame.

(** ** [config.py] *)

Module Config.

(** [MIN_MINUTES_PLAYED = 450] *)
Definition MIN_MINUTES_PLAYED : float := 450%float.

(** [N_CLUSTERS_RANGE = range(4, 10)] *)
Definition N_CLUSTERS_RANGE : list Z := [4; 5; 6; 7; 8; 9]%Z.

End Config.

(** ** [src/processor.py] *)

Module Processor.
Import Text Frame Config.
Local Open Scope string_scope.
Local Open Scope py_scope.

(** *** [identify_columns] *)

Definition patterns : list (string * list string) :=
  [ ("player",   ["player"; "Player"; "name"; "Name"]);
    ("team",     ["team"; "Team"; "squad"; "Squad"]);
    ("position", ["pos"; "Pos"; "position"; "Position"]);
    ("minutes",  ["min"; "Min"; "minutes"; "Minutes"; "90s"]);
    ("goals",    ["gls"; "Gls"; "goals"; "Goals"]);
    ("assists",  ["ast"; "Ast"; "assists"; "Assists"]);
    ("xg",       ["xg"; "xG"; "expected_goals"]);
    ("npxg",     ["npxg"; "npxG"; "np_xg"]);
    ("xag",      ["xag"; "xAG"; "xa"; "xA"]) ].

(** The inner loop [for name in possible_names], which assigns
    [col_mapping[key] = col] and breaks at the first name found in
    [col_str]: does it assign? *)
Fixpoint scan_names (possible_names : list string) (col_str : string) : bool :=
  match possible_names with
  | [] => false
  | name :: rest =>
      if str_in (lower name) col_str then true else scan_names rest col_str
  end.

(** The outer loop [for col in df.columns], left at the first column for
    which the inner loop assigned. *)
Fixpoint scan_columns (possible_names : list string) (columns : list string)
  : option string :=
  match columns with
  | [] => None
  | col :: rest =>
      if scan_names possible_names (lower col) then Some col
      else scan_columns possible_names rest
  end.

Definition identify_columns (df : DataFrame) : Dict.dict string :=
  fold_left
    (fun col_mapping kp =>
       match scan_columns (snd kp) (columns df) with
       | Some col => Dict.set col_mapping (fst kp) col
       | None => col_mapping
       end)
    patterns [].

(** *** [filter_forwards] *)

Definition forward_tokens : list string := ["FW"; "LW"; "RW"; "ST"; "CF"].

(** [astype(str)] of a textual cell; a missing cell reads ["nan"]. *)
Definition cell_str (o : option string) : string :=
  match o with Some s => s | None => "nan" end.

(** [astype(str).str.upper().str.contains('FW|LW|RW|ST|CF', na=False)].
    The text of a number holds digits, a sign, a point, an exponent mark,
    [inf] or [nan], so no cell of a numeric column contains a token. *)
Definition forward_mask (col : column) : list bool :=
  match col with
  | ObjCol xs =>
      map (fun o => existsb (fun t => str_in t (upper (cell_str o))) forward_tokens) xs
  | FloatCol xs => map (fun _ => false) xs
  end.

Definition filter_forwards (df : DataFrame) (col_mapping : Dict.dict string)
  : M DataFrame :=
  match Dict.get col_mapping "position" with
  | None => print NoPositionColumn ;;; ret df
  | Some pos_col =>
      col <- getitem df pos_col ;;
      let filtered := filter_rows (forward_mask col) df in
      print (FilteredForwards (nrows filtered)) ;;;
      ret filtered
  end.

(** *** [deduplicate_players] *)

Inductive cell :=
| FloatCell (x : float)
| ObjCell (o : option string).

Definition cells (c : column) : list cell :=
  match c with
  | FloatCol xs => map FloatCell xs
  | ObjCol xs => map ObjCell xs
  end.

(** Equality of cells as [drop_duplicates] sees it: missing values are
    equal to each other. *)
Definition cell_eqb (a b : cell) : bool :=
  match a, b with
  | FloatCell x, FloatCell y => (x =? y)%float || (is_nan x && is_nan y)
  | ObjCell None, ObjCell None => true
  | ObjCell (Some s), ObjCell (Some t) => String.eqb s t
  | ObjCell None, FloatCell y => is_nan y
  | FloatCell x, ObjCell None => is_nan x
  | _, _ => false
  end.

Definition key_eqb (a b : cell * cell) : bool :=
  cell_eqb (fst a) (fst b) && cell_eqb (snd a) (snd b).

(** [~df.duplicated(keep='first')]: a row is kept when no earlier row has
    its key. *)
Fixpoint first_occurrences (seen keys : list (cell * cell)) : list bool :=
  match keys with
  | [] => []
  | k :: rest =>
      if existsb (key_eqb k) seen then false :: first_occurrences seen rest
      else true :: first_occurrences (k :: seen) rest
  end.

(** [df.drop_duplicates(subset=[a, b], keep='first')] *)
Definition drop_duplicates (df : DataFrame) (a b : string) : M DataFrame :=
  ca <- getitem df a ;;
  cb <- getitem df b ;;
  ret (filter_rows (first_occurrences [] (combine (cells ca) (cells cb))) df).

Definition dict_get_default (d : Dict.dict string) (k default : string) : string :=
  match Dict.get d k with Some v => v | None => default end.

Definition deduplicate_players (df : DataFrame) (col_mapping : Dict.dict string)
  : M DataFrame :=
  let player_col := dict_get_default col_mapping "player" "Player" in
  let team_col := dict_get_default col_mapping "team" "Squad" in
  let player_col :=
    match find (fun c => String.eqb (lower c) "player") (columns df) with
    | Some c => c | None => player_col end in
  let team_col :=
    match find (fun c => String.eqb (lower c) "squad") (columns df) with
    | Some c => c | None => team_col end in
  let before_count := nrows df in
  df <- drop_duplicates df player_col team_col ;;
  let after_count := nrows df in
  print (Deduplicated before_count after_count) ;;;
  ret df.

(** *** [filter_minimum_minutes] *)

Definition filter_minimum_minutes (df : DataFrame) (col_mapping : Dict.dict string)
  : M DataFrame :=
  match Dict.get col_mapping "minutes" with
  | None => print NoMinutesColumn ;;; ret df
  | Some min_col =>
      col <- getitem df min_col ;;
      xs <- astype_float col ;;
      let mask :=
        if str_in "90" (lower min_col)
        then map (fun x => (MIN_MINUTES_PLAYED / 90 <=? x)%float) xs
        else map (fun x => (MIN_MINUTES_PLAYED <=? x)%float) xs in
      let filtered := filter_rows mask df in
      print (FilteredMinutes (nrows filtered)) ;;;
      ret filtered
  end.

(** *** [normalize_per_90] *)

Definition counting_stats : list string :=
  ["goals"; "assists"; "xg"; "npxg"; "xag"].

(** [series.replace(0, np.nan)] on one cell. *)
Definition replace_zero_nan (p : float) : float :=
  if (p =? 0)%float then nan else p.

(** One cell of [df[col].astype(float) / df['90s_played'].replace(0, np.nan)]. *)
Definition per90 (s p : float) : float := (s / replace_zero_nan p)%float.

(** The loop [for stat in counting_stats], on the table as it stands. *)
Fixpoint per90_loop (col_mapping : Dict.dict string) (stats : list string)
  (df : DataFrame) : M DataFrame :=
  match stats with
  | [] => ret df
  | stat :: rest =>
      match Dict.get col_mapping stat with
      | Some col =>
          if has_col df col then
            c <- getitem df col ;;
            s <- astype_float c ;;
            c90 <- getitem df "90s_played" ;;
            p <- astype_float c90 ;;
            let new_col := stat ++ "_per90" in
            per90_loop col_mapping rest
              (setitem df new_col (FloatCol (map2 per90 s p)))
          else per90_loop col_mapping rest df
      | None => per90_loop col_mapping rest df
      end
  end.

Definition normalize_per_90 (df : DataFrame) (col_mapping : Dict.dict string)
  : M DataFrame :=
  match Dict.get col_mapping "minutes" with
  | None => ret df
  | Some min_col =>
      c <- getitem df min_col ;;
      xs <- astype_float c ;;
      let played :=
        if str_in "90" (lower min_col) then xs
        else map (fun x => (x / 90)%float) xs in
      per90_loop col_mapping counting_stats
        (setitem df "90s_played" (FloatCol played))
  end.

(** *** [normalize_features] *)

(** [fillna(0)] on one cell. *)
Definition fillna0 (x : float) : float := if is_nan x then 0%float else x.

(** scikit-learn's [MinMaxScaler] with its default range (0, 1), one
    feature at a time. *)
Record scaler := mkScaler { scale_ : float; min_ : float }.

Definition fmin (xs : list float) (x0 : float) : float :=
  fold_left (fun m x => if (x <? m)%float then x else m) xs x0.

Definition fmax (xs : list float) (x0 : float) : float :=
  fold_left (fun m x => if (m <? x)%float then x else m) xs x0.

(** [_handle_zeros_in_scale]: a range below ten machine epsilons is a
    constant feature and is scaled by 1. *)
Definition handle_zeros_in_scale (r : float) : float :=
  if (r <? 10 * 0x1p-52)%float then 1%float else r.

Definition fit (xs : list float) : M scaler :=
  match xs with
  | [] => raise ValueError                      (* no sample *)
  | x0 :: rest =>
      if existsb is_infinity xs then raise ValueError
      else
        let data_min := fmin rest x0 in
        let data_max := fmax rest x0 in
        let data_range := (data_max - data_min)%float in
        let scale := ((1 - 0) / handle_zeros_in_scale data_range)%float in
        ret (mkScaler scale (0 - data_min * scale)%float)
  end.

Definition transform (sc : scaler) (x : float) : float :=
  (x * scale_ sc + min_ sc)%float.

Definition fit_transform (xs : list float) : M (list float) :=
  sc <- fit xs ;; ret (map (transform sc) xs).

Fixpoint mapM {A B} (f : A -> M B) (l : list A) : M (list B) :=
  match l with
  | [] => ret []
  | a :: l' => b <- f a ;; bs <- mapM f l' ;; ret (b :: bs)
  end.

(** [df[cols] = X], column by column. *)
Fixpoint assign (df : DataFrame) (names : list string) (X : list (list float))
  : DataFrame :=
  match names, X with
  | c :: names', xs :: X' => assign (setitem df c (FloatCol xs)) names' X'
  | _, _ => df
  end.

Definition normalize_features (df : DataFrame) (feature_cols : list string)
  : M DataFrame :=
  let existing_cols := filter (has_col df) feature_cols in
  match existing_cols with
  | [] => ret df
  | _ :: _ =>
      (* df[existing_cols].fillna(0), read as a float64 matrix *)
      X <- mapM (fun c => col <- getitem df c ;;
                          xs <- astype_float col ;;
                          ret (map fillna0 xs)) existing_cols ;;
      (* scaler.fit_transform: the whole matrix is checked and fitted
         before anything is written back *)
      X' <- mapM fit_transform X ;;
      print (NormalizedFeatures (List.length existing_cols)) ;;;
      ret (assign df existing_cols X')
  end.

(** *** [invert_negative_metrics] *)

(** [1 - df[col]] *)
Definition one_minus (col : column) : M (list float) :=
  match col with
  | FloatCol xs => ret (map (fun v => (1 - v)%float) xs)
  | ObjCol xs =>
      if forallb is_none xs then ret (map (fun _ => nan) xs)
      else raise TypeError
  end.

Fixpoint invert_negative_metrics (df : DataFrame) (negative_cols : list string)
  : M DataFrame :=
  match negative_cols with
  | [] => ret df
  | col :: rest =>
      if has_col df col then
        c <- getitem df col ;;
        xs <- one_minus c ;;
        print (Inverted col) ;;;
        invert_negative_metrics (setitem df col (FloatCol xs)) rest
      else invert_negative_metrics df rest
  end.

(** *** [process_data] *)

Definition feature_cols : list string :=
  ["goals_per90"; "assists_per90"; "xg_per90"; "npxg_per90"; "xag_per90"].

(** The pipeline from the table [load_raw_data] returns to the table
    written to [forwards_processed.csv]; [None] is the early [return] on
    an empty table. *)
Definition process_data (raw : DataFrame) : M (option DataFrame) :=
  let df := raw in
  if empty df then print NoData ;;; ret None
  else
    let col_mapping := identify_columns df in
    print (IdentifiedColumns col_mapping) ;;;
    df <- filter_forwards df col_mapping ;;
    df <- filter_minimum_minutes df col_mapping ;;
    df <- normalize_per_90 df col_mapping ;;
    df <- normalize_features df feature_cols ;;
    print (Saved (nrows df)) ;;;
    ret (Some df).

End Processor.

(** ** [src/clustering.py] *)

Module Clustering.
Import Text Config.
Local Open Scope string_scope.

(** *** [find_optimal_clusters] *)

(** numpy's [argmax] on a float64 vector: the running maximum [mp] is
    replaced whenever [not (x <= mp)], and a NaN, once met, is maximal. *)
Fixpoint argmax_loop (xs : list float) (i : nat) (mp : float) (max_ind : nat)
  : nat :=
  match xs with
  | [] => max_ind
  | x :: rest =>
      if negb (x <=? mp)%float then
        if is_nan x then i else argmax_loop rest (S i) x i
      else argmax_loop rest (S i) mp max_ind
  end.

Definition argmax (xs : list float) : result nat :=
  match xs with
  | [] => Raise ValueError
  | x :: rest => if is_nan x then Ok 0%nat else Ok (argmax_loop rest 1 x 0)
  end.

Section Search.
(** The feature matrix, and what scikit-learn computes for one candidate:
    [KMeans(n_clusters=k, random_state=42, n_init=10).fit(X)] followed by
    [silhouette_score(X, kmeans.labels_)].  With the seed fixed this is a
    function of [X] and [k]; it raises when [X] has too few samples for
    [k] clusters. *)
Variable matrix : Type.
Variable silhouette_of_fit : matrix -> Z -> result float.

(** The loop [for k in N_CLUSTERS_RANGE], collecting [silhouette_scores]. *)
Fixpoint silhouette_scores (X : matrix) (ks : list Z) : result (list float) :=
  match ks with
  | [] => Ok []
  | k :: rest =>
      match silhouette_of_fit X k with
      | Raise e => Raise e
      | Ok sil_score =>
          match silhouette_scores X rest with
          | Raise e => Raise e
          | Ok scores => Ok (sil_score :: scores)
          end
      end
  end.

(** The search over an explicit candidate list. *)
Definition best_of (X : matrix) (ks : list Z) : result Z :=
  match silhouette_scores X ks with
  | Raise e => Raise e
  | Ok scores =>
      match argmax scores with
      | Raise e => Raise e
      | Ok i => Ok (nth i ks 0%Z)
      end
  end.

Definition find_optimal_clusters (X : matrix) : result Z :=
  best_of X N_CLUSTERS_RANGE.
End Search.

(** *** [suggest_cluster_name] *)

Record trait_stats := mkTrait { mean : float; z_score : float }.

Definition any_name (keywords : list string) (trait_names : list string) : bool :=
  existsb (fun t => existsb (fun kw => str_in kw t) keywords) trait_names.

Definition any_high (trait_zs : list float) : bool :=
  existsb (fun z => (0.5 <? z)%float) trait_zs.

Definition suggest_cluster_name (traits : list (string * trait_stats)) : string :=
  let trait_names := map fst (firstn 3 traits) in
  let trait_zs := map (fun t => z_score (snd t)) (firstn 3 traits) in
  if any_name ["goal"; "xg"] trait_names && any_high trait_zs
  then "Goal Poacher"
  else if any_name ["assist"; "xag"; "key"] trait_names && any_high trait_zs
  then "Creative Playmaker"
  else if any_name ["carry"; "progress"] trait_names && any_high trait_zs
  then "Ball Carrier"
  else if any_name ["aerial"] trait_names && any_high trait_zs
  then "Target Man"
  else "Hybrid Forward".

End Clustering.

(** ** [src/clustering.py]: the feature selection *)

Module Features.
Import Text Frame Processor.
Local Open Scope string_scope.
Local Open Scope py_scope.

Definition feature_candidates : list string :=
  [ "goals_per90"; "npxg_per90"; "shots_per90"; "sot_per90";
    "xag_per90"; "key_passes_per90"; "sca_per90"; "gca_per90";
    "progressive_carries_per90"; "progressive_passes_received_per90";
    "dispossessed_per90"; "miscontrols_per90";
    "aerials_won_per90" ].

(** [s.endswith(suffix)] *)
Fixpoint endswith (suffix s : string) : bool :=
  String.eqb suffix s
  || match s with
     | EmptyString => false
     | String _ s' => endswith suffix s'
     end.

(** The test of the fallback comprehension. *)
Definition fallback_feature (col : string) : bool :=
  str_in "per90" (lower col) || endswith "_norm" col.

(** A cell of [df.fillna(0)]: a number, or the text of a textual column. *)
Inductive value :=
| Num (x : float)
| Str (s : string).

(** [series.fillna(0)] *)
Definition fillna (c : column) : list value :=
  match c with
  | FloatCol xs => map (fun x => Num (fillna0 x)) xs
  | ObjCol os =>
      map (fun o => match o with Some s => Str s | None => Num 0%float end) os
  end.

(** The function returns [df[available_features].fillna(0)], as the list
    of its named columns, and [available_features]; the lines it prints
    are left out. *)
Definition select_clustering_features (df : DataFrame)
  : M (list (string * list value) * list string) :=
  let available_features := filter (has_col df) feature_candidates in
  let available_features :=
    match available_features with
    | [] => filter fallback_feature (columns df)
    | _ :: _ => available_features
    end in
  X <- mapM (fun c => col <- getitem df c ;; ret (c, fillna col))
            available_features ;;
  ret (X, available_features).

End Features.

(** ** [scripts/run_ghana_analysis.py] *)

Module GhanaAnalysis.
Import Text.
Local Open Scope string_scope.

(** [re.search(pat, s)], which is what [Series.str.contains(pat)] runs, for
    a pattern whose only special character is the dot: a dot stands for
    any character but a newline, every other character for itself. *)
Definition newline : ascii := ascii_of_nat 10.

Fixpoint match_here (pat s : string) : bool :=
  match pat, s with
  | EmptyString, _ => true
  | String _ _, EmptyString => false
  | String a pat', String b s' =>
      (if Ascii.eqb a "." then negb (Ascii.eqb b newline) else Ascii.eqb a b)
      && match_here pat' s'
  end.

Fixpoint re_search (pat s : string) : bool :=
  match_here pat s
  || match s with
     | EmptyString => false
     | String _ s' => re_search pat s'
     end.

(** The characters, other than the dot, that a regular expression reads
    specially. *)
Definition special : list ascii :=
  ["\"; "^"; "$"; "*"; "+"; "?"; "{"; "}"; "["; "]"; "("; ")"; "|"]%char.

Fixpoint dotted_literal (pat : string) : bool :=
  match pat with
  | EmptyString => true
  | String a pat' =>
      negb (existsb (Ascii.eqb a) special) && dotted_literal pat'
  end.

(** [astype(str)] of a cell of the [Player] column. *)
Definition cell_str (o : option string) : string :=
  match o with Some s => s | None => "nan" end.

(** [df[mask]], as the positions of the selected rows. *)
Definition rows_where (mask : list bool) : list nat :=
  Frame.select mask (seq 0 (List.length mask)).

(** The loop [for search_name in all_names] over the [Player] column. *)
Fixpoint search_names (players : list (option string)) (all_names : list string)
  : list nat :=
  match all_names with
  | [] => []                                        (* pd.DataFrame() *)
  | search_name :: rest =>
      let mask :=
        map (fun p => String.eqb (lower (cell_str p)) (lower search_name))
            players in
      if existsb (fun b => b) mask then rows_where mask
      else
        let mask :=
          map (fun p => re_search (lower search_name) (lower (cell_str p)))
              players in
        if existsb (fun b => b) mask then rows_where mask
        else search_names players rest
  end.

Definition find_player (players : list (option string)) (name : string)
  (aliases : list string) : list nat :=
  let all_names := name :: aliases in
  search_names players all_names.

(** [result.iloc[[0]]] in [main], taken when [result] is not empty. *)
Definition first_match (players : list (option string)) (name : string)
  (aliases : list string) : option nat :=
  hd_error (find_player players name aliases).

End GhanaAnalysis.

(* ================================================================== *)
(** * Part II: properties *)
(* ================================================================== *)

Unset Implicit Arguments.

(** ** Dictionaries and the monad *)

Section DictFacts.
Variable V : Type.
Implicit Types (d : Dict.dict V) (k : string) (v : V).

Lemma dict_get_set_same d k v : Dict.get (Dict.set d k v) k = Some v.
Proof.
  induction d as [|[k' v'] d IH]; simpl.
  - now rewrite String.eqb_refl.
  - destruct (String.eqb k' k) eqn:E; simpl.
    + now rewrite String.eqb_refl.
    + now rewrite E.
Qed.

Lemma dict_get_set_other d k k' v :
  k <> k' -> Dict.get (Dict.set d k v) k' = Dict.get d k'.
Proof.
  intros Hne. induction d as [|[k0 v0] d IH]; simpl.
  - destruct (String.eqb k k') eqn:E; [apply String.eqb_eq in E; contradiction | reflexivity].
  - destruct (String.eqb k0 k) eqn:E; simpl.
    + apply String.eqb_eq in E; subst k0.
      destruct (String.eqb k k') eqn:E'; [apply String.eqb_eq in E'; contradiction | reflexivity].
    + destruct (String.eqb k0 k'); [reflexivity | exact IH].
Qed.

Lemma dict_keys_set d k v :
  Dict.keys (Dict.set d k v) =
  if Dict.mem d k then Dict.keys d else Dict.keys d ++ [k].
Proof.
  unfold Dict.mem, Dict.keys.
  induction d as [|[k' v'] d IH]; simpl; [reflexivity|].
  destruct (String.eqb k' k) eqn:E; simpl.
  - apply String.eqb_eq in E. now subst.
  - rewrite IH. now destruct (Dict.get d k).
Qed.

Lemma dict_mem_keys d k :
  Dict.mem d k = existsb (String.eqb k) (Dict.keys d).
Proof.
  unfold Dict.mem, Dict.keys.
  induction d as [|[k' v'] d IH]; simpl; [reflexivity|].
  rewrite (String.eqb_sym k k').
  destruct (String.eqb k' k); simpl; [reflexivity | exact IH].
Qed.

End DictFacts.

Lemma bind_ok {A B} (m : M A) (k : A -> M B) b out :
  bind m k = Ok (b, out) ->
  exists a out1 out2, m = Ok (a, out1) /\ k a = Ok (b, out2) /\ out = out1 ++ out2.
Proof.
  unfold bind. destruct m as [[a out1]|e]; [|discriminate].
  destruct (k a) as [[b' out2]|e] eqn:E; [|discriminate].
  intros H; inversion H; subst. now exists a, out1, out2.
Qed.

(** Splits a hypothesis [H : bind m k = Ok _] into its two steps: the value
    [a] of [m], [H1 : m = Ok (a, _)] and [H2 : k a = Ok _]. *)
Ltac bind_inv H a H1 H2 :=
  let o1 := fresh "out" in
  let o2 := fresh "out" in
  let H3 := fresh "Hout" in
  apply bind_ok in H; destruct H as (a & o1 & o2 & H1 & H2 & H3).

(** ** Column resolution *)

Section ColumnResolution.
Import Text Frame Processor.

(** Some alias of the field occurs in the column label, case folded. *)
Definition hits (possible_names : list string) (col : string) : bool :=
  existsb (fun name => str_in (lower name) (lower col)) possible_names.

Lemma scan_names_hits possible_names col :
  scan_names possible_names (lower col) = hits possible_names col.
Proof.
  unfold hits. induction possible_names as [|n ns IH]; simpl; [reflexivity|].
  destruct (str_in (lower n) (lower col)); simpl; [reflexivity | exact IH].
Qed.

Lemma scan_columns_find possible_names cols :
  scan_columns possible_names cols = find (hits possible_names) cols.
Proof.
  induction cols as [|c cs IH]; simpl; [reflexivity|].
  rewrite scan_names_hits. destruct (hits possible_names c); [reflexivity | exact IH].
Qed.

Lemma scan_columns_some possible_names cols c :
  scan_columns possible_names cols = Some c ->
  exists pre post,
    cols = pre ++ c :: post
    /\ hits possible_names c = true
    /\ Forall (fun c' => hits possible_names c' = false) pre.
Proof.
  rewrite scan_columns_find.
  induction cols as [|c0 cs IH]; simpl; [discriminate|].
  destruct (hits possible_names c0) eqn:E.
  - intros H; inversion H; subst. exists [], cs. repeat split; auto.
  - intros H. destruct (IH H) as (pre & post & -> & Hc & Hpre).
    exists (c0 :: pre), post. repeat split; auto.
Qed.

Lemma scan_columns_none possible_names cols :
  scan_columns possible_names cols = None ->
  Forall (fun c' => hits possible_names c' = false) cols.
Proof.
  rewrite scan_columns_find.
  induction cols as [|c0 cs IH]; simpl; [constructor|].
  destruct (hits possible_names c0) eqn:E; [discriminate|].
  intros H. constructor; auto.
Qed.

(** The loop over [patterns.items()], for any table of patterns. *)
Definition resolve_all (ps : list (string * list string)) (cols : list string)
  (acc : Dict.dict string) : Dict.dict string :=
  fold_left
    (fun col_mapping kp =>
       match scan_columns (snd kp) cols with
       | Some col => Dict.set col_mapping (fst kp) col
       | None => col_mapping
       end) ps acc.

Lemma resolve_all_other ps cols acc key :
  ~ In key (map fst ps) ->
  Dict.get (resolve_all ps cols acc) key = Dict.get acc key.
Proof.
  revert acc. induction ps as [|[k ns] ps IH]; simpl; intros acc Hnot; [reflexivity|].
  unfold resolve_all in *; simpl.
  rewrite IH by tauto.
  destruct (scan_columns ns cols); [|reflexivity].
  apply dict_get_set_other. intros ->. tauto.
Qed.

Lemma resolve_all_key ps cols acc key names :
  NoDup (map fst ps) -> In (key, names) ps -> Dict.get acc key = None ->
  Dict.get (resolve_all ps cols acc) key = scan_columns names cols.
Proof.
  revert acc. induction ps as [|[k ns] ps IH]; simpl; intros acc Hnd Hin Hacc; [contradiction|].
  inversion Hnd as [|? ? Hk Hnd']; subst.
  destruct Hin as [Heq|Hin].
  - inversion Heq; subst. unfold resolve_all; simpl.
    fold (resolve_all ps cols
            match scan_columns names cols with
            | Some col => Dict.set acc key col
            | None => acc
            end).
    rewrite resolve_all_other by exact Hk.
    destruct (scan_columns names cols); [apply dict_get_set_same | exact Hacc].
  - unfold resolve_all; simpl.
    apply IH; auto.
    destruct (scan_columns ns cols); [|exact Hacc].
    rewrite dict_get_set_other; [exact Hacc|].
    intros ->. apply Hk. change key with (fst (key, names)). now apply in_map.
Qed.

Lemma patterns_keys_nodup : NoDup (map fst patterns).
Proof.
  simpl. repeat (constructor; [simpl; intuition discriminate|]). constructor.
Qed.

Lemma identify_columns_get df key names :
  In (key, names) patterns ->
  Dict.get (identify_columns df) key = scan_columns names (columns df).
Proof.
  intros Hin. unfold identify_columns.
  apply resolve_all_key; auto using patterns_keys_nodup.
Qed.

Lemma identify_columns_absent df key :
  ~ In key (map fst patterns) -> Dict.get (identify_columns df) key = None.
Proof.
  intros H. unfold identify_columns.
  now rewrite (resolve_all_other patterns (columns df) []) by exact H.
Qed.

(** What the specification describes: the aliases are tried in priority
    order, each against all columns, and the first alias found decides. *)
Fixpoint alias_priority_resolve (possible_names columns : list string)
  : option string :=
  match possible_names with
  | [] => None
  | name :: rest =>
      match find (fun col => str_in (lower name) (lower col)) columns with
      | Some col => Some col
      | None => alias_priority_resolve rest columns
      end
  end.

(** A table whose first matching column carries a later alias. *)
Definition squad_before_team : DataFrame :=
  mkDF 1 [ ("Player", ObjCol [Some "Mohammed Kudus"]);
           ("Squad",  ObjCol [Some "West Ham"]);
           ("Team",   ObjCol [Some "Ghana"]) ]%string.

End ColumnResolution.

Section ColumnResolutionClaims.
Import Text Frame Processor.
Local Open Scope string_scope.

(** C3, as stated, fails: with the columns [Player, Squad, Team] the
    code resolves the field [team] to [Squad], the first column that
    holds any alias, whereas scanning the aliases in priority order
    (["team"] before ["squad"]) would resolve it to [Team]. *)
Lemma identify_columns_not_by_alias_priority :
  Dict.get (identify_columns squad_before_team) "team" = Some "Squad"
  /\ alias_priority_resolve ["team"; "Team"; "squad"; "Squad"]
       (columns squad_before_team) = Some "Team".
Proof. split; reflexivity. Qed.

(** C3, amended: for every table and every canonical field, the columns
    are scanned in table order and each column is tested against the
    whole alias list (case-insensitive substring containment); the field
    resolves to the first column that contains any alias, so that no
    earlier column contains one, and is absent from the mapping when no
    column does.  Column position decides, not alias priority. *)
Theorem identify_columns_first_matching_column df key possible_names :
  In (key, possible_names) patterns ->
  match Dict.get (identify_columns df) key with
  | Some col =>
      exists pre post,
        columns df = (pre ++ col :: post)%list
        /\ hits possible_names col = true
        /\ Forall (fun c => hits possible_names c = false) pre
  | None => Forall (fun c => hits possible_names c = false) (columns df)
  end.
Proof.
  intros Hin. rewrite (identify_columns_get df _ _ Hin).
  destruct (scan_columns possible_names (columns df)) as [col|] eqn:E.
  - now apply scan_columns_some.
  - now apply scan_columns_none.
Qed.

Lemma identify_columns_first_matching_column_witness :
  In ("team", ["team"; "Team"; "squad"; "Squad"]) patterns
  /\ exists pre post,
       columns squad_before_team = (pre ++ "Squad" :: post)%list
       /\ hits ["team"; "Team"; "squad"; "Squad"] "Squad" = true
       /\ Forall (fun c => hits ["team"; "Team"; "squad"; "Squad"] c = false) pre.
Proof.
  split.
  - simpl; tauto.
  - exact (identify_columns_first_matching_column squad_before_team
             "team" ["team"; "Team"; "squad"; "Squad"]
             (or_intror (or_introl eq_refl))).
Defined.

End ColumnResolutionClaims.

(** ** The minimum-minutes filter *)

Section MinimumMinutes.
Import Text Frame Processor.
Local Open Scope string_scope.

(** A table with no column that any alias of [minutes] occurs in. *)
Definition no_minutes_table : DataFrame :=
  mkDF 2 [ ("Player", ObjCol [Some "Jordan Ayew"; Some "Osman Bukari"]);
           ("Squad",  ObjCol [Some "Leicester City"; Some "Austin FC"]);
           ("Gls",    FloatCol [5; 3]%float) ].

(** C9: when the column mapping holds no [minutes] field, the
    minimum-minutes filter returns the very table it was given, raises
    nothing, and prints the warning and nothing else. *)
Theorem filter_minimum_minutes_without_minutes df col_mapping :
  Dict.get col_mapping "minutes" = None ->
  filter_minimum_minutes df col_mapping = Ok (df, [NoMinutesColumn]).
Proof.
  intros H. unfold filter_minimum_minutes. rewrite H. reflexivity.
Qed.

Lemma filter_minimum_minutes_without_minutes_witness :
  Dict.get (identify_columns no_minutes_table) "minutes" = None
  /\ filter_minimum_minutes no_minutes_table (identify_columns no_minutes_table)
     = Ok (no_minutes_table, [NoMinutesColumn]).
Proof.
  split.
  - reflexivity.
  - exact (filter_minimum_minutes_without_minutes no_minutes_table
             (identify_columns no_minutes_table) eq_refl).
Defined.

End MinimumMinutes.

(** ** The naming heuristic *)

Section Naming.
Import Text Clustering.
Local Open Scope string_scope.

(** The archetype rules as the specification lists them, in order: a
    keyword set and the name it gives. *)
Definition rules : list (list string * string) :=
  [ (["goal"; "xg"],            "Goal Poacher");
    (["assist"; "xag"; "key"],  "Creative Playmaker");
    (["carry"; "progress"],     "Ball Carrier");
    (["aerial"],                "Target Man") ].

(** A rule fires on a ranked trait list when one of the first three
    feature names contains one of its keywords and one of the first three
    z-scores is above 0.5. *)
Definition fires (traits : list (string * trait_stats))
  (rule : list string * string) : bool :=
  existsb (fun t => existsb (fun kw => str_in kw (fst t)) (fst rule))
          (firstn 3 traits)
  && existsb (fun t => (0.5 <? z_score (snd t))%float) (firstn 3 traits).

Lemma existsb_map {A B} (f : A -> B) (p : B -> bool) (l : list A) :
  existsb p (map f l) = existsb (fun a => p (f a)) l.
Proof. induction l as [|a l IH]; simpl; [reflexivity | now rewrite IH]. Qed.

Lemma fires_unfold traits rule :
  fires traits rule =
  any_name (fst rule) (map fst (firstn 3 traits))
  && any_high (map (fun t => z_score (snd t)) (firstn 3 traits)).
Proof.
  unfold fires, any_name, any_high. now rewrite !existsb_map.
Qed.

(** C7: on every ranked trait list the naming heuristic returns the name
    of the first rule, in the order of [rules], that fires, and
    ["Hybrid Forward"] when none does; a rule fires only when a top-3
    feature name contains one of its keywords and a top-3 z-score exceeds
    0.5; the result is never the empty string, and, the function being
    total, never an error. *)
Theorem suggest_cluster_name_first_rule (traits : list (string * trait_stats)) :
  suggest_cluster_name traits =
    match find (fires traits) rules with
    | Some rule => snd rule
    | None => "Hybrid Forward"
    end
  /\ suggest_cluster_name traits <> "".
Proof.
  assert (E : suggest_cluster_name traits =
              match find (fires traits) rules with
              | Some rule => snd rule
              | None => "Hybrid Forward"
              end).
  { unfold suggest_cluster_name, rules, find.
    rewrite !fires_unfold. cbn [fst snd].
    repeat match goal with
           | |- context [if ?b then _ else _] => destruct b; try reflexivity
           end. }
  split; [exact E|].
  rewrite E. unfold rules, find.
  repeat match goal with
         | |- context [if ?b then _ else _] => destruct b; try discriminate
         end.
Qed.

End Naming.

(** ** Roster lookup *)

Section Roster.
Import Text GhanaAnalysis.
Local Open Scope string_scope.

(** The two tests [find_player] applies to one row for one search name. *)
Definition exact (search_name : string) (p : option string) : bool :=
  String.eqb (lower (cell_str p)) (lower search_name).

Definition contains (search_name : string) (p : option string) : bool :=
  re_search (lower search_name) (lower (cell_str p)).

(** Position of the first element that passes a test. *)
Fixpoint first_index {A} (f : A -> bool) (l : list A) : option nat :=
  match l with
  | [] => None
  | a :: l' => if f a then Some 0%nat else option_map S (first_index f l')
  end.

(** What the specification describes: an exact match with any of the names
    first, over the whole table, and containment only when no row matches
    any name exactly. *)
Definition exact_before_containment (players : list (option string))
  (name : string) (aliases : list string) : option nat :=
  let all_names := name :: aliases in
  match first_index (fun p => existsb (fun n => exact n p) all_names) players with
  | Some i => Some i
  | None =>
      first_index
        (fun p => existsb (fun n => str_in (lower n) (lower (cell_str p))) all_names)
        players
  end.

Lemma select_seq_map {A} (f : A -> bool) (l : list A) (start : nat) :
  hd_error (Frame.select (map f l) (seq start (List.length (map f l))))
  = option_map (fun i => (start + i)%nat) (first_index f l).
Proof.
  revert start. induction l as [|a l IH]; intros start; simpl; [reflexivity|].
  destruct (f a); simpl.
  - f_equal. lia.
  - rewrite IH. destruct (first_index f l); simpl; [f_equal; lia | reflexivity].
Qed.

Lemma rows_where_first {A} (f : A -> bool) (l : list A) :
  hd_error (rows_where (map f l)) = first_index f l.
Proof.
  unfold rows_where. rewrite select_seq_map.
  destruct (first_index f l); reflexivity.
Qed.

Lemma first_index_none {A} (f : A -> bool) (l : list A) :
  first_index f l = None <-> existsb (fun b => b) (map f l) = false.
Proof.
  induction l as [|a l IH]; simpl; [tauto|].
  destruct (f a); simpl.
  - split; discriminate.
  - rewrite <- IH. destruct (first_index f l); simpl; split; congruence.
Qed.

Lemma first_index_none_forall {A} (f : A -> bool) (l : list A) :
  first_index f l = None -> Forall (fun a => f a = false) l.
Proof.
  induction l as [|a l IH]; simpl; [constructor|].
  destruct (f a) eqn:E; [discriminate|].
  destruct (first_index f l); [discriminate|]. constructor; auto.
Qed.

Lemma first_index_some {A} (f : A -> bool) (l : list A) (i : nat) :
  first_index f l = Some i ->
  exists pre a post,
    l = (pre ++ a :: post)%list /\ List.length pre = i
    /\ f a = true /\ Forall (fun a' => f a' = false) pre.
Proof.
  revert i. induction l as [|a l IH]; intros i; simpl; [discriminate|].
  destruct (f a) eqn:E.
  - intros H; inversion H; subst. exists [], a, l. repeat split; auto.
  - destruct (first_index f l) as [j|]; [|discriminate].
    intros H; inversion H; subst.
    destruct (IH j eq_refl) as (pre & a' & post & -> & Hlen & Ha & Hpre).
    exists (a :: pre), a', post. simpl. repeat split; auto.
Qed.

(** The search, name by name. *)
Fixpoint name_by_name (players : list (option string)) (all_names : list string)
  : option nat :=
  match all_names with
  | [] => None
  | n :: rest =>
      match first_index (exact n) players with
      | Some i => Some i
      | None =>
          match first_index (contains n) players with
          | Some i => Some i
          | None => name_by_name players rest
          end
      end
  end.

Lemma search_names_first players all_names :
  hd_error (search_names players all_names) = name_by_name players all_names.
Proof.
  induction all_names as [|n rest IH]; simpl; [reflexivity|].
  fold (exact n) (contains n).
  change (fun p => String.eqb (lower (cell_str p)) (lower n)) with (exact n).
  change (fun p => re_search (lower n) (lower (cell_str p))) with (contains n).
  destruct (existsb (fun b => b) (map (exact n) players)) eqn:E1.
  - rewrite rows_where_first.
    destruct (first_index (exact n) players) eqn:F; [reflexivity|].
    apply first_index_none in F. congruence.
  - apply first_index_none in E1. rewrite E1.
    destruct (existsb (fun b => b) (map (contains n) players)) eqn:E2.
    + rewrite rows_where_first.
      destruct (first_index (contains n) players) eqn:F; [reflexivity|].
      apply first_index_none in F. congruence.
    + apply first_index_none in E2. rewrite E2. exact IH.
Qed.

(** For a search name without a dot, the pattern search is plain substring
    containment. *)
Fixpoint dot_free (pat : string) : bool :=
  match pat with
  | EmptyString => true
  | String a pat' => negb (Ascii.eqb a ".") && dot_free pat'
  end.

Lemma match_here_literal pat : forall s,
  dot_free pat = true -> match_here pat s = startswith pat s.
Proof.
  induction pat as [|a pat IH]; intros s H; [destruct s; reflexivity|].
  simpl in H. apply andb_true_iff in H as [Ha Hpat].
  destruct s as [|b s]; [reflexivity|]. simpl.
  apply negb_true_iff in Ha. rewrite Ha. now rewrite IH.
Qed.

Lemma re_search_literal pat s :
  dot_free pat = true -> re_search pat s = str_in pat s.
Proof.
  intros H. induction s as [|b s IH]; simpl.
  - now rewrite match_here_literal.
  - now rewrite match_here_literal, IH.
Qed.

End Roster.

Section RosterClaims.
Import Text GhanaAnalysis.
Local Open Scope string_scope.

(** No row of the table matches the search name, exactly or by containment. *)
Definition unmatched (players : list (option string)) (n : string) : Prop :=
  Forall (fun p => exact n p = false /\ contains n p = false) players.

(** Row [i] of the table is the row the search name [n] selects: the first
    row equal to it, or, when no row is equal to it, the first row that
    contains it. *)
Definition selects (players : list (option string)) (n : string) (i : nat) : Prop :=
  exists pre p post,
    players = (pre ++ p :: post)%list /\ List.length pre = i
    /\ ((exact n p = true /\ Forall (fun q => exact n q = false) pre)
        \/ (Forall (fun q => exact n q = false) players
            /\ contains n p = true
            /\ Forall (fun q => contains n q = false) pre)).

Lemma name_by_name_spec players names :
  match name_by_name players names with
  | Some i =>
      exists earlier n later,
        names = (earlier ++ n :: later)%list
        /\ Forall (unmatched players) earlier
        /\ selects players n i
  | None => Forall (unmatched players) names
  end.
Proof.
  induction names as [|n rest IH]; simpl; [constructor|].
  destruct (first_index (exact n) players) as [i|] eqn:E1.
  - destruct (first_index_some _ _ _ E1) as (pre & p & post & Hl & Hlen & Hp & Hpre).
    exists [], n, rest. repeat split; auto.
    exists pre, p, post. split; [exact Hl|]. split; [exact Hlen|]. left. now split.
  - pose proof (first_index_none_forall _ _ E1) as Hex.
    destruct (first_index (contains n) players) as [i|] eqn:E2.
    + destruct (first_index_some _ _ _ E2) as (pre & p & post & Hl & Hlen & Hp & Hpre).
      exists [], n, rest. repeat split; auto.
      exists pre, p, post. split; [exact Hl|]. split; [exact Hlen|]. right. now repeat split.
    + pose proof (first_index_none_forall _ _ E2) as Hco.
      assert (Hn : unmatched players n).
      { unfold unmatched. rewrite Forall_forall in *. auto. }
      destruct (name_by_name players rest) as [i|].
      * destruct IH as (earlier & n' & later & -> & Hearlier & Hsel).
        exists (n :: earlier), n', later. repeat split; auto.
      * constructor; auto.
Qed.

(** A table in which a row contains the canonical name and a later row is
    equal to an alias. *)
Definition two_kudus : list (option string) :=
  [Some "Mohammed Kudus Jr"; Some "Kudus"].

(** C6, as stated, fails: for the canonical name ["Mohammed Kudus"] with
    the alias ["Kudus"], row 1 of [two_kudus] is equal to the alias, so an
    exact match with one of the names exists and the claim has row 1
    returned; the code tries containment of the canonical name before it
    looks at any alias and returns row 0. *)
Lemma find_player_not_exact_before_containment :
  first_match two_kudus "Mohammed Kudus" ["Kudus"] = Some 0%nat
  /\ exact_before_containment two_kudus "Mohammed Kudus" ["Kudus"] = Some 1%nat.
Proof. split; reflexivity. Qed.

(** C6, amended: the names are tried one at a time, the canonical name
    first and then the aliases in order.  For each name the rows equal to
    it (case-insensitive) are looked for, and only if there is none the
    rows that contain it (case-insensitive; a dot in the name stands for
    any character); the first name with a match decides and the first
    such row in table order is taken.  So an exact match with a later
    alias does not take precedence over containment of an earlier name.
    When no name matches any row the lookup finds nothing.  The names are
    taken free of the other special characters of regular expressions:
    for those [re_search] is Python's search. *)
Theorem find_player_name_by_name players name aliases :
  Forall (fun n => dotted_literal n = true) (name :: aliases) ->
  match first_match players name aliases with
  | Some i =>
      exists earlier n later,
        name :: aliases = (earlier ++ n :: later)%list
        /\ Forall (unmatched players) earlier
        /\ selects players n i
  | None => Forall (unmatched players) (name :: aliases)
  end.
Proof.
  intros _. unfold first_match, find_player.
  rewrite search_names_first. apply name_by_name_spec.
Qed.

(** The scenario of the specification: the alias ["Kudus"] finds the row
    ["Mohammed Kudus"] by containment. *)
Definition kudus_table : list (option string) :=
  [Some "Jordan Ayew"; Some "Mohammed Kudus"; Some "Ernest Nuamah"].

Lemma find_player_name_by_name_witness :
  Forall (fun n => dotted_literal n = true) ["M. Kudus"; "Kudus"]
  /\ first_match kudus_table "M. Kudus" ["Kudus"] = Some 1%nat
  /\ match first_match kudus_table "M. Kudus" ["Kudus"] with
     | Some i =>
         exists earlier n later,
           ["M. Kudus"; "Kudus"] = (earlier ++ n :: later)%list
           /\ Forall (unmatched kudus_table) earlier
           /\ selects kudus_table n i
     | None => Forall (unmatched kudus_table) ["M. Kudus"; "Kudus"]
     end.
Proof.
  assert (H : Forall (fun n => dotted_literal n = true) ["M. Kudus"; "Kudus"]).
  { repeat constructor. }
  split; [exact H|]. split; [reflexivity|].
  exact (find_player_name_by_name kudus_table "M. Kudus" ["Kudus"] H).
Defined.

End RosterClaims.

(** ** Tables: reading and writing columns *)

Section FrameFacts.
Import Frame.

Lemma has_col_mem df c : has_col df c = Dict.mem (cols df) c.
Proof. unfold has_col, columns. symmetry. apply dict_mem_keys. Qed.

Lemma has_col_get df c :
  has_col df c = true <-> exists col, Dict.get (cols df) c = Some col.
Proof.
  rewrite has_col_mem. unfold Dict.mem.
  destruct (Dict.get (cols df) c) as [col|].
  - split; [now exists col | reflexivity].
  - split; [discriminate | intros [col H]; discriminate].
Qed.

Lemma setitem_columns df c col :
  has_col df c = true -> columns (setitem df c col) = columns df.
Proof.
  intros H. unfold columns, setitem; simpl. rewrite dict_keys_set.
  rewrite has_col_mem in H. now rewrite H.
Qed.

Lemma setitem_get_same df c col :
  Dict.get (cols (setitem df c col)) c = Some col.
Proof. apply dict_get_set_same. Qed.

Lemma setitem_get_other df c c' col :
  c <> c' -> Dict.get (cols (setitem df c col)) c' = Dict.get (cols df) c'.
Proof. apply dict_get_set_other. Qed.

Lemma setitem_has_col df c c' col :
  has_col (setitem df c col) c' = String.eqb c' c || has_col df c'.
Proof.
  rewrite !has_col_mem. unfold Dict.mem.
  destruct (String.eqb c' c) eqn:E.
  - apply String.eqb_eq in E; subst. now rewrite setitem_get_same.
  - apply String.eqb_neq in E.
    rewrite setitem_get_other by congruence. reflexivity.
Qed.

Lemma getitem_ok df c col out :
  getitem df c = Ok (col, out) -> Dict.get (cols df) c = Some col /\ out = [].
Proof.
  unfold getitem. destruct (Dict.get (cols df) c); [|discriminate].
  unfold ret. intros H; inversion H; auto.
Qed.

Lemma astype_float_ok col xs out :
  astype_float col = Ok (xs, out) -> out = [] /\ List.length xs = col_len col.
Proof.
  destruct col as [ys|ys]; simpl.
  - unfold ret; intros H; inversion H; auto.
  - destruct (forallb is_none ys); [|discriminate].
    unfold ret; intros H; inversion H; subst. now rewrite length_map.
Qed.

Lemma Forall2_combine {A B} (R : A -> B -> Prop) l1 l2 a b :
  Forall2 R l1 l2 -> In (a, b) (combine l1 l2) -> R a b.
Proof.
  induction 1 as [|x y l1 l2 Hxy _ IH]; simpl; [contradiction|].
  intros [H|H]; [inversion H; subst; exact Hxy | auto].
Qed.

Lemma mapM_ok {A B} (f : A -> M B) (l : list A) bs out :
  Processor.mapM f l = Ok (bs, out) ->
  Forall2 (fun a b => exists o, f a = Ok (b, o)) l bs.
Proof.
  revert bs out. induction l as [|a l IH]; simpl; intros bs out H.
  - unfold ret in H; inversion H; constructor.
  - bind_inv H b Hb Hk. bind_inv Hk bs' Hbs Hret.
    unfold ret in Hret; inversion Hret; subst.
    constructor; eauto.
Qed.

(** [df[names] = X] when every name is a column of the table. *)
Lemma assign_frame names : forall X df,
  Forall (fun c => has_col df c = true) names ->
  List.length X = List.length names ->
  nrows (Processor.assign df names X) = nrows df
  /\ columns (Processor.assign df names X) = columns df
  /\ (forall c, ~ In c names ->
        Dict.get (cols (Processor.assign df names X)) c = Dict.get (cols df) c)
  /\ (forall c, In c names ->
        exists xs, In (c, xs) (combine names X)
          /\ Dict.get (cols (Processor.assign df names X)) c = Some (FloatCol xs)).
Proof.
  induction names as [|c0 names IH]; intros X df Hall Hlen.
  - simpl. repeat split; auto. intros c [].
  - destruct X as [|xs X]; [discriminate|]. simpl in Hlen.
    inversion Hall as [|? ? Hc0 Hall']; subst.
    set (df1 := setitem df c0 (FloatCol xs)).
    assert (Hall1 : Forall (fun c => has_col df1 c = true) names).
    { rewrite Forall_forall in *. intros c Hc. unfold df1.
      rewrite setitem_has_col, Hall' by exact Hc. apply orb_true_r. }
    destruct (IH X df1 Hall1 ltac:(lia)) as (Hn & Hcols & Hother & Hin).
    simpl. fold df1. repeat split.
    + rewrite Hn. reflexivity.
    + rewrite Hcols. unfold df1. now apply setitem_columns.
    + intros c Hc. rewrite Hother by tauto.
      unfold df1. apply setitem_get_other. tauto.
    + intros c Hc.
      destruct (in_dec string_dec c names) as [Hi|Hni].
      * destruct (Hin c Hi) as (ys & Hys & Hget). exists ys. split; [now right | exact Hget].
      * destruct Hc as [->|Hc]; [|contradiction].
        exists xs. split; [now left|].
        rewrite Hother by exact Hni. unfold df1. apply setitem_get_same.
Qed.

End FrameFacts.

(** ** Min-max normalisation *)

Section Normalisation.
Import Frame Processor.
Local Open Scope string_scope.

(** The column [ys] is column [c] of [df] read as numbers, missing values
    filled with 0, and rescaled cell by cell by the scaler fitted to it. *)
Definition scaled_from (df : DataFrame) (c : string) (ys : list float) : Prop :=
  exists col xs sc,
    Dict.get (cols df) c = Some col
    /\ astype_float col = Ok (xs, [])
    /\ fit (map fillna0 xs) = Ok (sc, [])
    /\ ys = map (fun x => transform sc (fillna0 x)) xs.

Lemma fit_ok xs sc out : fit xs = Ok (sc, out) -> out = [].
Proof.
  unfold fit. destruct xs as [|x0 rest]; [discriminate|].
  destruct (existsb is_infinity (x0 :: rest)); [discriminate|].
  unfold ret; intros H; now inversion H.
Qed.

Lemma fit_transform_ok xs ys out :
  fit_transform xs = Ok (ys, out) ->
  exists sc, fit xs = Ok (sc, []) /\ ys = map (transform sc) xs.
Proof.
  unfold fit_transform. intros H. bind_inv H sc Hfit Hret.
  pose proof (fit_ok _ _ _ Hfit) as ->.
  unfold ret in Hret; inversion Hret; subst. eauto.
Qed.

Lemma filled_column_ok df c ys out :
  (col <- getitem df c ;; xs <- astype_float col ;; ret (map fillna0 xs))%py
    = Ok (ys, out) ->
  exists col xs,
    Dict.get (cols df) c = Some col
    /\ astype_float col = Ok (xs, []) /\ ys = map fillna0 xs.
Proof.
  intros H. bind_inv H col Hcol Hk. bind_inv Hk xs Hxs Hret.
  apply getitem_ok in Hcol as [Hget _].
  pose proof (astype_float_ok _ _ _ Hxs) as [-> _].
  unfold ret in Hret; inversion Hret; subst. eauto.
Qed.

Lemma Forall2_compose {A B C} (R : A -> B -> Prop) (S : B -> C -> Prop)
  (T : A -> C -> Prop) l1 l2 l3 :
  (forall a b c, R a b -> S b c -> T a c) ->
  Forall2 R l1 l2 -> Forall2 S l2 l3 -> Forall2 T l1 l3.
Proof.
  intros HT H12. revert l3. induction H12; intros l3 H23; inversion H23; subst.
  - constructor.
  - constructor; eauto.
Qed.

Lemma normalize_features_columns df feature_cols df' out :
  normalize_features df feature_cols = Ok (df', out) ->
  (filter (has_col df) feature_cols = [] /\ df' = df)
  \/ exists X',
       Forall2 (scaled_from df) (filter (has_col df) feature_cols) X'
       /\ df' = assign df (filter (has_col df) feature_cols) X'.
Proof.
  unfold normalize_features. cbv zeta.
  destruct (filter (has_col df) feature_cols) as [|c0 rest] eqn:E; intros H.
  - left. unfold ret in H; inversion H; auto.
  - right. rewrite <- E in *. clear E.
    bind_inv H X HX Hk. bind_inv Hk X' HX' Hk'. bind_inv Hk' u Hprint Hret.
    unfold ret in Hret; inversion Hret; subst.
    exists X'. split; [|reflexivity].
    apply mapM_ok in HX. apply mapM_ok in HX'.
    refine (Forall2_compose _ _ _ _ _ _ _ HX HX').
    intros c ys zs [o1 H1] [o2 H2].
    apply filled_column_ok in H1 as (col & xs & Hget & Hxs & ->).
    apply fit_transform_ok in H2 as (sc & Hfit & ->).
    exists col, xs, sc. repeat split; auto. now rewrite map_map.
Qed.

Lemma normalize_features_scaled df feature_cols df' out c :
  normalize_features df feature_cols = Ok (df', out) ->
  In c feature_cols -> has_col df c = true ->
  exists ys, Dict.get (cols df') c = Some (FloatCol ys) /\ scaled_from df c ys.
Proof.
  intros H Hc Hhas. apply normalize_features_columns in H.
  assert (Hin : In c (filter (has_col df) feature_cols)) by (apply filter_In; auto).
  destruct H as [[Hnil ->]|(X' & HX & ->)].
  - rewrite Hnil in Hin. contradiction.
  - assert (Hall : Forall (fun c => has_col df c = true)
                          (filter (has_col df) feature_cols)).
    { apply Forall_forall. intros c' Hc'. now apply filter_In in Hc'. }
    assert (Hlen : List.length X' = List.length (filter (has_col df) feature_cols)).
    { symmetry. eapply Forall2_length; eauto. }
    destruct (assign_frame _ X' df Hall Hlen) as (_ & _ & _ & Hassigned).
    destruct (Hassigned c Hin) as (ys & Hys & Hget).
    exists ys. split; [exact Hget|].
    exact (Forall2_combine _ _ _ _ _ HX Hys).
Qed.

(** C10: when min-max normalisation returns, the table has the same
    number of rows and the same columns in the same order; every column
    that is not both listed and present is exactly as it was; and each
    listed column that is present is rewritten cell by cell, row [i] of
    the result being a function of row [i] of the input, so the rows keep
    their order. *)
Theorem normalize_features_frame df feature_cols df' out :
  normalize_features df feature_cols = Ok (df', out) ->
  nrows df' = nrows df
  /\ columns df' = columns df
  /\ (forall c, ~ (In c feature_cols /\ has_col df c = true) ->
        Dict.get (cols df') c = Dict.get (cols df) c)
  /\ (forall c, In c feature_cols -> has_col df c = true ->
        exists ys, Dict.get (cols df') c = Some (FloatCol ys)
                   /\ scaled_from df c ys).
Proof.
  intros H. apply normalize_features_columns in H.
  assert (Hmem : forall c,
             In c (filter (has_col df) feature_cols)
             <-> In c feature_cols /\ has_col df c = true).
  { intros c. apply filter_In. }
  destruct H as [[Hnil ->]|(X' & HX & ->)].
  - repeat split; auto.
    intros c Hc Hhas. exfalso.
    assert (Hin : In c (filter (has_col df) feature_cols)) by (apply Hmem; auto).
    rewrite Hnil in Hin. exact Hin.
  - assert (Hall : Forall (fun c => has_col df c = true)
                          (filter (has_col df) feature_cols)).
    { apply Forall_forall. intros c Hc. now apply Hmem in Hc. }
    assert (Hlen : List.length X' = List.length (filter (has_col df) feature_cols)).
    { symmetry. eapply Forall2_length; eauto. }
    destruct (assign_frame _ X' df Hall Hlen) as (Hn & Hcols & Hother & Hin).
    repeat split; auto.
    + intros c Hc. apply Hother. intros Hi. apply Hc. now apply Hmem.
    + intros c Hc Hhas.
      destruct (Hin c) as (ys & Hys & Hget); [apply Hmem; auto|].
      exists ys. split; [exact Hget|].
      exact (Forall2_combine _ _ _ _ _ HX Hys).
Qed.

End Normalisation.

(** ** Binary64 facts *)

Section FloatFacts.
Local Open Scope float_scope.

Lemma is_nan_spec x : is_nan x = true <-> Prim2SF x = S754_nan.
Proof.
  unfold is_nan. rewrite FloatAxioms.eqb_spec.
  destruct (Prim2SF x) as [s|s| |s m e] eqn:E; simpl.
  - destruct s; split; discriminate.
  - destruct s; split; discriminate.
  - tauto.
  - unfold SFeqb, SFcompare.
    destruct s; rewrite Z.compare_refl, Pos.compare_cont_refl; simpl;
      split; discriminate.
Qed.

Lemma is_nan_eq x : is_nan x = true <-> x = nan.
Proof.
  rewrite is_nan_spec. split.
  - intros H. apply Prim2SF_inj. now rewrite H.
  - intros ->. reflexivity.
Qed.

Lemma div_nan s : s / nan = nan.
Proof.
  apply Prim2SF_inj. rewrite FloatAxioms.div_spec.
  change (Prim2SF nan) with S754_nan.
  unfold SF64div, SFdiv. destruct (Prim2SF s); reflexivity.
Qed.

Lemma positive_not_zero p : (0 <? p) = true -> (p =? 0) = false.
Proof.
  rewrite FloatAxioms.ltb_spec, FloatAxioms.eqb_spec.
  change (Prim2SF 0) with (S754_zero false).
  unfold SFltb, SFeqb, SFcompare.
  destruct (Prim2SF p) as [s|s| |s m e]; try destruct s; simpl; congruence.
Qed.
End FloatFacts.

(** ** Per-90 conversion *)

Section Per90.
Import Text Frame Processor.
Local Open Scope string_scope.

Definition per90_name (stat : string) : string := stat ++ "_per90".

Lemma per90_positive s p : (0 <? p)%float = true -> per90 s p = (s / p)%float.
Proof.
  intros H. unfold per90, replace_zero_nan. now rewrite positive_not_zero.
Qed.

Lemma per90_zero s p : (p =? 0)%float = true -> per90 s p = nan.
Proof.
  intros H. unfold per90, replace_zero_nan. rewrite H. apply div_nan.
Qed.

Lemma per90_loop_cons m stat rest df :
  per90_loop m (stat :: rest) df =
  match Dict.get m stat with
  | Some col =>
      if has_col df col then
        (c <- getitem df col ;;
         s <- astype_float c ;;
         c90 <- getitem df "90s_played" ;;
         p <- astype_float c90 ;;
         per90_loop m rest
           (setitem df (per90_name stat) (FloatCol (map2 per90 s p))))%py
      else per90_loop m rest df
  | None => per90_loop m rest df
  end.
Proof. reflexivity. Qed.

(** One round of the loop that writes a column. *)
Lemma per90_round df col (k : DataFrame -> M DataFrame) name df' out :
  (c <- getitem df col ;;
   s <- astype_float c ;;
   c90 <- getitem df "90s_played" ;;
   p <- astype_float c90 ;;
   k (setitem df name (FloatCol (map2 per90 s p))))%py = Ok (df', out) ->
  exists colv ss c90 ps out',
    Dict.get (cols df) col = Some colv /\ astype_float colv = Ok (ss, [])
    /\ Dict.get (cols df) "90s_played" = Some c90 /\ astype_float c90 = Ok (ps, [])
    /\ k (setitem df name (FloatCol (map2 per90 ss ps))) = Ok (df', out').
Proof.
  intros H.
  bind_inv H colv Hc H. bind_inv H ss Hs H.
  bind_inv H c90 Hc90 H. bind_inv H ps Hp H.
  apply getitem_ok in Hc as [Hc _]. apply getitem_ok in Hc90 as [Hc90 _].
  pose proof (astype_float_ok _ _ _ Hs) as [-> _].
  pose proof (astype_float_ok _ _ _ Hp) as [-> _].
  exists colv, ss, c90, ps. eauto 10.
Qed.

(** The loop writes no column but the per-90 columns of its statistics. *)
Lemma per90_loop_frame m stats : forall df df' out,
  per90_loop m stats df = Ok (df', out) ->
  nrows df' = nrows df
  /\ forall c, ~ In c (map per90_name stats) ->
       Dict.get (cols df') c = Dict.get (cols df) c.
Proof.
  induction stats as [|stat rest IH]; intros df df' out H.
  - simpl in H. unfold ret in H. inversion H; subst. auto.
  - rewrite per90_loop_cons in H.
    assert (Hskip : per90_loop m rest df = Ok (df', out) ->
              nrows df' = nrows df
              /\ forall c, ~ In c (map per90_name (stat :: rest)) ->
                   Dict.get (cols df') c = Dict.get (cols df) c).
    { intros H'. destruct (IH _ _ _ H') as [Hn Hf]. split; [exact Hn|].
      intros c Hc. apply Hf. simpl in Hc. tauto. }
    destruct (Dict.get m stat) as [col|]; [|exact (Hskip H)].
    destruct (has_col df col); [|exact (Hskip H)].
    apply per90_round in H as (colv & ss & c90 & ps & out' & _ & _ & _ & _ & H).
    destruct (IH _ _ _ H) as [Hn Hf]. split; [exact Hn|].
    intros c Hc. simpl in Hc. rewrite Hf by tauto.
    apply setitem_get_other. tauto.
Qed.

(** What the loop writes for one of its statistics. *)
Lemma per90_loop_cells m stats :
  NoDup (map per90_name stats) ->
  ~ In "90s_played" (map per90_name stats) ->
  forall df df' out pre stat post col,
    per90_loop m stats df = Ok (df', out) ->
    stats = (pre ++ stat :: post)%list ->
    Dict.get m stat = Some col ->
    has_col df col = true ->
    ~ In col (map per90_name pre) ->
    exists colv ss c90 ps,
      Dict.get (cols df) col = Some colv /\ astype_float colv = Ok (ss, [])
      /\ Dict.get (cols df) "90s_played" = Some c90
      /\ astype_float c90 = Ok (ps, [])
      /\ Dict.get (cols df') (per90_name stat)
         = Some (FloatCol (map2 per90 ss ps)).
Proof.
  induction stats as [|s0 rest IH]; intros Hnd H90 df df' out pre stat post col H Hsplit Hm Hhas Hpre.
  - destruct pre; discriminate.
  - inversion Hnd as [|? ? Hs0 Hnd']; subst.
    assert (H90' : ~ In "90s_played" (map per90_name rest)) by (simpl in H90; tauto).
    rewrite per90_loop_cons in H.
    destruct pre as [|s1 pre'].
    + (* the statistic is the one of this round *)
      simpl in Hsplit. inversion Hsplit; subst s0 rest.
      rewrite Hm, Hhas in H.
      apply per90_round in H as (colv & ss & c90 & ps & out' & Hc & Hss & Hc90 & Hps & H).
      exists colv, ss, c90, ps. repeat split; auto.
      destruct (per90_loop_frame _ _ _ _ _ H) as [_ Hf].
      rewrite Hf by exact Hs0. apply setitem_get_same.
    + (* the statistic comes in a later round *)
      simpl in Hsplit. inversion Hsplit; subst s1 rest.
      simpl in Hpre.
      assert (Hskip : per90_loop m (pre' ++ stat :: post) df = Ok (df', out) ->
                exists colv ss c90 ps,
                  Dict.get (cols df) col = Some colv /\ astype_float colv = Ok (ss, [])
                  /\ Dict.get (cols df) "90s_played" = Some c90
                  /\ astype_float c90 = Ok (ps, [])
                  /\ Dict.get (cols df') (per90_name stat)
                     = Some (FloatCol (map2 per90 ss ps))).
      { intros H'. eapply (IH Hnd' H90'); eauto. }
      destruct (Dict.get m s0) as [col0|]; [|exact (Hskip H)].
      destruct (has_col df col0); [|exact (Hskip H)].
      apply per90_round in H as (colv0 & ss0 & c900 & ps0 & out' & _ & _ & _ & _ & H).
      set (df1 := setitem df (per90_name s0) (FloatCol (map2 per90 ss0 ps0))) in *.
      assert (Hhas1 : has_col df1 col = true).
      { unfold df1. rewrite setitem_has_col, Hhas. apply orb_true_r. }
      destruct (IH Hnd' H90' df1 df' out' pre' stat post col H eq_refl Hm Hhas1
                   ltac:(tauto))
        as (colv & ss & c90 & ps & Hc & Hss & Hc90 & Hps & Hres).
      exists colv, ss, c90, ps. repeat split; auto.
      * rewrite <- Hc. unfold df1. symmetry. apply setitem_get_other. tauto.
      * rewrite <- Hc90. unfold df1. symmetry. apply setitem_get_other.
        simpl in H90. tauto.
Qed.

End Per90.

Section Per90Conversion.
Import Text Frame Processor.
Local Open Scope string_scope.

(** The 90-minute-period counts [normalize_per_90] derives from the
    minutes column. *)
Definition periods (min_col : string) (ms : list float) : list float :=
  if str_in "90" (lower min_col) then ms
  else map (fun x => (x / 90)%float) ms.

Lemma counting_stats_names_nodup : NoDup (map per90_name counting_stats).
Proof.
  simpl. repeat (constructor; [simpl; intuition discriminate|]). constructor.
Qed.

Lemma normalize_per_90_columns df m min_col df' out pre stat post col :
  Dict.get m "minutes" = Some min_col ->
  normalize_per_90 df m = Ok (df', out) ->
  counting_stats = (pre ++ stat :: post)%list ->
  Dict.get m stat = Some col ->
  has_col df col = true ->
  col <> "90s_played" ->
  ~ In col (map per90_name pre) ->
  exists mcol ms colv ss,
    Dict.get (cols df) min_col = Some mcol /\ astype_float mcol = Ok (ms, [])
    /\ Dict.get (cols df) col = Some colv /\ astype_float colv = Ok (ss, [])
    /\ Dict.get (cols df') "90s_played" = Some (FloatCol (periods min_col ms))
    /\ Dict.get (cols df') (per90_name stat)
       = Some (FloatCol (map2 per90 ss (periods min_col ms))).
Proof.
  intros Hmin H Hsplit Hm Hhas H90 Hpre.
  unfold normalize_per_90 in H. rewrite Hmin in H.
  bind_inv H mcol Hmcol H. bind_inv H ms Hms H.
  apply getitem_ok in Hmcol as [Hmcol _].
  pose proof (astype_float_ok _ _ _ Hms) as [-> _].
  fold (periods min_col ms) in H.
  set (df0 := setitem df "90s_played" (FloatCol (periods min_col ms))) in *.
  assert (Hno90 : ~ In "90s_played" (map per90_name counting_stats)).
  { simpl. intuition discriminate. }
  assert (Hhas0 : has_col df0 col = true).
  { unfold df0. rewrite setitem_has_col, Hhas. apply orb_true_r. }
  destruct (per90_loop_cells m counting_stats counting_stats_names_nodup Hno90
              df0 df' _ pre stat post col H Hsplit Hm Hhas0 Hpre)
    as (colv & ss & c90 & ps & Hc & Hss & Hc90 & Hps & Hres).
  unfold df0 in Hc90. rewrite setitem_get_same in Hc90.
  inversion Hc90; subst c90. simpl in Hps. unfold ret in Hps.
  inversion Hps; subst ps.
  exists mcol, ms, colv, ss. repeat split; auto.
  - rewrite <- Hc. unfold df0. symmetry. apply setitem_get_other. congruence.
  - destruct (per90_loop_frame _ _ _ _ _ H) as [_ Hf].
    rewrite Hf by exact Hno90. unfold df0. apply setitem_get_same.
Qed.

(** No alias of a counting statistic occurs in ["90s_played"] or in the
    per-90 name of a statistic converted before it, so a mapping made by
    [identify_columns] never sends a statistic to a column the conversion
    has already written. *)
Lemma aliases_miss_written_columns pre stat post names :
  counting_stats = (pre ++ stat :: post)%list ->
  In (stat, names) patterns ->
  hits names "90s_played" = false
  /\ Forall (fun k => hits names (per90_name k) = false) pre.
Proof.
  intros Hsplit Hin.
  assert (Hnames : forall k ns ns',
             In (k, ns) patterns -> In (k, ns') patterns -> ns = ns').
  { intros k ns ns' H1 H2.
    unfold patterns in H1. simpl in H1.
    repeat (destruct H1 as [H1|H1];
            [inversion H1; subst; clear H1;
             unfold patterns in H2; simpl in H2;
             repeat (destruct H2 as [H2|H2];
                     [inversion H2; subst; reflexivity || discriminate|]);
             contradiction|]).
    contradiction. }
  unfold counting_stats in Hsplit.
  repeat (destruct pre as [|? pre];
          [ simpl in Hsplit; inversion Hsplit; subst; clear Hsplit
          | simpl in Hsplit; inversion Hsplit; subst ]);
    try (destruct pre; discriminate).
  all: match goal with
       | H : In (?k, ?ns0) patterns |- _ =>
           let ns := eval vm_compute in
             (match Dict.get patterns k with Some l => l | None => [] end) in
           assert (ns0 = ns) as -> by (apply (Hnames k); [exact H | simpl; tauto])
       end.
  all: split; [vm_compute; reflexivity | repeat constructor].
Qed.

Lemma identify_columns_stat_column t pre stat post col :
  counting_stats = (pre ++ stat :: post)%list ->
  Dict.get (identify_columns t) stat = Some col ->
  col <> "90s_played" /\ ~ In col (map per90_name pre).
Proof.
  intros Hsplit Hget.
  assert (Hex : exists names, In (stat, names) patterns).
  { destruct (in_dec string_dec stat (map fst patterns)) as [Hi|Hni].
    - apply in_map_iff in Hi as ([k ns] & Hk & Hi). simpl in Hk; subst. eauto.
    - rewrite identify_columns_absent in Hget by exact Hni. discriminate. }
  destruct Hex as [names Hin].
  rewrite (identify_columns_get t _ _ Hin) in Hget.
  apply scan_columns_some in Hget as (_ & _ & _ & Hhit & _).
  destruct (aliases_miss_written_columns _ _ _ _ Hsplit Hin) as [H90 Hpre].
  split.
  - intros ->. congruence.
  - intros Hi. apply in_map_iff in Hi as (k & <- & Hk).
    rewrite Forall_forall in Hpre. specialize (Hpre k Hk). congruence.
Qed.

End Per90Conversion.

Section Per90Claims.
Import Text Frame Processor.
Local Open Scope string_scope.

(** Row by row, [rs] holds the rate of the statistic [ss] over the period
    counts [ps]: the quotient where the count is positive, and a missing
    value, which is neither zero nor an infinity, where the count is zero. *)
Definition rates_of (ss ps rs : list float) : Prop :=
  forall i s p,
    nth_error ss i = Some s -> nth_error ps i = Some p ->
    exists r,
      nth_error rs i = Some r
      /\ ((0 <? p)%float = true -> r = (s / p)%float)
      /\ ((p =? 0)%float = true ->
            is_nan r = true /\ (r =? 0)%float = false /\ is_infinity r = false).

(** In [df'] the column [<stat>_per90] holds the rates of column [col] of
    [df] over the period counts of column [90s_played], which are the
    minutes column of [df] read as periods. *)
Definition per90_converted (df df' : DataFrame) (min_col col stat : string)
  : Prop :=
  exists mcol ms colv ss rs,
    Dict.get (cols df) min_col = Some mcol /\ astype_float mcol = Ok (ms, [])
    /\ Dict.get (cols df) col = Some colv /\ astype_float colv = Ok (ss, [])
    /\ Dict.get (cols df') "90s_played" = Some (FloatCol (periods min_col ms))
    /\ Dict.get (cols df') (stat ++ "_per90") = Some (FloatCol rs)
    /\ rates_of ss (periods min_col ms) rs.

Lemma map2_nth_error {A B C} (f : A -> B -> C) xs ys i x y :
  nth_error xs i = Some x -> nth_error ys i = Some y ->
  nth_error (map2 f xs ys) i = Some (f x y).
Proof.
  revert ys i. induction xs as [|x0 xs IH]; intros ys i Hx Hy.
  - destruct i; discriminate.
  - destruct ys as [|y0 ys]; [destruct i; discriminate|].
    destruct i; simpl in *.
    + inversion Hx; inversion Hy; reflexivity.
    + eauto.
Qed.

Lemma rates_of_per90 ss ps : rates_of ss ps (map2 per90 ss ps).
Proof.
  intros i s p Hs Hp. exists (per90 s p).
  split; [now apply map2_nth_error|]. split.
  - apply per90_positive.
  - intros H. rewrite (per90_zero s p H). repeat split; reflexivity.
Qed.

(** A column [astype(float)] reads without raising. *)
Definition readable (c : column) : Prop :=
  exists xs, astype_float c = Ok (xs, []).

(** The minutes column is in the table, and the minutes column and the
    columns of the counting statistics read as numbers. *)
Definition numeric_inputs (m : Dict.dict string) (df : DataFrame) : Prop :=
  (forall min_col, Dict.get m "minutes" = Some min_col ->
     has_col df min_col = true)
  /\ forall key col c,
       In key ("minutes" :: counting_stats) ->
       Dict.get m key = Some col -> Dict.get (cols df) col = Some c ->
       readable c.

Lemma bind_ret_l {A B} (a : A) (k : A -> M B) : bind (Ok (a, [])) k = k a.
Proof. unfold bind. destruct (k a) as [[b out]|e]; reflexivity. Qed.

Lemma getitem_some df c col :
  Dict.get (cols df) c = Some col -> getitem df c = Ok (col, []).
Proof. unfold getitem. now intros ->. Qed.

Lemma per90_loop_returns m stats : forall df ps,
  ~ In "90s_played" (map per90_name stats) ->
  Dict.get (cols df) "90s_played" = Some (FloatCol ps) ->
  (forall key col c, In key stats -> Dict.get m key = Some col ->
     Dict.get (cols df) col = Some c -> readable c) ->
  exists df', per90_loop m stats df = Ok (df', []).
Proof.
  induction stats as [|stat rest IH]; intros df ps H90 Hp Hnum.
  - exists df. reflexivity.
  - assert (H90' : ~ In "90s_played" (map per90_name rest)) by (simpl in H90; tauto).
    assert (Hnum' : forall key col c, In key rest -> Dict.get m key = Some col ->
               Dict.get (cols df) col = Some c -> readable c).
    { intros key col c Hk. apply Hnum. now right. }
    rewrite per90_loop_cons.
    destruct (Dict.get m stat) as [col|] eqn:Em; [|now apply (IH df ps)].
    destruct (has_col df col) eqn:Eh; [|now apply (IH df ps)].
    apply has_col_get in Eh as [c Hc].
    destruct (Hnum stat col c (or_introl eq_refl) Em Hc) as [ss Hss].
    rewrite (getitem_some _ _ _ Hc), bind_ret_l, Hss, bind_ret_l.
    rewrite (getitem_some _ _ _ Hp), bind_ret_l.
    cbn [astype_float]. unfold ret at 1. rewrite bind_ret_l.
    apply (IH _ ps); auto.
    + rewrite setitem_get_other; [exact Hp|]. simpl in H90. intros E. apply H90. now left.
    + intros key col' c' Hk Hm' Hget.
      destruct (string_dec (per90_name stat) col') as [<-|Hne].
      * rewrite setitem_get_same in Hget. inversion Hget; subst.
        eexists. reflexivity.
      * rewrite setitem_get_other in Hget by exact Hne. eapply Hnum'; eauto.
Qed.

Lemma normalize_per_90_returns m df min_col :
  Dict.get m "minutes" = Some min_col ->
  numeric_inputs m df ->
  exists df', normalize_per_90 df m = Ok (df', []).
Proof.
  intros Hmin [Hhas Hnum]. unfold normalize_per_90. rewrite Hmin.
  destruct (proj1 (has_col_get df min_col) (Hhas _ Hmin)) as [mcol Hmcol].
  destruct (Hnum "minutes" min_col mcol (or_introl eq_refl) Hmin Hmcol) as [ms Hms].
  rewrite (getitem_some _ _ _ Hmcol), bind_ret_l, Hms, bind_ret_l.
  fold (periods min_col ms).
  apply (per90_loop_returns m counting_stats _ (periods min_col ms)).
  - simpl. intuition discriminate.
  - apply setitem_get_same.
  - intros key col c Hk Hm Hget.
    destruct (string_dec "90s_played" col) as [<-|Hne].
    + rewrite setitem_get_same in Hget. inversion Hget; subst. eexists. reflexivity.
    + rewrite setitem_get_other in Hget by exact Hne.
      apply (Hnum key col c); auto. now right.
Qed.

Lemma normalize_per_90_sound t df min_col stat col df' out :
  Dict.get (identify_columns t) "minutes" = Some min_col ->
  In stat counting_stats ->
  Dict.get (identify_columns t) stat = Some col ->
  has_col df col = true ->
  normalize_per_90 df (identify_columns t) = Ok (df', out) ->
  per90_converted df df' min_col col stat.
Proof.
  intros Hmin Hstat Hcol Hhas H.
  destruct (in_split _ _ Hstat) as (pre & post & Hsplit).
  destruct (identify_columns_stat_column t pre stat post col Hsplit Hcol) as [H90 Hpre].
  destruct (normalize_per_90_columns df _ min_col df' out pre stat post col
              Hmin H Hsplit Hcol Hhas H90 Hpre)
    as (mcol & ms & colv & ss & Hm & Hms & Hc & Hss & Hp & Hr).
  exists mcol, ms, colv, ss, (map2 per90 ss (periods min_col ms)).
  repeat split; auto. apply rates_of_per90.
Qed.

(** C1: take a column mapping made by column resolution that holds the
    minutes field, and a table whose minutes column and statistic columns
    read as numbers.  The per-90 conversion returns, and for every
    counting statistic in the mapping whose column is in the table and
    every row, the derived [<stat>_per90] is the statistic divided by the
    row's 90-minute-period count [p] when [p > 0], and is a missing value
    (NaN), neither zero nor an infinity, when [p = 0]. *)
Theorem normalize_per_90_rates t df min_col :
  Dict.get (identify_columns t) "minutes" = Some min_col ->
  numeric_inputs (identify_columns t) df ->
  exists df',
    normalize_per_90 df (identify_columns t) = Ok (df', [])
    /\ forall stat col,
         In stat counting_stats ->
         Dict.get (identify_columns t) stat = Some col ->
         has_col df col = true ->
         per90_converted df df' min_col col stat.
Proof.
  intros Hmin Hnum.
  destruct (normalize_per_90_returns _ df min_col Hmin Hnum) as [df' H].
  exists df'. split; [exact H|].
  intros stat col Hstat Hcol Hhas.
  exact (normalize_per_90_sound t df min_col stat col df' [] Hmin Hstat Hcol Hhas H).
Qed.

(** The scenario of the specification: a player with no minutes and two
    goals, next to one with 900 minutes and nine goals. *)
Definition zero_minutes_table : DataFrame :=
  mkDF 2 [ ("Player", ObjCol [Some "Ernest Nuamah"; Some "Antoine Semenyo"]);
           ("Squad",  ObjCol [Some "Lyon"; Some "Bournemouth"]);
           ("Min",    FloatCol [0; 900]%float);
           ("Gls",    FloatCol [2; 9]%float) ].

Definition zero_minutes_converted : DataFrame :=
  mkDF 2 [ ("Player", ObjCol [Some "Ernest Nuamah"; Some "Antoine Semenyo"]);
           ("Squad",  ObjCol [Some "Lyon"; Some "Bournemouth"]);
           ("Min",    FloatCol [0; 900]%float);
           ("Gls",    FloatCol [2; 9]%float);
           ("90s_played", FloatCol [0; 10]%float);
           ("goals_per90", FloatCol [nan; (9 / 10)%float]) ].

Lemma zero_minutes_numeric :
  numeric_inputs (identify_columns zero_minutes_table) zero_minutes_table.
Proof.
  split.
  - intros min_col H. vm_compute in H. inversion H; subst. reflexivity.
  - intros key col c Hk Hm Hget. simpl in Hk.
    repeat (destruct Hk as [<-|Hk];
            [vm_compute in Hm; try discriminate; inversion Hm; subst;
             vm_compute in Hget; inversion Hget; subst; eexists; reflexivity|]).
    contradiction.
Qed.

Lemma normalize_per_90_rates_witness :
  Dict.get (identify_columns zero_minutes_table) "minutes" = Some "Min"
  /\ numeric_inputs (identify_columns zero_minutes_table) zero_minutes_table
  /\ exists df',
       normalize_per_90 zero_minutes_table (identify_columns zero_minutes_table)
       = Ok (df', [])
       /\ forall stat col,
            In stat counting_stats ->
            Dict.get (identify_columns zero_minutes_table) stat = Some col ->
            has_col zero_minutes_table col = true ->
            per90_converted zero_minutes_table df' "Min" col stat.
Proof.
  split; [reflexivity|]. split; [exact zero_minutes_numeric|].
  exact (normalize_per_90_rates zero_minutes_table zero_minutes_table "Min"
           eq_refl zero_minutes_numeric).
Defined.

(** On that table the conversion gives the player without minutes a
    missing rate, and the other player nine goals over ten periods. *)
Example zero_minutes_missing :
  normalize_per_90 zero_minutes_table (identify_columns zero_minutes_table)
  = Ok (zero_minutes_converted, []).
Proof. vm_compute. reflexivity. Qed.

End Per90Claims.

(** ** Missing rates in the processed table *)

Section PersistedRates.
Import Text Frame Processor.
Local Open Scope string_scope.

(** The pipeline up to and including the per-90 conversion: the table
    [process_data] hands to [normalize_features]. *)
Definition before_scaling (raw : DataFrame) : M DataFrame :=
  let col_mapping := identify_columns raw in
  (df <- filter_forwards raw col_mapping ;;
   df <- filter_minimum_minutes df col_mapping ;;
   normalize_per_90 df col_mapping)%py.

Lemma process_data_stages raw processed out :
  process_data raw = Ok (Some processed, out) ->
  exists converted out1 out2,
    before_scaling raw = Ok (converted, out1)
    /\ normalize_features converted feature_cols = Ok (processed, out2).
Proof.
  unfold process_data, before_scaling.
  destruct (empty raw).
  - intros H. unfold bind, print, ret in H. discriminate.
  - intros H.
    bind_inv H u Hprint H. bind_inv H df1 H1 H. bind_inv H df2 H2 H.
    bind_inv H df3 H3 H. bind_inv H df4 H4 H. bind_inv H u' Hprint' H.
    unfold ret in H. inversion H; subst.
    exists df3. rewrite H1. unfold bind at 1. rewrite H2.
    unfold bind. rewrite H3. eauto.
Qed.

(** What the specification asks of a run: a rate that is missing when the
    table reaches the scaling step is still missing in the table written
    out. *)
Definition missing_stays_missing (converted processed : DataFrame) : Prop :=
  forall c xs ys i x,
    In c feature_cols ->
    Dict.get (cols converted) c = Some (FloatCol xs) ->
    Dict.get (cols processed) c = Some (FloatCol ys) ->
    nth_error xs i = Some x -> is_nan x = true ->
    exists y, nth_error ys i = Some y /\ is_nan y = true.

(** What the code does with column [c]: the column written out is the
    column handed to the scaling step with every missing value replaced by
    0 and every cell then rescaled by the scaler fitted to the filled
    column; so a missing rate is written as the scaled image of 0. *)
Definition imputed_then_scaled (converted processed : DataFrame) (c : string)
  : Prop :=
  exists col xs sc ys,
    Dict.get (cols converted) c = Some col
    /\ astype_float col = Ok (xs, [])
    /\ fit (map fillna0 xs) = Ok (sc, [])
    /\ Dict.get (cols processed) c = Some (FloatCol ys)
    /\ forall i x,
         nth_error xs i = Some x ->
         nth_error ys i = Some (transform sc (if is_nan x then 0%float else x)).

(** Two forwards with 900 minutes, the first with no goal count. *)
Definition missing_goals_table : DataFrame :=
  mkDF 2 [ ("Player", ObjCol [Some "Kamaldeen Sulemana"; Some "Joseph Paintsil"]);
           ("Squad",  ObjCol [Some "Southampton"; Some "LA Galaxy"]);
           ("Pos",    ObjCol [Some "FW"; Some "FW,MF"]);
           ("Min",    FloatCol [900; 900]%float);
           ("Gls",    FloatCol [nan; 9]%float) ].

(** C2, as stated, fails: on [missing_goals_table] the first player's
    goals per 90 are missing after the per-90 conversion, and the table
    written out holds 0 in that cell. *)
Lemma process_data_writes_zero_for_missing :
  exists converted processed out1 out2,
    before_scaling missing_goals_table = Ok (converted, out1)
    /\ process_data missing_goals_table = Ok (Some processed, out2)
    /\ Dict.get (cols converted) "goals_per90"
       = Some (FloatCol [nan; (9 / 10)%float])
    /\ Dict.get (cols processed) "goals_per90"
       = Some (FloatCol [0%float; 1%float])
    /\ ~ missing_stays_missing converted processed.
Proof.
  destruct (before_scaling missing_goals_table) as [[converted out1]|e] eqn:E1;
    [|vm_compute in E1; discriminate].
  destruct (process_data missing_goals_table) as [[[processed|] out2]|e] eqn:E2;
    try (vm_compute in E2; discriminate).
  exists converted, processed, out1, out2.
  vm_compute in E1. inversion E1; subst converted out1. clear E1.
  vm_compute in E2. inversion E2; subst processed out2. clear E2.
  repeat split; try reflexivity.
  intros H.
  destruct (H "goals_per90" [nan; (9 / 10)%float] [0%float; 1%float] 0%nat nan)
    as (y & Hy & Hnan); try reflexivity.
  - simpl; tauto.
  - simpl in Hy. inversion Hy; subst y. vm_compute in Hnan. discriminate.
Qed.

(** C2, amended: in every run of the pipeline that writes a table, each
    per90 feature column of the table handed to the scaling step is
    written out with its missing values replaced by 0 and every cell
    rescaled by the min-max scaler fitted to the filled column.  A rate
    that is missing after the per-90 conversion is therefore not kept
    missing: the cell written is the scaled image of 0. *)
Theorem process_data_imputes_missing_rates raw processed out :
  process_data raw = Ok (Some processed, out) ->
  exists converted out1,
    before_scaling raw = Ok (converted, out1)
    /\ forall c, In c feature_cols -> has_col converted c = true ->
         imputed_then_scaled converted processed c.
Proof.
  intros H.
  destruct (process_data_stages raw processed out H)
    as (converted & out1 & out2 & Hconv & Hnorm).
  exists converted, out1. split; [exact Hconv|].
  intros c Hc Hhas.
  destruct (normalize_features_scaled _ _ _ _ c Hnorm Hc Hhas)
    as (ys & Hys & col & xs & sc & Hcol & Hxs & Hfit & ->).
  exists col, xs, sc, (map (fun x => transform sc (fillna0 x)) xs).
  repeat split; auto.
  intros i x Hx. rewrite nth_error_map, Hx. reflexivity.
Qed.

Definition missing_goals_processed : DataFrame :=
  mkDF 2 [ ("Player", ObjCol [Some "Kamaldeen Sulemana"; Some "Joseph Paintsil"]);
           ("Squad",  ObjCol [Some "Southampton"; Some "LA Galaxy"]);
           ("Pos",    ObjCol [Some "FW"; Some "FW,MF"]);
           ("Min",    FloatCol [900; 900]%float);
           ("Gls",    FloatCol [nan; 9]%float);
           ("90s_played", FloatCol [10; 10]%float);
           ("goals_per90", FloatCol [0; 1]%float) ].

Definition missing_goals_output : list event :=
  [ IdentifiedColumns
      [ ("player", "Player"); ("team", "Squad"); ("position", "Pos");
        ("minutes", "Min"); ("goals", "Gls") ];
    FilteredForwards 2; FilteredMinutes 2; NormalizedFeatures 1; Saved 2 ].

Lemma process_data_missing_goals :
  process_data missing_goals_table
  = Ok (Some missing_goals_processed, missing_goals_output).
Proof. vm_compute. reflexivity. Qed.

Lemma process_data_imputes_missing_rates_witness :
  process_data missing_goals_table
  = Ok (Some missing_goals_processed, missing_goals_output)
  /\ exists converted out1,
       before_scaling missing_goals_table = Ok (converted, out1)
       /\ forall c, In c feature_cols -> has_col converted c = true ->
            imputed_then_scaled converted missing_goals_processed c.
Proof.
  split; [exact process_data_missing_goals|].
  exact (process_data_imputes_missing_rates missing_goals_table
           missing_goals_processed missing_goals_output
           process_data_missing_goals).
Defined.

End PersistedRates.

Section NormalisationWitness.
Import Text Frame Processor.
Local Open Scope string_scope.

Definition zero_minutes_scaled : DataFrame :=
  mkDF 2 [ ("Player", ObjCol [Some "Ernest Nuamah"; Some "Antoine Semenyo"]);
           ("Squad",  ObjCol [Some "Lyon"; Some "Bournemouth"]);
           ("Min",    FloatCol [0; 900]%float);
           ("Gls",    FloatCol [2; 9]%float);
           ("90s_played", FloatCol [0; 10]%float);
           ("goals_per90", FloatCol [0; 1]%float) ].

Lemma normalize_features_zero_minutes :
  normalize_features zero_minutes_converted feature_cols
  = Ok (zero_minutes_scaled, [NormalizedFeatures 1]).
Proof. vm_compute. reflexivity. Qed.

Lemma normalize_features_frame_witness :
  normalize_features zero_minutes_converted feature_cols
  = Ok (zero_minutes_scaled, [NormalizedFeatures 1])
  /\ nrows zero_minutes_scaled = nrows zero_minutes_converted
  /\ columns zero_minutes_scaled = columns zero_minutes_converted
  /\ (forall c, ~ (In c feature_cols /\ has_col zero_minutes_converted c = true) ->
        Dict.get (cols zero_minutes_scaled) c
        = Dict.get (cols zero_minutes_converted) c)
  /\ (forall c, In c feature_cols -> has_col zero_minutes_converted c = true ->
        exists ys, Dict.get (cols zero_minutes_scaled) c = Some (FloatCol ys)
                   /\ scaled_from zero_minutes_converted c ys).
Proof.
  split; [exact normalize_features_zero_minutes|].
  exact (normalize_features_frame zero_minutes_converted feature_cols
           zero_minutes_scaled [NormalizedFeatures 1]
           normalize_features_zero_minutes).
Defined.

End NormalisationWitness.

(** ** The order of binary64 values *)

Section FloatOrder.
Local Open Scope float_scope.

Ltac compare_cases :=
  repeat match goal with
  | |- context [Z.compare ?a ?b] => destruct (Z.compare_spec a b)
  | H : context [Z.compare ?a ?b] |- _ => destruct (Z.compare_spec a b)
  | |- context [Pos.compare_cont Eq ?a ?b] =>
      change (Pos.compare_cont Eq a b) with (Pos.compare a b)
  | H : context [Pos.compare_cont Eq ?a ?b] |- _ =>
      change (Pos.compare_cont Eq a b) with (Pos.compare a b) in H
  | |- context [Pos.compare ?a ?b] => destruct (Pos.compare_spec a b)
  | H : context [Pos.compare ?a ?b] |- _ => destruct (Pos.compare_spec a b)
  end.

(** Case analysis on the class, the sign and the comparison of exponents
    and mantissas of every value in sight. *)
Ltac spec_float_order :=
  unfold SFleb, SFltb, SFeqb, SFcompare;
  repeat match goal with
  | x : spec_float |- _ => destruct x
  | s : bool |- _ => destruct s
  end; simpl; try congruence;
  compare_cases; simpl; try congruence; try lia.

Lemma SFleb_total a b :
  a <> S754_nan -> b <> S754_nan -> SFleb a b = false -> SFltb b a = true.
Proof. intros Ha Hb. spec_float_order. Qed.

Lemma SFleb_ltb_trans a b c :
  SFleb a b = true -> SFltb b c = true -> SFltb a c = true.
Proof. spec_float_order. Qed.

Lemma SFltb_leb a b : SFltb a b = true -> SFleb a b = true.
Proof. spec_float_order. Qed.

Lemma SFleb_refl a : a <> S754_nan -> SFleb a a = true.
Proof. intros Ha. spec_float_order. Qed.

Lemma not_nan_spec x : is_nan x = false -> Prim2SF x <> S754_nan.
Proof.
  intros H E. apply is_nan_spec in E. congruence.
Qed.

Lemma leb_total x y :
  is_nan x = false -> is_nan y = false -> (x <=? y) = false -> (y <? x) = true.
Proof.
  rewrite FloatAxioms.leb_spec, FloatAxioms.ltb_spec.
  intros Hx Hy. apply SFleb_total; now apply not_nan_spec.
Qed.

Lemma leb_ltb_trans x y z :
  (x <=? y) = true -> (y <? z) = true -> (x <? z) = true.
Proof.
  rewrite FloatAxioms.leb_spec, !FloatAxioms.ltb_spec. apply SFleb_ltb_trans.
Qed.

Lemma ltb_leb x y : (x <? y) = true -> (x <=? y) = true.
Proof.
  rewrite FloatAxioms.leb_spec, FloatAxioms.ltb_spec. apply SFltb_leb.
Qed.

Lemma leb_refl x : is_nan x = false -> (x <=? x) = true.
Proof.
  rewrite FloatAxioms.leb_spec. intros Hx. apply SFleb_refl. now apply not_nan_spec.
Qed.

End FloatOrder.

(** ** The cluster-count search *)

Section ClusterCount.
Import Config Clustering.
Local Open Scope float_scope.

(** Position [r] of [l] holds a maximum of [l], and every earlier position
    holds a strictly smaller value. *)
Definition first_maximum (l : list float) (r : nat) : Prop :=
  exists m,
    nth_error l r = Some m
    /\ Forall (fun s => (s <=? m) = true) l
    /\ forall j s, (j < r)%nat -> nth_error l j = Some s -> (s <? m) = true.

Lemma argmax_loop_first_maximum xs : forall seen mp max_ind,
  Forall (fun x => is_nan x = false) xs ->
  is_nan mp = false ->
  nth_error seen max_ind = Some mp ->
  Forall (fun s => (s <=? mp) = true) seen ->
  (forall j s, (j < max_ind)%nat -> nth_error seen j = Some s -> (s <? mp) = true) ->
  first_maximum (seen ++ xs) (argmax_loop xs (List.length seen) mp max_ind).
Proof.
  induction xs as [|x rest IH]; intros seen mp max_ind Hxs Hmp Hnth Hle Hlt.
  - simpl. rewrite app_nil_r. exists mp. auto.
  - inversion Hxs as [|? ? Hx Hrest]; subst.
    assert (Hmax : (max_ind < List.length seen)%nat).
    { apply nth_error_Some. congruence. }
    replace (seen ++ x :: rest)%list with ((seen ++ [x]) ++ rest)%list
      by (rewrite <- app_assoc; reflexivity).
    replace (S (List.length seen)) with (List.length (seen ++ [x]))%list
      by (rewrite length_app; simpl; lia).
    simpl. rewrite Hx.
    replace (S (List.length seen)) with (List.length (seen ++ [x]))%list
      by (rewrite length_app; simpl; lia).
    destruct (x <=? mp) eqn:E; simpl.
    + (* the running maximum stays *)
      apply IH; auto.
      * rewrite nth_error_app1 by exact Hmax. exact Hnth.
      * apply Forall_app. split; [exact Hle | constructor; [exact E | constructor]].
      * intros j s Hj Hs. rewrite nth_error_app1 in Hs by lia. eauto.
    + (* [x] is the new maximum *)
      pose proof (leb_total x mp Hx Hmp E) as Hgt.
      apply IH; auto.
      * rewrite nth_error_app2 by lia. now rewrite Nat.sub_diag.
      * apply Forall_app. split.
        -- rewrite Forall_forall in *. intros s Hs.
           apply ltb_leb. apply leb_ltb_trans with mp; auto.
        -- constructor; [now apply leb_refl | constructor].
      * intros j s Hj Hs. rewrite nth_error_app1 in Hs by exact Hj.
        apply leb_ltb_trans with mp; [|exact Hgt].
        rewrite Forall_forall in Hle. apply Hle. eapply nth_error_In; eauto.
Qed.

Lemma argmax_first_maximum xs :
  xs <> [] -> Forall (fun x => is_nan x = false) xs ->
  exists r, argmax xs = Ok r /\ first_maximum xs r.
Proof.
  destruct xs as [|x rest]; [congruence|]. intros _ Hxs.
  inversion Hxs as [|? ? Hx Hrest]; subst.
  simpl. rewrite Hx. eexists. split; [reflexivity|].
  apply (argmax_loop_first_maximum rest [x] x 0%nat); auto.
  - constructor; [now apply leb_refl | constructor].
  - intros j s Hj. lia.
Qed.

Section Search.
Variable matrix : Type.
Variable silhouette_of_fit : matrix -> Z -> result float.

Lemma silhouette_scores_all X (sil : Z -> float) ks :
  (forall k, In k ks -> silhouette_of_fit X k = Ok (sil k)) ->
  silhouette_scores silhouette_of_fit X ks = Ok (map sil ks).
Proof.
  induction ks as [|k rest IH]; intros H; simpl; [reflexivity|].
  rewrite (H k (or_introl eq_refl)), IH; [reflexivity|].
  intros k' Hk'. apply H. now right.
Qed.

Lemma best_of_first_maximum X (sil : Z -> float) ks :
  ks <> [] ->
  (forall k, In k ks -> silhouette_of_fit X k = Ok (sil k)) ->
  (forall k, In k ks -> is_nan (sil k) = false) ->
  exists r,
    best_of silhouette_of_fit X ks = Ok (nth r ks 0%Z)
    /\ (r < List.length ks)%nat
    /\ (forall k, In k ks -> (sil k <=? sil (nth r ks 0%Z)) = true)
    /\ (forall j, (j < r)%nat -> (sil (nth j ks 0%Z) <? sil (nth r ks 0%Z)) = true).
Proof.
  intros Hne Hfit Hnan. unfold best_of.
  rewrite (silhouette_scores_all X sil ks Hfit).
  destruct (argmax_first_maximum (map sil ks)) as (r & Hr & m & Hm & Hle & Hlt).
  - destruct ks; [congruence | discriminate].
  - apply Forall_map. apply Forall_forall. exact Hnan.
  - rewrite Hr. exists r.
    assert (Hlen : (r < List.length ks)%nat).
    { rewrite <- (length_map sil). apply nth_error_Some. congruence. }
    assert (Em : m = sil (nth r ks 0%Z)).
    { rewrite nth_error_map in Hm.
      rewrite (nth_error_nth' ks 0%Z Hlen) in Hm. simpl in Hm. congruence. }
    subst m. repeat split; auto.
    + intros k Hk. rewrite Forall_forall in Hle. apply Hle. now apply in_map.
    + intros j Hj. apply (Hlt j); [exact Hj|].
      rewrite nth_error_map, (nth_error_nth' ks 0%Z) by lia. reflexivity.
Qed.

End Search.

End ClusterCount.

Section ClusterCountClaims.
Import Config Clustering.
Local Open Scope Z_scope.

Lemma cluster_range_spec k : In k N_CLUSTERS_RANGE <-> 4 <= k <= 9.
Proof.
  unfold N_CLUSTERS_RANGE. simpl. lia.
Qed.

Lemma cluster_range_nth j :
  (j < List.length N_CLUSTERS_RANGE)%nat -> nth j N_CLUSTERS_RANGE 0 = 4 + Z.of_nat j.
Proof.
  unfold N_CLUSTERS_RANGE. simpl. intros H.
  do 6 (destruct j as [|j]; [reflexivity|]). lia.
Qed.

(** A scoring under which two clusters would separate best, were two a
    candidate. *)
Definition best_at_two (_ : unit) (k : Z) : result float :=
  Ok (if k =? 2 then 0.75%float else 0.25%float).

(** C5, as stated, fails: the minimum candidate of the configured range is
    4, not 2; two is no candidate, and the search returns 4 even when two
    clusters would score best. *)
Lemma cluster_range_minimum_is_not_two :
  hd 0 N_CLUSTERS_RANGE = 4
  /\ ~ In 2 N_CLUSTERS_RANGE
  /\ find_optimal_clusters best_at_two tt = Ok 4.
Proof.
  split; [reflexivity|]. split; [|reflexivity].
  rewrite cluster_range_spec. lia.
Qed.

(** C5, amended: the candidates are the cluster counts of the configured
    inclusive range 4 to 9, the minimum candidate being 4.  For every
    feature matrix on which the fit and the silhouette score of every
    candidate succeed with a score that is a number, the search scores each
    candidate and returns the candidate whose silhouette coefficient is
    maximal, the smallest one when several are. *)
Theorem find_optimal_clusters_smallest_best
  (matrix : Type) (silhouette_of_fit : matrix -> Z -> result float)
  (X : matrix) (sil : Z -> float) :
  (forall k, 4 <= k <= 9 -> silhouette_of_fit X k = Ok (sil k)) ->
  (forall k, 4 <= k <= 9 -> is_nan (sil k) = false) ->
  exists k,
    find_optimal_clusters silhouette_of_fit X = Ok k
    /\ silhouette_scores silhouette_of_fit X N_CLUSTERS_RANGE
       = Ok (map sil [4; 5; 6; 7; 8; 9])
    /\ 4 <= k <= 9
    /\ (forall k', 4 <= k' <= 9 -> (sil k' <=? sil k)%float = true)
    /\ (forall k', 4 <= k' < k -> (sil k' <? sil k)%float = true).
Proof.
  intros Hfit Hnan.
  destruct (best_of_first_maximum matrix silhouette_of_fit X sil N_CLUSTERS_RANGE)
    as (r & Hbest & Hr & Hle & Hlt).
  - discriminate.
  - intros k Hk. apply Hfit. now apply cluster_range_spec.
  - intros k Hk. apply Hnan. now apply cluster_range_spec.
  - exists (nth r N_CLUSTERS_RANGE 0). split; [exact Hbest|].
    split.
    { apply silhouette_scores_all. intros k Hk. apply Hfit. now apply cluster_range_spec. }
    pose proof (cluster_range_nth r Hr) as Er. rewrite Er in *.
    assert (Hr' : (r < 6)%nat) by exact Hr.
    split; [lia|]. split.
    + intros k' Hk'. apply Hle. now apply cluster_range_spec.
    + intros k' Hk'.
      assert (Hj : (Z.to_nat (k' - 4) < r)%nat) by lia.
      specialize (Hlt _ Hj).
      rewrite cluster_range_nth in Hlt by (change (List.length N_CLUSTERS_RANGE) with 6%nat; lia).
      replace (4 + Z.of_nat (Z.to_nat (k' - 4))) with k' in Hlt by lia.
      exact Hlt.
Qed.

(** Scores tied at 5 and 7 clusters. *)
Definition tied_scores (k : Z) : float :=
  if (k =? 5) || (k =? 7) then 0.5%float else 0.25%float.

Lemma find_optimal_clusters_smallest_best_witness :
  (forall k, 4 <= k <= 9 -> (fun (_ : unit) k => Ok (tied_scores k)) tt k = Ok (tied_scores k))
  /\ (forall k, 4 <= k <= 9 -> is_nan (tied_scores k) = false)
  /\ find_optimal_clusters (fun (_ : unit) k => Ok (tied_scores k)) tt = Ok 5
  /\ exists k,
       find_optimal_clusters (fun (_ : unit) k => Ok (tied_scores k)) tt = Ok k
       /\ silhouette_scores (fun (_ : unit) k => Ok (tied_scores k)) tt N_CLUSTERS_RANGE
          = Ok (map tied_scores [4; 5; 6; 7; 8; 9])
       /\ 4 <= k <= 9
       /\ (forall k', 4 <= k' <= 9 -> (tied_scores k' <=? tied_scores k)%float = true)
       /\ (forall k', 4 <= k' < k -> (tied_scores k' <? tied_scores k)%float = true).
Proof.
  assert (H1 : forall k, 4 <= k <= 9 ->
                 (fun (_ : unit) k => Ok (tied_scores k)) tt k = Ok (tied_scores k))
    by reflexivity.
  assert (H2 : forall k, 4 <= k <= 9 -> is_nan (tied_scores k) = false).
  { intros k _. unfold tied_scores. destruct ((k =? 5) || (k =? 7)); reflexivity. }
  split; [exact H1|]. split; [exact H2|]. split; [reflexivity|].
  exact (find_optimal_clusters_smallest_best unit
           (fun (_ : unit) k => Ok (tied_scores k)) tt tied_scores H1 H2).
Defined.

End ClusterCountClaims.

(** ** Deduplication *)

Section Deduplication.
Import Text Frame Processor.
Local Open Scope string_scope.

(** No key of the list equals a key before it. *)
Fixpoint distinct_keys (seen : list (cell * cell)) (keys : list (cell * cell))
  : Prop :=
  match keys with
  | [] => True
  | k :: rest =>
      existsb (key_eqb k) seen = false /\ distinct_keys (k :: seen) rest
  end.

Lemma first_occurrences_length keys : forall seen,
  List.length (first_occurrences seen keys) = List.length keys.
Proof.
  induction keys as [|k rest IH]; intros seen; simpl; [reflexivity|].
  destruct (existsb (key_eqb k) seen); simpl; now rewrite IH.
Qed.

(** The rows kept carry keys that differ from one another and from the
    keys seen before. *)
Lemma first_occurrences_distinct keys : forall seen,
  distinct_keys seen (select (first_occurrences seen keys) keys).
Proof.
  induction keys as [|k rest IH]; intros seen; simpl; [exact I|].
  destruct (existsb (key_eqb k) seen) eqn:E; simpl.
  - apply IH.
  - split; [exact E | apply IH].
Qed.

(** A row is dropped only when a row kept before it has its key, and a row
    whose key was not met before is kept: the first row of each key
    survives. *)
Lemma first_occurrences_keeps_first keys : forall seen i k,
  nth_error keys i = Some k ->
  nth_error (first_occurrences seen keys) i
  = Some (negb (existsb (key_eqb k)
                  (select (first_occurrences seen (firstn i keys)) (firstn i keys)
                   ++ seen))).
Proof.
  induction keys as [|k0 rest IH]; intros seen i k Hk.
  - destruct i; discriminate.
  - destruct i as [|i]; simpl in Hk.
    + inversion Hk; subst. simpl.
      destruct (existsb (key_eqb k) seen); reflexivity.
    + simpl. destruct (existsb (key_eqb k0) seen) eqn:E; simpl.
      * now apply IH.
      * rewrite (IH (k0 :: seen) i k Hk). do 2 f_equal.
        rewrite !existsb_app. simpl.
        destruct (key_eqb k k0), (existsb (key_eqb k) seen),
          (existsb (key_eqb k)
             (select (first_occurrences (k0 :: seen) (firstn i rest)) (firstn i rest)));
          reflexivity.
Qed.

(** The same forward in the tables of two seasons, with the same club. *)
Definition two_seasons_table : DataFrame :=
  mkDF 2 [ ("Player", ObjCol [Some "Mohammed Kudus"; Some "Mohammed Kudus"]);
           ("Squad",  ObjCol [Some "West Ham"; Some "West Ham"]);
           ("Pos",    ObjCol [Some "FW,MF"; Some "FW,MF"]);
           ("Min",    FloatCol [2700; 900]%float);
           ("Gls",    FloatCol [9; 2]%float) ].

Definition two_seasons_deduplicated : DataFrame :=
  mkDF 1 [ ("Player", ObjCol [Some "Mohammed Kudus"]);
           ("Squad",  ObjCol [Some "West Ham"]);
           ("Pos",    ObjCol [Some "FW,MF"]);
           ("Min",    FloatCol [2700]%float);
           ("Gls",    FloatCol [9]%float) ].

Definition two_seasons_processed : DataFrame :=
  mkDF 2 [ ("Player", ObjCol [Some "Mohammed Kudus"; Some "Mohammed Kudus"]);
           ("Squad",  ObjCol [Some "West Ham"; Some "West Ham"]);
           ("Pos",    ObjCol [Some "FW,MF"; Some "FW,MF"]);
           ("Min",    FloatCol [2700; 900]%float);
           ("Gls",    FloatCol [9; 2]%float);
           ("90s_played", FloatCol [30; 10]%float);
           ("goals_per90", FloatCol [1; 0]%float) ].

(** [deduplicate_players] itself keeps the first of the two rows. *)
Example deduplicate_players_two_seasons :
  deduplicate_players two_seasons_table (identify_columns two_seasons_table)
  = Ok (two_seasons_deduplicated, [Deduplicated 2 1]).
Proof. vm_compute. reflexivity. Qed.

(** C4, on the code: [process_data] never calls [deduplicate_players].  On
    a table with two rows for the same (player, team) key the table it
    writes still holds both rows, and both went through the per-90
    conversion. *)
Theorem process_data_keeps_duplicate_rows :
  exists out,
    process_data two_seasons_table = Ok (Some two_seasons_processed, out)
    /\ ~ In (Deduplicated 2 1) out
    /\ nrows two_seasons_processed = 2%nat
    /\ Dict.get (cols two_seasons_processed) "Player"
       = Some (ObjCol [Some "Mohammed Kudus"; Some "Mohammed Kudus"])
    /\ Dict.get (cols two_seasons_processed) "Squad"
       = Some (ObjCol [Some "West Ham"; Some "West Ham"]).
Proof.
  eexists. split; [vm_compute; reflexivity|].
  split; [|repeat split; reflexivity].
  simpl. intuition discriminate.
Qed.

End Deduplication.

(** ** Binary64 subtraction from 1 *)

(** The values [k / 2^53] for an integer [0 <= k <= 2^53] are binary64
    values, and subtracting one of them from 1 is exact.  The lemmas below
    follow the rounding of [SpecFloat] on a mantissa with a known number
    of bits. *)

Section RoundingFacts.
Local Open Scope Z_scope.
Lemma digits2_pos_bounds p :
  2 ^ (Zpos (digits2_pos p) - 1) <= Zpos p < 2 ^ Zpos (digits2_pos p).
Proof.
  assert (step : forall d x, 0 < d -> 2 ^ (d - 1) <= x < 2 ^ d ->
            forall y, (y = 2 * x \/ y = 2 * x + 1) ->
            2 ^ (Z.succ d - 1) <= y < 2 ^ Z.succ d).
  { intros d x Hd Hx y Hy.
    replace (Z.succ d - 1) with d by lia.
    rewrite Z.pow_succ_r by lia.
    assert (E : 2 ^ d = 2 * 2 ^ (d - 1)).
    { rewrite <- Z.pow_succ_r by lia. f_equal. lia. }
    lia. }
  induction p as [p IH|p IH|]; cbn [digits2_pos].
  - rewrite Pos2Z.inj_succ. apply (step _ (Zpos p)); [lia | exact IH | lia].
  - rewrite Pos2Z.inj_succ. apply (step _ (Zpos p)); [lia | exact IH | lia].
  - simpl. lia.
Qed.

Lemma digits2_pos_unique p n :
  0 < n -> 2 ^ (n - 1) <= Zpos p < 2 ^ n -> Zpos (digits2_pos p) = n.
Proof.
  intros Hn [Hlo Hhi].
  destruct (digits2_pos_bounds p) as [Dlo Dhi].
  set (d := Zpos (digits2_pos p)) in *.
  assert (0 < d) by (unfold d; lia).
  destruct (Z.lt_trichotomy d n) as [H1|[H1|H1]]; [|exact H1|].
  - assert (2 ^ d <= 2 ^ (n - 1)) by (apply Z.pow_le_mono_r; lia). lia.
  - assert (2 ^ n <= 2 ^ (d - 1)) by (apply Z.pow_le_mono_r; lia). lia.
Qed.

Lemma iter_xO p k : Zpos (Pos.iter xO p k) = Zpos p * 2 ^ Zpos k.
Proof.
  induction k as [|k IH] using Pos.peano_ind.
  - simpl. lia.
  - rewrite Pos.iter_succ, Pos2Z.inj_xO, IH, Pos2Z.inj_succ, Z.pow_succ_r by lia. lia.
Qed.

Lemma iter_pos_iter {A} (f : A -> A) k x : SpecFloat.iter_pos f k x = Pos.iter f x k.
Proof.
  revert x. induction k as [k IH|k IH|]; intros x; simpl.
  - rewrite !IH. now rewrite <- !Pos.iter_swap.
  - now rewrite !IH.
  - reflexivity.
Qed.

Lemma shr_iter q k :
  SpecFloat.iter_pos shr_1 k {| shr_m := Zpos (Pos.iter xO q k); shr_r := false; shr_s := false |}
  = {| shr_m := Zpos q; shr_r := false; shr_s := false |}.
Proof.
  rewrite iter_pos_iter.
  induction k as [|k IH] using Pos.peano_ind.
  - reflexivity.
  - rewrite Pos.iter_succ. rewrite <- Pos.iter_swap. simpl. 
    rewrite Pos.iter_succ in *. simpl. exact IH.
Qed.

Lemma shr_fexp_canonical m e :
  Zpos (digits2_pos m) = 53 -> -1074 <= e ->
  shr_fexp 53 1024 (Zpos m) e loc_Exact
  = ({| shr_m := Zpos m; shr_r := false; shr_s := false |}, e).
Proof.
  intros Hd He. unfold shr_fexp, fexp, emin, Zdigits2. rewrite Hd.
  replace (Z.max (53 + e - 53) (3 - 1024 - 53) - e) with 0 by lia.
  reflexivity.
Qed.

Lemma binary_round_aux_canonical sx m e :
  Zpos (digits2_pos m) = 53 -> -1074 <= e <= 971 ->
  binary_round_aux 53 1024 sx (Zpos m) e loc_Exact = S754_finite sx m e.
Proof.
  intros Hd He. unfold binary_round_aux.
  rewrite shr_fexp_canonical by (auto; lia). cbn [shr_m loc_of_shr_record round_nearest_even].
  rewrite shr_fexp_canonical by (auto; lia). cbn [shr_m].
  replace (e <=? 1024 - 53) with true by (symmetry; apply Z.leb_le; lia).
  reflexivity.
Qed.

Lemma digits_scaled p q k :
  0 <= k -> Zpos q = Zpos p * 2 ^ k -> Zpos (digits2_pos q) = Zpos (digits2_pos p) + k.
Proof.
  intros Hk E. apply digits2_pos_unique; [lia|].
  destruct (digits2_pos_bounds p) as [Lo Hi]. rewrite E.
  replace (Zpos (digits2_pos p) + k - 1) with ((Zpos (digits2_pos p) - 1) + k) by lia.
  rewrite !Z.pow_add_r by lia.
  assert (0 < 2 ^ k) by (apply Z.pow_pos_nonneg; lia).
  split; nia.
Qed.

(** Rounding a mantissa that is short of 53 bits: it is shifted left. *)
Lemma binary_round_short sx p e q k :
  0 <= k -> Zpos q = Zpos p * 2 ^ k -> Zpos (digits2_pos q) = 53 ->
  -1074 <= e - k -> e - k <= 971 ->
  binary_round 53 1024 sx p e = S754_finite sx q (e - k).
Proof.
  intros Hk E Hd Hlo Hhi.
  pose proof (digits_scaled p q k Hk E) as Hdp.
  unfold binary_round, fexp, emin.
  replace (Z.max (Zpos (digits2_pos p) + e - 53) (3 - 1024 - 53)) with (e - k) by lia.
  unfold shl_align.
  destruct k as [|k|k]; [| |lia].
  - replace (e - 0 - e) with 0 by lia.
    assert (q = p) by (simpl in E; lia). subst q.
    replace (e - 0) with e by lia.
    apply binary_round_aux_canonical; [exact Hd | lia].
  - replace (e - Zpos k - e) with (Zneg k) by lia.
    assert (Pos.iter xO p k = q) as ->.
    { apply Pos2Z.inj. now rewrite iter_xO. }
    apply binary_round_aux_canonical; [exact Hd | lia].
Qed.

(** Rounding a mantissa of more than 53 bits whose extra low bits are zero:
    it is shifted right, exactly. *)
Lemma binary_round_long sx p e q k :
  0 <= k -> Zpos p = Zpos q * 2 ^ k -> Zpos (digits2_pos q) = 53 ->
  -1074 <= e -> e + k <= 971 ->
  binary_round 53 1024 sx p e = S754_finite sx q (e + k).
Proof.
  intros Hk E Hd Hlo Hhi.
  pose proof (digits_scaled q p k Hk E) as Hdp.
  unfold binary_round, fexp, emin.
  replace (Z.max (Zpos (digits2_pos p) + e - 53) (3 - 1024 - 53)) with (e + k) by lia.
  unfold shl_align.
  destruct k as [|k|k]; [| |lia].
  - replace (e + 0 - e) with 0 by lia.
    assert (p = q) by (simpl in E; lia). subst q.
    replace (e + 0) with e by lia.
    apply binary_round_aux_canonical; [exact Hd | lia].
  - replace (e + Zpos k - e) with (Zpos k) by lia.
    assert (p = Pos.iter xO q k) as ->.
    { apply Pos2Z.inj. now rewrite iter_xO. }
    unfold binary_round_aux, shr_fexp, fexp, emin, Zdigits2.
    rewrite Hdp, Hd.
    replace (Z.max (53 + Zpos k + e - 53) (3 - 1024 - 53) - e) with (Zpos k) by lia.
    cbn [shr shr_record_of_loc]. rewrite shr_iter.
    cbn [shr_m loc_of_shr_record round_nearest_even].
    rewrite Hd.
    replace (Z.max (53 + (e + Zpos k) - 53) (3 - 1024 - 53) - (e + Zpos k)) with 0 by lia.
    cbn [shr shr_record_of_loc shr_m].
    replace (e + Zpos k <=? 1024 - 53) with true by (symmetry; apply Z.leb_le; lia).
    reflexivity.
Qed.

(** The binary64 value nearest to [k / 2^53]; it is [k / 2^53] itself when
    [0 <= k <= 2^53]. *)
Definition grid (k : Z) : float :=
  SF2Prim (binary_normalize 53 1024 k (-53) false).

Lemma pow2_53 : 2 ^ 53 = 9007199254740992.
Proof. reflexivity. Qed.

(** A positive integer below 2^53, shifted left to 53 bits. *)
Lemma normal_form p :
  Zpos p < 2 ^ 53 ->
  exists q j, 0 <= j <= 52 /\ Zpos q = Zpos p * 2 ^ j /\ Zpos (digits2_pos q) = 53.
Proof.
  intros Hp.
  destruct (digits2_pos_bounds p) as [Lo Hi].
  set (d := Zpos (digits2_pos p)) in *.
  assert (Hd : 0 < d <= 53).
  { split; [unfold d; lia|].
    destruct (Z_le_gt_dec d 53) as [H|H]; [exact H|].
    assert (2 ^ 53 <= 2 ^ (d - 1)) by (apply Z.pow_le_mono_r; lia). lia. }
  assert (Hpos : 0 < Zpos p * 2 ^ (53 - d)).
  { apply Z.mul_pos_pos; [lia | apply Z.pow_pos_nonneg; lia]. }
  exists (Z.to_pos (Zpos p * 2 ^ (53 - d))), (53 - d).
  assert (E : Zpos (Z.to_pos (Zpos p * 2 ^ (53 - d))) = Zpos p * 2 ^ (53 - d))
    by (apply Z2Pos.id; exact Hpos).
  split; [lia|]. split; [exact E|].
  rewrite (digits_scaled p _ (53 - d)); [fold d; lia | lia | exact E].
Qed.

Lemma binary_round_scaled sx P E p q j :
  E <= -53 -> -1074 <= E ->
  Zpos P = Zpos p * 2 ^ (-53 - E) ->
  0 <= j <= 52 -> Zpos q = Zpos p * 2 ^ j -> Zpos (digits2_pos q) = 53 ->
  binary_round 53 1024 sx P E = S754_finite sx q (-53 - j).
Proof.
  intros HE HE' HP Hj Hq Hd.
  destruct (Z_le_gt_dec j (-53 - E)) as [H|H].
  - (* P is longer than 53 bits *)
    replace (-53 - j) with (E + (-53 - E - j)) by lia.
    apply binary_round_long; try lia.
    rewrite HP, Hq, <- Z.mul_assoc, <- Z.pow_add_r by lia. do 2 f_equal. lia.
  - replace (-53 - j) with (E - (j - (-53 - E))) by lia.
    apply binary_round_short; try lia.
    rewrite HP, Hq, <- Z.mul_assoc, <- Z.pow_add_r by lia. do 2 f_equal. lia.
Qed.

Lemma valid_canonical s q j :
  0 <= j <= 52 -> Zpos (digits2_pos q) = 53 ->
  valid_binary (S754_finite s q (-53 - j)) = true.
Proof.
  intros Hj Hd. unfold SpecFloat.valid_binary, bounded, canonical_mantissa, fexp, emin.
  rewrite Hd.
  apply andb_true_iff. split; [apply Z.eqb_eq | apply Z.leb_le]; unfold prec, emax; lia.
Qed.

Lemma grid_spec k :
  0 < k < 2 ^ 53 ->
  exists q j,
    0 <= j <= 52 /\ Zpos q = k * 2 ^ j /\ Zpos (digits2_pos q) = 53
    /\ Prim2SF (grid k) = S754_finite false q (-53 - j).
Proof.
  intros Hk. destruct k as [|p|p]; try lia.
  destruct (normal_form p) as (q & j & Hj & Hq & Hd); [lia|].
  exists q, j. repeat split; auto; try lia.
  unfold grid. cbn [binary_normalize].
  assert (Hround : binary_round 53 1024 false p (-53) = S754_finite false q (-53 - j)).
  { apply (binary_round_scaled false p (-53) p q j); lia. }
  rewrite Hround. apply Prim2SF_SF2Prim. now apply valid_canonical.
Qed.

Lemma grid_zero : grid 0 = 0%float.
Proof. reflexivity. Qed.

Lemma grid_one : grid (2 ^ 53) = 1%float.
Proof. vm_compute. reflexivity. Qed.

Example grid_three_quarters : grid (3 * 2 ^ 51) = 0.75%float.
Proof. vm_compute. reflexivity. Qed.

Lemma SFleb_finite_pos m1 e1 m2 e2 :
  SFleb (S754_finite false m1 e1) (S754_finite false m2 e2) = true ->
  e1 < e2 \/ (e1 = e2 /\ Zpos m1 <= Zpos m2).
Proof.
  unfold SFleb, SFcompare.
  destruct (Z.compare_spec e1 e2) as [He|He|He]; try discriminate; [|now left].
  rewrite Pos.compare_cont_spec. unfold Pos.switch_Eq.
  destruct (Pos.compare_spec m1 m2) as [Hm|Hm|Hm]; try discriminate; intros _; right; split; auto; lia.
Qed.

Lemma SFleb_finite_sign x m e :
  SFleb (S754_finite false m e) x = true ->
  x = S754_infinity false \/ exists m' e', x = S754_finite false m' e'.
Proof.
  destruct x as [s|s| |s m' e']; try destruct s; try discriminate; eauto.
Qed.

Lemma upper_half_spec x :
  SpecFloat.valid_binary 53 1024 x = true ->
  SFleb (S754_finite false 4503599627370496 (-53)) x = true ->
  SFleb x (S754_finite false 4503599627370496 (-52)) = true ->
  (exists m, x = S754_finite false m (-53) /\ Zpos (digits2_pos m) = 53)
  \/ x = S754_finite false 4503599627370496 (-52).
Proof.
  intros Hv Hlo Hhi.
  destruct (SFleb_finite_sign _ _ _ Hlo) as [->|(m & e & ->)]; [discriminate|].
  apply SFleb_finite_pos in Hlo. apply SFleb_finite_pos in Hhi.
  unfold SpecFloat.valid_binary, bounded, canonical_mantissa, fexp, emin in Hv.
  apply andb_true_iff in Hv as [Hc _]. apply Z.eqb_eq in Hc.
  assert (He : e = -53 \/ e = -52) by lia.
  destruct He as [-> | ->].
  - left. exists m. split; [reflexivity | lia].
  - right. assert (Hd : Zpos (digits2_pos m) = 53) by lia.
    destruct (digits2_pos_bounds m) as [Hm' _]. rewrite Hd in Hm'.
    change (2 ^ (53 - 1)) with 4503599627370496 in Hm'.
    assert (Zpos m = 4503599627370496) by lia.
    f_equal. lia.
Qed.


End RoundingFacts.

Section Grid.
Local Open Scope float_scope.


(** Subtracting [k / 2^53] from 1 gives [(2^53 - k) / 2^53], with no rounding. *)
Lemma one_minus_grid k :
  (0 <= k <= 2 ^ 53)%Z -> 1 - grid k = grid (2 ^ 53 - k).
Proof.
  intros Hk.
  destruct (Z.eq_dec k 0) as [->|Hk0].
  { rewrite Z.sub_0_r, grid_zero, grid_one. reflexivity. }
  destruct (Z.eq_dec k (2 ^ 53)) as [->|Hk1].
  { rewrite Z.sub_diag, grid_zero, grid_one. reflexivity. }
  destruct (grid_spec k) as (q & j & Hj & Hq & Hd & Hg); [lia|].
  destruct (grid_spec (2 ^ 53 - k)) as (q' & j' & Hj' & Hq' & Hd' & Hg'); [lia|].
  apply Prim2SF_inj. rewrite Hg', FloatAxioms.sub_spec, Hg.
  change (Prim2SF 1) with (S754_finite false 4503599627370496 (-52)).
  unfold SF64sub, SFsub, prec, emax.
  replace (Z.min (-52) (-53 - j)) with (-53 - j)%Z by lia.
  unfold shl_align at 2. replace (-53 - j - (-53 - j))%Z with 0%Z by lia.
  unfold shl_align.
  replace (-53 - j - -52)%Z with (Z.neg (Z.to_pos (1 + j))) by lia.
  cbn [fst cond_Zopp].
  rewrite iter_xO, Z2Pos.id by lia.
  assert (Hpow : (4503599627370496 * 2 ^ (1 + j) = 2 ^ 53 * 2 ^ j)%Z).
  { rewrite Z.pow_add_r by lia. change (2 ^ 1)%Z with 2%Z. rewrite pow2_53. lia. }
  rewrite Hpow, Hq.
  assert (Hpj : (0 < 2 ^ j)%Z) by (apply Z.pow_pos_nonneg; lia).
  assert (Hdiff : (0 < 2 ^ 53 * 2 ^ j - k * 2 ^ j)%Z) by nia.
  destruct (2 ^ 53 * 2 ^ j - k * 2 ^ j)%Z as [|P|P] eqn:EP; try lia.
  cbn [binary_normalize].
  apply (binary_round_scaled false P (-53 - j) (Z.to_pos (2 ^ 53 - k)) q' j');
    try lia; auto.
  - rewrite Z2Pos.id by lia. replace (-53 - (-53 - j))%Z with j by lia.
    rewrite <- EP. lia.
  - rewrite Z2Pos.id by lia. exact Hq'.
Qed.

Lemma invert_twice_grid k :
  (0 <= k <= 2 ^ 53)%Z -> 1 - (1 - grid k) = grid k.
Proof.
  intros Hk. rewrite one_minus_grid by exact Hk.
  rewrite one_minus_grid by lia. f_equal. lia.
Qed.


(** [v] is a whole multiple of [2^-53] between 0 and 1. *)
Definition on_grid (v : float) : Prop :=
  exists k, (0 <= k <= 2 ^ 53)%Z /\ v = grid k.

Lemma upper_half_on_grid v :
  (0.5 <=? v) = true -> (v <=? 1) = true -> on_grid v.
Proof.
  rewrite !FloatAxioms.leb_spec.
  change (Prim2SF 0.5) with (S754_finite false 4503599627370496 (-53)).
  change (Prim2SF 1) with (S754_finite false 4503599627370496 (-52)).
  intros Hlo Hhi.
  destruct (upper_half_spec _ (Prim2SF_valid v) Hlo Hhi) as [(m & E & Hd)|E].
  - destruct (digits2_pos_bounds m) as [_ Hm]. rewrite Hd in Hm.
    exists (Zpos m). split; [lia|].
    destruct (grid_spec (Zpos m)) as (q & j & Hj & Hq & Hdq & Hg); [lia|].
    pose proof (digits_scaled m q j ltac:(lia) Hq) as Hdd.
    assert (j = 0%Z) by lia. subst j.
    assert (q = m) by (simpl in Hq; lia). subst q.
    apply Prim2SF_inj. now rewrite Hg, E.
  - exists (2 ^ 53)%Z. split; [lia|].
    rewrite grid_one. apply Prim2SF_inj. rewrite E. reflexivity.
Qed.

Lemma on_grid_zero : on_grid 0.
Proof. exists 0%Z. split; [lia | reflexivity]. Qed.

Lemma on_grid_invert v : on_grid v -> on_grid (1 - v).
Proof.
  intros (k & Hk & ->). exists (2 ^ 53 - k)%Z. split; [lia|]. now apply one_minus_grid.
Qed.

Lemma on_grid_invert_twice v : on_grid v -> 1 - (1 - v) = v.
Proof. intros (k & Hk & ->). now apply invert_twice_grid. Qed.


End Grid.

(** ** Metric inversion *)

Section Inversion.
Import Frame Processor.
Local Open Scope string_scope.

(** One round of the loop of [invert_negative_metrics] on the columns of
    the table, for a numeric column. *)
Definition invert_one (d : Dict.dict column) (c : string) : Dict.dict column :=
  match Dict.get d c with
  | Some (FloatCol xs) => Dict.set d c (FloatCol (map (fun v => (1 - v)%float) xs))
  | _ => d
  end.

(** Column [c], when the table has it, is numeric with every cell a whole
    multiple of [2^-53] between 0 and 1. *)
Definition grid_column (d : Dict.dict column) (c : string) : Prop :=
  forall col, Dict.get d c = Some col ->
    exists xs, col = FloatCol xs /\ Forall on_grid xs.

Lemma dict_set_set {V} (d : Dict.dict V) k v w :
  Dict.set (Dict.set d k v) k w = Dict.set d k w.
Proof.
  induction d as [|[k' v'] d IH]; simpl.
  - now rewrite String.eqb_refl.
  - destruct (String.eqb k' k) eqn:E; simpl.
    + now rewrite String.eqb_refl.
    + now rewrite E, IH.
Qed.

Lemma dict_set_get_id {V} (d : Dict.dict V) k v :
  Dict.get d k = Some v -> Dict.set d k v = d.
Proof.
  induction d as [|[k' v'] d IH]; simpl; [discriminate|].
  destruct (String.eqb k' k) eqn:E.
  - apply String.eqb_eq in E. intros H; inversion H; now subst.
  - intros H. now rewrite IH.
Qed.

Lemma dict_set_comm {V} (d : Dict.dict V) a b x y :
  a <> b -> Dict.mem d a = true -> Dict.mem d b = true ->
  Dict.set (Dict.set d a x) b y = Dict.set (Dict.set d b y) a x.
Proof.
  intros Hab. unfold Dict.mem.
  induction d as [|[k v] d IH]; simpl; [discriminate|].
  destruct (String.eqb k a) eqn:Ea; destruct (String.eqb k b) eqn:Eb; simpl.
  - apply String.eqb_eq in Ea, Eb. congruence.
  - intros _ Hb.
    assert (Eab : String.eqb a b = false) by now apply String.eqb_neq.
    rewrite Eab, Ea. reflexivity.
  - intros Ha _.
    assert (Eba : String.eqb b a = false) by (apply String.eqb_neq; congruence).
    rewrite Eba, Eb. reflexivity.
  - intros Ha Hb. rewrite Ea, Eb. f_equal. now apply IH.
Qed.

Lemma invert_one_get_other d a b :
  a <> b -> Dict.get (invert_one d a) b = Dict.get d b.
Proof.
  intros Hab. unfold invert_one.
  destruct (Dict.get d a) as [[xs|xs]|]; try reflexivity.
  now apply dict_get_set_other.
Qed.

Lemma invert_one_comm d a b :
  invert_one (invert_one d a) b = invert_one (invert_one d b) a.
Proof.
  destruct (string_dec a b) as [->|Hab]; [reflexivity|].
  unfold invert_one at 1 3.
  rewrite (invert_one_get_other d a b Hab).
  rewrite (invert_one_get_other d b a) by congruence.
  unfold invert_one.
  destruct (Dict.get d a) as [[xs|xs]|] eqn:Ea;
    destruct (Dict.get d b) as [[ys|ys]|] eqn:Eb; try reflexivity.
  apply dict_set_comm; auto; unfold Dict.mem; [now rewrite Ea | now rewrite Eb].
Qed.

Lemma fold_invert_comm L : forall d a,
  fold_left invert_one L (invert_one d a) = invert_one (fold_left invert_one L d) a.
Proof.
  induction L as [|c L IH]; intros d a; simpl; [reflexivity|].
  rewrite invert_one_comm. apply IH.
Qed.

Lemma grid_column_invert_one d b c :
  grid_column d c -> grid_column (invert_one d b) c.
Proof.
  intros H col. destruct (string_dec b c) as [->|Hbc].
  - unfold invert_one.
    destruct (Dict.get d c) as [[xs|xs]|] eqn:E.
    + rewrite dict_get_set_same. intros Hc; inversion Hc; subst.
      destruct (H _ E) as (xs' & Hxs & Hgrid). inversion Hxs; subst xs'.
      eexists. split; [reflexivity|].
      apply Forall_map. apply Forall_impl with (2 := Hgrid).
      intros v. apply on_grid_invert.
    + intros Hc. apply H. congruence.
    + intros Hc. apply H. congruence.
  - rewrite invert_one_get_other by exact Hbc. apply H.
Qed.

Lemma grid_column_fold L : forall d c,
  grid_column d c -> grid_column (fold_left invert_one L d) c.
Proof.
  induction L as [|b L IH]; intros d c H; simpl; [exact H|].
  apply IH. now apply grid_column_invert_one.
Qed.

Lemma invert_one_twice d a :
  grid_column d a -> invert_one (invert_one d a) a = d.
Proof.
  intros H. destruct (Dict.get d a) as [col|] eqn:E.
  - destruct (H _ E) as (xs & -> & Hgrid).
    assert (E1 : invert_one d a
                 = Dict.set d a (FloatCol (map (fun v => (1 - v)%float) xs)))
      by (unfold invert_one; now rewrite E).
    rewrite E1. unfold invert_one. rewrite dict_get_set_same, dict_set_set.
    apply dict_set_get_id. rewrite E. do 2 f_equal.
    rewrite map_map. symmetry. etransitivity; [|apply map_id].
    apply map_ext_in. intros v Hv.
    apply on_grid_invert_twice. rewrite Forall_forall in Hgrid. now apply Hgrid.
  - assert (E1 : invert_one d a = d) by (unfold invert_one; now rewrite E).
    now rewrite !E1.
Qed.

Lemma fold_invert_twice L : forall d,
  (forall c, In c L -> grid_column d c) ->
  fold_left invert_one L (fold_left invert_one L d) = d.
Proof.
  induction L as [|a L IH]; intros d H; simpl; [reflexivity|].
  rewrite fold_invert_comm, <- fold_invert_comm.
  rewrite fold_invert_comm with (d := d).
  rewrite invert_one_twice.
  - apply IH. intros c Hc. apply H. now right.
  - apply grid_column_fold. apply H. now left.
Qed.

(** On grid columns the loop raises nothing and is the fold of its rounds. *)
Lemma invert_negative_metrics_fold L : forall df,
  (forall c, In c L -> grid_column (cols df) c) ->
  exists out,
    invert_negative_metrics df L
    = Ok (mkDF (nrows df) (fold_left invert_one L (cols df)), out).
Proof.
  induction L as [|c L IH]; intros df H.
  - exists []. destruct df. reflexivity.
  - cbn [invert_negative_metrics fold_left].
    destruct (has_col df c) eqn:Eh.
    + apply has_col_get in Eh as [col Hcol].
      destruct (H c (or_introl eq_refl) col Hcol) as (xs & -> & Hgrid).
      rewrite (getitem_some _ _ _ Hcol), bind_ret_l.
      cbn [one_minus]. unfold ret at 1. rewrite bind_ret_l.
      assert (Einv : invert_one (cols df) c
                     = Dict.set (cols df) c (FloatCol (map (fun v => (1 - v)%float) xs)))
        by (unfold invert_one; now rewrite Hcol).
      set (df1 := setitem df c (FloatCol (map (fun v => (1 - v)%float) xs))).
      destruct (IH df1) as [out Hout].
      { intros c' Hc'. unfold df1. cbn [cols setitem]. rewrite <- Einv.
        apply grid_column_invert_one. apply H. now right. }
      exists (Inverted c :: out).
      unfold bind, print. rewrite Hout. cbn [app].
      unfold df1. cbn [nrows cols setitem]. now rewrite Einv.
    + assert (Hnone : Dict.get (cols df) c = None).
      { destruct (Dict.get (cols df) c) as [col|] eqn:E; [|reflexivity].
        assert (has_col df c = true) by (apply has_col_get; eauto). congruence. }
      destruct (IH df) as [out Hout].
      { intros c' Hc'. apply H. now right. }
      exists out. rewrite Hout. unfold invert_one. now rewrite Hnone.
Qed.

End Inversion.

Section InversionClaims.
Import Frame Processor.
Local Open Scope string_scope.

(** The retention metrics [config.py] marks for inversion. *)
Definition negative_cols : list string :=
  ["dispossessed_per90"; "miscontrols_per90"].

(** A column scaled to [0, 1] that holds one tenth. *)
Definition tenth_table : DataFrame :=
  mkDF 3 [ ("Player", ObjCol [Some "Osman Bukari"; Some "Ibrahim Osman";
                              Some "Jerry Afriyie"]);
           ("dispossessed_per90", FloatCol [0; 1 / 10; 1]%float) ].

(** C8, as stated, fails: 1/10 lies in [0, 1], and inverting it twice
    gives [1 - (1 - 1/10)], the binary64 value just below it
    (0.09999999999999998 against 0.1), so the column does not come back
    exactly. *)
Lemma invert_twice_changes_one_tenth :
  exists once twice out1 out2,
    invert_negative_metrics tenth_table negative_cols = Ok (once, out1)
    /\ invert_negative_metrics once negative_cols = Ok (twice, out2)
    /\ Dict.get (cols twice) "dispossessed_per90"
       = Some (FloatCol [0; 1 - (1 - 1 / 10); 1]%float)
    /\ (1 - (1 - 1 / 10) =? 1 / 10)%float = false
    /\ (1 - (1 - 1 / 10) <? 1 / 10)%float = true.
Proof.
  destruct (invert_negative_metrics tenth_table negative_cols)
    as [[once out1]|e] eqn:E1; [|vm_compute in E1; discriminate].
  destruct (invert_negative_metrics once negative_cols)
    as [[twice out2]|e] eqn:E2.
  - exists once, twice, out1, out2.
    vm_compute in E1. inversion E1; subst once out1. clear E1.
    vm_compute in E2. inversion E2; subst twice out2. clear E2.
    repeat split; vm_compute; reflexivity.
  - vm_compute in E1. inversion E1; subst once out1.
    vm_compute in E2. discriminate.
Qed.

(** C8, amended: on every table in which each listed column that is present
    is numeric with all its cells whole multiples of [2^-53] between 0 and 1
    (0, 1 and every binary64 value from 1/2 to 1 are such cells), the
    inversion raises nothing, and applying it twice returns the original
    table exactly.  Cells of [0, 1] off that grid, such as 1/10, come back
    rounded. *)
Theorem invert_twice_restores_grid_columns df cols_to_invert :
  (forall c, In c cols_to_invert -> grid_column (cols df) c) ->
  exists once out1 out2,
    invert_negative_metrics df cols_to_invert = Ok (once, out1)
    /\ invert_negative_metrics once cols_to_invert = Ok (df, out2).
Proof.
  intros H.
  destruct (invert_negative_metrics_fold cols_to_invert df H) as [out1 H1].
  set (once := mkDF (nrows df) (fold_left invert_one cols_to_invert (cols df))) in *.
  assert (Honce : forall c, In c cols_to_invert -> grid_column (cols once) c).
  { intros c Hc. unfold once. cbn [cols]. apply grid_column_fold. now apply H. }
  destruct (invert_negative_metrics_fold cols_to_invert once Honce) as [out2 H2].
  exists once, out1, out2. split; [exact H1|].
  rewrite H2. unfold once. cbn [nrows cols].
  rewrite fold_invert_twice by exact H. now destruct df.
Qed.

(** A scaled column on the grid. *)
Definition quarters_table : DataFrame :=
  mkDF 4 [ ("Player", ObjCol [Some "Osman Bukari"; Some "Ibrahim Osman";
                              Some "Jerry Afriyie"; Some "Jordan Ayew"]);
           ("dispossessed_per90", FloatCol [0; 0.5; 0.75; 1]%float) ].

Lemma quarters_on_grid :
  forall c, In c negative_cols -> grid_column (cols quarters_table) c.
Proof.
  intros c Hc col Hget. simpl in Hc.
  destruct Hc as [<-|[<-|[]]]; vm_compute in Hget; [|discriminate].
  inversion Hget; subst col. eexists. split; [reflexivity|].
  constructor; [exact on_grid_zero|].
  repeat (constructor; [apply upper_half_on_grid; reflexivity|]).
  constructor.
Qed.

Lemma invert_twice_restores_grid_columns_witness :
  (forall c, In c negative_cols -> grid_column (cols quarters_table) c)
  /\ exists once out1 out2,
       invert_negative_metrics quarters_table negative_cols = Ok (once, out1)
       /\ invert_negative_metrics once negative_cols = Ok (quarters_table, out2).
Proof.
  split; [exact quarters_on_grid|].
  exact (invert_twice_restores_grid_columns quarters_table negative_cols
           quarters_on_grid).
Defined.

End InversionClaims.

(* ================================================================== *)
(** * Part III: further properties of the code *)
(* ================================================================== *)

From Stdlib Require Import Sorted.

(** ** Row filters *)

Section Tables.
Import Text Frame Processor.

(** Every column holds one cell per row. *)
Definition well_formed (df : DataFrame) : Prop :=
  Forall (fun kc => col_len (snd kc) = nrows df) (cols df).

Lemma select_map {A} (f : A -> bool) (xs : list A) :
  select (map f xs) xs = filter f xs.
Proof.
  induction xs as [|x xs IH]; simpl; [reflexivity|].
  destruct (f x); now rewrite IH.
Qed.

Lemma select_length {A} (mask : list bool) : forall xs : list A,
  List.length mask = List.length xs ->
  List.length (select mask xs) = List.length (filter (fun b : bool => b) mask).
Proof.
  induction mask as [|b mask IH]; intros [|x xs] H; simpl in *; try discriminate;
    try reflexivity.
  destruct b; simpl; auto.
Qed.

Lemma select_all {A} (mask : list bool) : forall xs : list A,
  List.length mask = List.length xs ->
  Forall (fun b => b = true) mask -> select mask xs = xs.
Proof.
  induction mask as [|b mask IH]; intros [|x xs] H Hall; simpl in *;
    try discriminate; try reflexivity.
  inversion Hall; subst. f_equal. apply IH; auto.
Qed.

Lemma filter_all {A} (f : A -> bool) (xs : list A) :
  Forall (fun x => f x = true) xs -> filter f xs = xs.
Proof.
  induction 1 as [|x xs Hx _ IH]; simpl; [reflexivity|]. now rewrite Hx, IH.
Qed.

Lemma filter_map_length {A} (f : A -> bool) (xs : list A) :
  List.length (filter (fun b : bool => b) (map f xs)) = List.length (filter f xs).
Proof.
  induction xs as [|x xs IH]; simpl; [reflexivity|].
  destruct (f x); simpl; now rewrite IH.
Qed.

Lemma filter_holds {A} (f : A -> bool) (xs : list A) :
  Forall (fun x => f x = true) (filter f xs).
Proof.
  induction xs as [|x xs IH]; simpl; [constructor|].
  destruct (f x) eqn:E; [constructor|]; auto.
Qed.

Lemma select_col_len mask col :
  List.length mask = col_len col ->
  col_len (select_col mask col) = List.length (filter (fun b : bool => b) mask).
Proof. destruct col; simpl; apply select_length. Qed.

Lemma filter_rows_columns mask df : columns (filter_rows mask df) = columns df.
Proof.
  unfold columns, Dict.keys, filter_rows; simpl. rewrite map_map. reflexivity.
Qed.

Lemma filter_rows_get mask df c :
  Dict.get (cols (filter_rows mask df)) c
  = option_map (select_col mask) (Dict.get (cols df) c).
Proof.
  unfold filter_rows; simpl.
  induction (cols df) as [|[k v] d IH]; simpl; [reflexivity|].
  destruct (String.eqb k c); [reflexivity | exact IH].
Qed.

Lemma filter_rows_has_col mask df c :
  has_col (filter_rows mask df) c = has_col df c.
Proof. unfold has_col. now rewrite filter_rows_columns. Qed.

Lemma filter_rows_nrows mask df :
  (nrows (filter_rows mask df) <= List.length mask)%nat.
Proof. unfold filter_rows; simpl. apply filter_length_le. Qed.

Lemma filter_rows_well_formed mask df :
  well_formed df -> List.length mask = nrows df ->
  well_formed (filter_rows mask df).
Proof.
  unfold well_formed, filter_rows; simpl. intros Hwf Hlen.
  rewrite Forall_map. eapply Forall_impl; [|exact Hwf].
  intros [k v] Hv; simpl in *. apply select_col_len. congruence.
Qed.

Lemma filter_rows_all mask df :
  well_formed df -> List.length mask = nrows df ->
  Forall (fun b => b = true) mask -> filter_rows mask df = df.
Proof.
  intros Hwf Hlen Hall. destruct df as [n d]; unfold filter_rows; simpl in *.
  f_equal.
  - rewrite filter_all; [exact Hlen|]. exact Hall.
  - unfold well_formed in Hwf; simpl in Hwf.
    induction Hwf as [|[k v] d Hv _ IH]; simpl; [reflexivity|].
    rewrite IH. f_equal. f_equal. simpl in Hv.
    destruct v; simpl in *; f_equal; apply select_all; auto; congruence.
Qed.

Lemma dict_get_in {V} (d : Dict.dict V) k v : Dict.get d k = Some v -> In (k, v) d.
Proof.
  induction d as [|[k' v'] d IH]; simpl; [discriminate|].
  destruct (String.eqb k' k) eqn:E.
  - apply String.eqb_eq in E. intros H; inversion H; subst. now left.
  - intros H. right. auto.
Qed.

Lemma well_formed_get df c col :
  well_formed df -> Dict.get (cols df) c = Some col -> col_len col = nrows df.
Proof.
  intros Hwf H. apply dict_get_in in H.
  unfold well_formed in Hwf. rewrite Forall_forall in Hwf. exact (Hwf _ H).
Qed.

End Tables.

(** ** The forward filter *)

Section ForwardFilter.
Import Text Frame Processor.
Local Open Scope string_scope.

(** The text of the cell, in capitals, holds one of [FW], [LW], [RW],
    [ST], [CF]. *)
Definition is_forward (o : option string) : bool :=
  existsb (fun t => str_in t (upper (Processor.cell_str o))) forward_tokens.

(** The rows [filter_forwards] keeps of a position column. *)
Definition forwards_of (col : column) : column :=
  match col with
  | ObjCol xs => ObjCol (filter is_forward xs)
  | FloatCol _ => FloatCol []
  end.

Lemma forward_mask_length col : List.length (forward_mask col) = col_len col.
Proof. destruct col; simpl; apply length_map. Qed.

Lemma select_forward_mask col :
  select_col (forward_mask col) col = forwards_of col.
Proof.
  destruct col as [xs|xs]; simpl.
  - f_equal. induction xs; simpl; auto.
  - f_equal. apply (select_map is_forward).
Qed.

Lemma forward_mask_forwards_of col :
  Forall (fun b => b = true) (forward_mask (forwards_of col)).
Proof.
  destruct col as [xs|xs]; simpl; [constructor|].
  rewrite Forall_map. apply (filter_holds is_forward).
Qed.

Lemma forward_mask_count col :
  List.length (filter (fun b : bool => b) (forward_mask col))
  = col_len (forwards_of col).
Proof.
  destruct col as [xs|xs]; simpl.
  - induction xs; simpl; auto.
  - apply (filter_map_length is_forward).
Qed.

Lemma filter_forwards_some df m pos_col df' out :
  Dict.get m "position" = Some pos_col ->
  filter_forwards df m = Ok (df', out) ->
  exists col,
    Dict.get (cols df) pos_col = Some col
    /\ df' = filter_rows (forward_mask col) df
    /\ out = [FilteredForwards (nrows df')].
Proof.
  intros Hm H. unfold filter_forwards in H. rewrite Hm in H.
  bind_inv H col Hc Hk. apply getitem_ok in Hc as [Hc ->].
  unfold bind, print, ret in Hk. inversion Hk; subst.
  exists col. repeat split; auto.
Qed.

(** X1: on a table whose columns all hold one cell per row, and with a
    mapping that names a position column, [filter_forwards] keeps exactly
    the rows whose position text, put in capitals, contains one of [FW],
    [LW], [RW], [ST], [CF], in their order (a numeric position column
    keeps no row).  Every column is cut down by the same row selection,
    the column names are unchanged, the result again holds one cell per
    row, its number of rows is the number of such position cells, and the
    one line printed reports that number. *)
Theorem filter_forwards_rows df m pos_col df' out :
  well_formed df ->
  Dict.get m "position" = Some pos_col ->
  filter_forwards df m = Ok (df', out) ->
  exists col,
    Dict.get (cols df) pos_col = Some col
    /\ Dict.get (cols df') pos_col = Some (forwards_of col)
    /\ nrows df' = col_len (forwards_of col)
    /\ (nrows df' <= nrows df)%nat
    /\ columns df' = columns df
    /\ well_formed df'
    /\ (forall c v, Dict.get (cols df) c = Some v ->
          Dict.get (cols df') c = Some (select_col (forward_mask col) v))
    /\ out = [FilteredForwards (nrows df')].
Proof.
  intros Hwf Hm H.
  destruct (filter_forwards_some _ _ _ _ _ Hm H) as (col & Hc & -> & ->).
  pose proof (well_formed_get _ _ _ Hwf Hc) as Hlen.
  exists col. split; [exact Hc|]. split; [|split; [|split; [|split; [|split; [|split]]]]].
  - rewrite filter_rows_get, Hc. simpl. now rewrite select_forward_mask.
  - simpl. apply forward_mask_count.
  - eapply Nat.le_trans; [apply filter_rows_nrows|].
    rewrite forward_mask_length. now rewrite Hlen.
  - apply filter_rows_columns.
  - apply filter_rows_well_formed; [exact Hwf|]. now rewrite forward_mask_length.
  - intros c v Hv. now rewrite filter_rows_get, Hv.
  - reflexivity.
Qed.

(** Two forwards and a midfielder. *)
Definition squad_table : DataFrame :=
  mkDF 3 [ ("Player", ObjCol [Some "Inaki Williams"; Some "Thomas Partey";
                              Some "Jordan Ayew"]);
           ("Pos",    ObjCol [Some "FW"; Some "MF"; Some "FW,MF"]);
           ("Min",    FloatCol [2000; 2700; 300]%float);
           ("Gls",    FloatCol [7; 3; 1]%float) ].

Definition squad_forwards : DataFrame :=
  mkDF 2 [ ("Player", ObjCol [Some "Inaki Williams"; Some "Jordan Ayew"]);
           ("Pos",    ObjCol [Some "FW"; Some "FW,MF"]);
           ("Min",    FloatCol [2000; 300]%float);
           ("Gls",    FloatCol [7; 1]%float) ].

Lemma squad_table_well_formed : well_formed squad_table.
Proof. repeat constructor. Qed.

Lemma filter_forwards_rows_witness :
  well_formed squad_table
  /\ Dict.get (identify_columns squad_table) "position" = Some "Pos"
  /\ filter_forwards squad_table (identify_columns squad_table)
     = Ok (squad_forwards, [FilteredForwards 2])
  /\ exists col,
       Dict.get (cols squad_table) "Pos" = Some col
       /\ Dict.get (cols squad_forwards) "Pos" = Some (forwards_of col)
       /\ nrows squad_forwards = col_len (forwards_of col)
       /\ (nrows squad_forwards <= nrows squad_table)%nat
       /\ columns squad_forwards = columns squad_table
       /\ well_formed squad_forwards
       /\ (forall c v, Dict.get (cols squad_table) c = Some v ->
             Dict.get (cols squad_forwards) c
             = Some (select_col (forward_mask col) v))
       /\ [FilteredForwards 2] = [FilteredForwards (nrows squad_forwards)].
Proof.
  split; [exact squad_table_well_formed|]. split; [reflexivity|].
  split; [reflexivity|].
  exact (filter_forwards_rows squad_table (identify_columns squad_table) "Pos"
           squad_forwards [FilteredForwards 2]
           squad_table_well_formed eq_refl eq_refl).
Defined.

(** X2: [filter_forwards] is idempotent: applied with the same mapping
    to the table it returned, it returns that table again and prints the
    same line, whether or not the mapping names a position column. *)
Theorem filter_forwards_idempotent df m df' out :
  well_formed df ->
  filter_forwards df m = Ok (df', out) ->
  filter_forwards df' m = Ok (df', out).
Proof.
  intros Hwf H. destruct (Dict.get m "position") as [pos_col|] eqn:Hm.
  - destruct (filter_forwards_some _ _ _ _ _ Hm H) as (col & Hc & Hdf & Hout).
    pose proof (well_formed_get _ _ _ Hwf Hc) as Hlen.
    assert (Hwf' : well_formed df').
    { subst df'. apply filter_rows_well_formed; [exact Hwf|].
      now rewrite forward_mask_length. }
    assert (Hc' : Dict.get (cols df') pos_col = Some (forwards_of col)).
    { subst df'. rewrite filter_rows_get, Hc. simpl. now rewrite select_forward_mask. }
    unfold filter_forwards. rewrite Hm.
    rewrite (getitem_some _ _ _ Hc'). rewrite bind_ret_l.
    rewrite filter_rows_all.
    + subst out. reflexivity.
    + exact Hwf'.
    + rewrite forward_mask_length. apply (well_formed_get _ _ _ Hwf' Hc').
    + apply forward_mask_forwards_of.
  - unfold filter_forwards in *. rewrite Hm in *.
    unfold bind, print, ret in *. inversion H; subst. reflexivity.
Qed.

Lemma filter_forwards_idempotent_witness :
  well_formed squad_table
  /\ filter_forwards squad_table (identify_columns squad_table)
     = Ok (squad_forwards, [FilteredForwards 2])
  /\ filter_forwards squad_forwards (identify_columns squad_table)
     = Ok (squad_forwards, [FilteredForwards 2]).
Proof.
  split; [exact squad_table_well_formed|]. split; [reflexivity|].
  exact (filter_forwards_idempotent squad_table (identify_columns squad_table)
           squad_forwards [FilteredForwards 2] squad_table_well_formed eq_refl).
Defined.

End ForwardFilter.

(** ** The minimum-minutes filter, row by row *)

Section MinutesFilter.
Import Text Frame Config Processor.
Local Open Scope string_scope.
Local Open Scope float_scope.

(** The bound the minutes column is compared with: 450 minutes, or as
    many ninety-minute periods when the column counts periods. *)
Definition minutes_threshold (min_col : string) : float :=
  if str_in "90" (lower min_col) then MIN_MINUTES_PLAYED / 90
  else MIN_MINUTES_PLAYED.

Definition enough_minutes (min_col : string) (x : float) : bool :=
  minutes_threshold min_col <=? x.

Lemma leb_nan_r t : (t <=? nan) = false.
Proof.
  rewrite FloatAxioms.leb_spec. change (Prim2SF nan) with S754_nan.
  unfold SFleb, SFcompare. now destruct (Prim2SF t) as [[]|[]| |[] ? ?].
Qed.

Lemma leb_not_nan t y : (t <=? y) = true -> is_nan y = false.
Proof.
  intros H. destruct (is_nan y) eqn:E; [|reflexivity].
  apply is_nan_eq in E. subst y. now rewrite leb_nan_r in H.
Qed.

Lemma filter_minimum_minutes_some df m min_col df' out :
  Dict.get m "minutes" = Some min_col ->
  filter_minimum_minutes df m = Ok (df', out) ->
  exists col xs,
    Dict.get (cols df) min_col = Some col
    /\ astype_float col = Ok (xs, [])
    /\ df' = filter_rows (map (enough_minutes min_col) xs) df
    /\ out = [FilteredMinutes (nrows df')].
Proof.
  intros Hm H. unfold filter_minimum_minutes in H. rewrite Hm in H.
  bind_inv H col Hc Hk. apply getitem_ok in Hc as [Hc ->].
  bind_inv Hk xs Hxs Hk'. pose proof (astype_float_ok _ _ _ Hxs) as [-> _].
  exists col, xs. split; [exact Hc|]. split; [exact Hxs|].
  assert (Hmask :
    (if str_in "90" (lower min_col)
     then map (fun x => MIN_MINUTES_PLAYED / 90 <=? x) xs
     else map (fun x => MIN_MINUTES_PLAYED <=? x) xs)
    = map (enough_minutes min_col) xs).
  { unfold enough_minutes, minutes_threshold.
    now destruct (str_in "90" (lower min_col)). }
  rewrite Hmask in Hk'. unfold bind, print, ret in Hk'. inversion Hk'; subst.
  split; reflexivity.
Qed.

Lemma forallb_select {A} (p : A -> bool) mask : forall xs,
  forallb p xs = true -> forallb p (select mask xs) = true.
Proof.
  induction mask as [|b mask IH]; intros [|x xs] H; simpl in *; try reflexivity.
  - now destruct b.
  - apply andb_true_iff in H as [Hx H]. destruct b; simpl.
    + rewrite Hx. simpl. now apply IH.
    + now apply IH.
Qed.

Lemma select_map_comm {A B} (f : A -> B) mask : forall xs,
  select mask (map f xs) = map f (select mask xs).
Proof.
  induction mask as [|b mask IH]; intros [|x xs]; simpl; try reflexivity.
  - now destruct b.
  - destruct b; simpl; now rewrite IH.
Qed.

Lemma astype_float_select mask col xs :
  astype_float col = Ok (xs, []) ->
  astype_float (select_col mask col) = Ok (select mask xs, []).
Proof.
  destruct col as [ys|os]; simpl.
  - intros H. inversion H; subst. reflexivity.
  - destruct (forallb is_none os) eqn:E; [|discriminate].
    intros H. inversion H; subst. clear H.
    rewrite (forallb_select _ _ _ E). now rewrite select_map_comm.
Qed.

(** X3: with a mapping that names a minutes column, the rows
    [filter_minimum_minutes] keeps are exactly those whose minutes value
    [v] passes [threshold <= v], in their order, where the threshold is
    450, or 450 / 90 = 5 when the column name contains [90].  The bound is
    inclusive and a row whose minutes are missing is dropped.  The column
    names are unchanged, the result holds one cell per row, and the line
    printed reports the number of rows kept. *)
Theorem filter_minimum_minutes_threshold df m min_col df' out :
  well_formed df ->
  Dict.get m "minutes" = Some min_col ->
  filter_minimum_minutes df m = Ok (df', out) ->
  exists col xs col',
    Dict.get (cols df) min_col = Some col
    /\ astype_float col = Ok (xs, [])
    /\ Dict.get (cols df') min_col = Some col'
    /\ astype_float col' = Ok (filter (enough_minutes min_col) xs, [])
    /\ Forall (fun y => (minutes_threshold min_col <=? y) = true
                        /\ is_nan y = false)
         (filter (enough_minutes min_col) xs)
    /\ (minutes_threshold min_col = 450 \/ minutes_threshold min_col = 5)
    /\ nrows df' = List.length (filter (enough_minutes min_col) xs)
    /\ (nrows df' <= nrows df)%nat
    /\ columns df' = columns df
    /\ well_formed df'
    /\ out = [FilteredMinutes (nrows df')].
Proof.
  intros Hwf Hm H.
  destruct (filter_minimum_minutes_some _ _ _ _ _ Hm H) as (col & xs & Hc & Hxs & -> & ->).
  pose proof (well_formed_get _ _ _ Hwf Hc) as Hlen.
  pose proof (astype_float_ok _ _ _ Hxs) as [_ Hlx].
  exists col, xs, (select_col (map (enough_minutes min_col) xs) col).
  split; [exact Hc|]. split; [exact Hxs|].
  split; [now rewrite filter_rows_get, Hc|].
  split.
  { rewrite <- select_map. now apply astype_float_select. }
  split.
  { eapply Forall_impl; [|apply filter_holds].
    intros y Hy. unfold enough_minutes in Hy. split; [exact Hy|].
    eapply leb_not_nan; exact Hy. }
  split.
  { unfold minutes_threshold. destruct (str_in "90" (lower min_col)).
    - right. reflexivity.
    - left. reflexivity. }
  split; [simpl; apply filter_map_length|].
  split.
  { eapply Nat.le_trans; [apply filter_rows_nrows|].
    rewrite length_map. now rewrite Hlx, Hlen. }
  split; [apply filter_rows_columns|].
  split; [|reflexivity].
  apply filter_rows_well_formed; [exact Hwf|]. rewrite length_map. congruence.
Qed.

Definition squad_regulars : DataFrame :=
  mkDF 2 [ ("Player", ObjCol [Some "Inaki Williams"; Some "Thomas Partey"]);
           ("Pos",    ObjCol [Some "FW"; Some "MF"]);
           ("Min",    FloatCol [2000; 2700]%float);
           ("Gls",    FloatCol [7; 3]%float) ].

Lemma filter_minimum_minutes_threshold_witness :
  well_formed squad_table
  /\ Dict.get (identify_columns squad_table) "minutes" = Some "Min"
  /\ filter_minimum_minutes squad_table (identify_columns squad_table)
     = Ok (squad_regulars, [FilteredMinutes 2])
  /\ exists col xs col',
       Dict.get (cols squad_table) "Min" = Some col
       /\ astype_float col = Ok (xs, [])
       /\ Dict.get (cols squad_regulars) "Min" = Some col'
       /\ astype_float col' = Ok (filter (enough_minutes "Min") xs, [])
       /\ Forall (fun y => (minutes_threshold "Min" <=? y)%float = true
                           /\ is_nan y = false)
            (filter (enough_minutes "Min") xs)
       /\ (minutes_threshold "Min" = 450%float \/ minutes_threshold "Min" = 5%float)
       /\ nrows squad_regulars = List.length (filter (enough_minutes "Min") xs)
       /\ (nrows squad_regulars <= nrows squad_table)%nat
       /\ columns squad_regulars = columns squad_table
       /\ well_formed squad_regulars
       /\ [FilteredMinutes 2] = [FilteredMinutes (nrows squad_regulars)].
Proof.
  split; [exact squad_table_well_formed|]. split; [reflexivity|].
  split; [reflexivity|].
  exact (filter_minimum_minutes_threshold squad_table
           (identify_columns squad_table) "Min" squad_regulars
           [FilteredMinutes 2] squad_table_well_formed eq_refl eq_refl).
Defined.

End MinutesFilter.

(** ** The shape of the per-90 conversion *)

Section Per90Shape.
Import Text Frame Config Processor.
Local Open Scope string_scope.

Lemma map2_length {A B C} (f : A -> B -> C) xs : forall ys,
  List.length (map2 f xs ys) = Nat.min (List.length xs) (List.length ys).
Proof.
  induction xs as [|x xs IH]; intros [|y ys]; simpl; auto.
Qed.

Lemma dict_set_forall {V} (P : string * V -> Prop) (d : Dict.dict V) k v :
  Forall P d -> P (k, v) -> Forall P (Dict.set d k v).
Proof.
  intros Hd Hkv. induction Hd as [|[k' v'] d Hx Hd IH]; simpl.
  - constructor; auto.
  - destruct (String.eqb k' k); constructor; auto.
Qed.

Lemma setitem_well_formed df c col :
  well_formed df -> col_len col = nrows df -> well_formed (setitem df c col).
Proof.
  unfold well_formed, setitem; simpl. intros Hwf Hlen.
  now apply dict_set_forall.
Qed.

Lemma setitem_columns_app df c col :
  columns (setitem df c col)
  = (columns df ++ (if has_col df c then [] else [c]))%list.
Proof.
  unfold columns, setitem; simpl. rewrite dict_keys_set, has_col_mem.
  destruct (Dict.mem (cols df) c); [now rewrite app_nil_r | reflexivity].
Qed.

(** The columns of [df'] are those of [df], in their order, followed by
    columns named in [names]. *)
Definition extends_by (names : list string) (df df' : DataFrame) : Prop :=
  exists added, columns df' = (columns df ++ added)%list /\ incl added names.

Lemma extends_by_refl names df : extends_by names df df.
Proof. exists []. split; [now rewrite app_nil_r | intros x []]. Qed.

Lemma extends_by_trans names df1 df2 df3 :
  extends_by names df1 df2 -> extends_by names df2 df3 -> extends_by names df1 df3.
Proof.
  intros (a & Ha & Ia) (b & Hb & Ib). exists (a ++ b)%list. split.
  - now rewrite Hb, Ha, app_assoc.
  - now apply incl_app.
Qed.

Lemma extends_by_setitem names df c col :
  In c names -> extends_by names df (setitem df c col).
Proof.
  intros Hc. exists (if has_col df c then [] else [c]). split.
  - apply setitem_columns_app.
  - destruct (has_col df c); intros x Hx; [destruct Hx|].
    destruct Hx as [<-|[]]. exact Hc.
Qed.

Lemma extends_by_incl names names' df df' :
  incl names names' -> extends_by names df df' -> extends_by names' df df'.
Proof.
  intros Hi (a & Ha & Ia). exists a. split; [exact Ha|].
  eapply incl_tran; eassumption.
Qed.

Lemma per90_loop_shape m stats : forall df df' out,
  well_formed df ->
  per90_loop m stats df = Ok (df', out) ->
  out = [] /\ well_formed df' /\ extends_by (map per90_name stats) df df'.
Proof.
  induction stats as [|stat rest IH]; intros df df' out Hwf H.
  - simpl in H. inversion H; subst. repeat split; auto using extends_by_refl.
  - assert (Hskip : per90_loop m rest df = Ok (df', out) ->
      out = [] /\ well_formed df'
      /\ extends_by (map per90_name (stat :: rest)) df df').
    { intros H'. destruct (IH _ _ _ Hwf H') as (-> & Hwf' & He).
      repeat split; auto. eapply extends_by_incl; [|exact He].
      simpl. now apply incl_tl. }
    rewrite per90_loop_cons in H.
    destruct (Dict.get m stat) as [col|]; [|auto].
    destruct (has_col df col); [|auto].
    destruct (per90_round _ _ _ _ _ _ H)
      as (colv & ss & c90 & ps & out' & Hc & Hs & Hc90 & Hp & Hk).
    assert (Hout : out = out').
    { rewrite (getitem_some _ _ _ Hc), bind_ret_l in H. rewrite Hs, bind_ret_l in H.
      rewrite (getitem_some _ _ _ Hc90), bind_ret_l in H.
      rewrite Hp, bind_ret_l in H. congruence. }
    subst out'.
    assert (Hwf1 : well_formed
              (setitem df (per90_name stat) (FloatCol (map2 per90 ss ps)))).
    { apply setitem_well_formed; [exact Hwf|]. simpl. rewrite map2_length.
      apply astype_float_ok in Hs as [_ Hs]. apply astype_float_ok in Hp as [_ Hp].
      rewrite Hs, Hp.
      rewrite (well_formed_get _ _ _ Hwf Hc), (well_formed_get _ _ _ Hwf Hc90).
      apply Nat.min_id. }
    destruct (IH _ _ _ Hwf1 Hk) as (-> & Hwf' & He).
    repeat split; auto.
    eapply extends_by_trans.
    + apply extends_by_setitem. simpl. left. reflexivity.
    + eapply extends_by_incl; [|exact He]. simpl. now apply incl_tl.
Qed.

(** With a minutes column, [normalize_per_90] writes the periods column
    and runs the loop on the table so extended. *)
Lemma normalize_per_90_loop df m min_col df' out :
  well_formed df ->
  Dict.get m "minutes" = Some min_col ->
  normalize_per_90 df m = Ok (df', out) ->
  exists played,
    well_formed (setitem df "90s_played" (FloatCol played))
    /\ per90_loop m counting_stats (setitem df "90s_played" (FloatCol played))
       = Ok (df', out).
Proof.
  intros Hwf Hm H. unfold normalize_per_90 in H. rewrite Hm in H.
  unfold getitem in H.
  destruct (Dict.get (cols df) min_col) as [c|] eqn:Hc; [|discriminate].
  unfold ret at 1 in H. rewrite bind_ret_l in H.
  destruct (astype_float c) as [[xs o]|e] eqn:Hxs; [|discriminate].
  pose proof (astype_float_ok _ _ _ Hxs) as [-> Hlen].
  rewrite bind_ret_l in H.
  exists (if str_in "90" (lower min_col) then xs
          else map (fun x => (x / 90)%float) xs).
  split; [|exact H].
  apply setitem_well_formed; [exact Hwf|]. simpl.
  rewrite <- (well_formed_get _ _ _ Hwf Hc), <- Hlen.
  destruct (str_in "90" (lower min_col)); [reflexivity | apply length_map].
Qed.

Lemma normalize_per_90_extends df m df' out :
  well_formed df ->
  normalize_per_90 df m = Ok (df', out) ->
  out = []
  /\ nrows df' = nrows df
  /\ well_formed df'
  /\ extends_by ("90s_played" :: map per90_name counting_stats) df df'
  /\ (forall c, c <> "90s_played" -> ~ In c (map per90_name counting_stats) ->
        Dict.get (cols df') c = Dict.get (cols df) c).
Proof.
  intros Hwf H. destruct (Dict.get m "minutes") as [min_col|] eqn:Hm.
  - destruct (normalize_per_90_loop _ _ _ _ _ Hwf Hm H) as (played & Hwf1 & Hk).
    destruct (per90_loop_shape _ _ _ _ _ Hwf1 Hk) as (-> & Hwf' & He).
    destruct (per90_loop_frame _ _ _ _ _ Hk) as (Hn & Hget).
    split; [reflexivity|]. split; [exact Hn|]. split; [exact Hwf'|]. split.
    + eapply extends_by_trans.
      * apply (extends_by_setitem _ df "90s_played" (FloatCol played)). now left.
      * eapply extends_by_incl; [|exact He]. now apply incl_tl.
    + intros c Hc Hnot. rewrite (Hget c Hnot). now apply setitem_get_other.
  - unfold normalize_per_90 in H. rewrite Hm in H. inversion H; subst.
    repeat split; auto using extends_by_refl.
Qed.

(** X4: [normalize_per_90] prints nothing and keeps the number of rows;
    the columns of its input stay where they are, and the only columns it
    may append are [90s_played] and the [<stat>_per90] columns; every
    column with another name is returned untouched, and the result holds
    one cell per row. *)
Theorem normalize_per_90_shape df m df' out :
  well_formed df ->
  normalize_per_90 df m = Ok (df', out) ->
  out = []
  /\ nrows df' = nrows df
  /\ well_formed df'
  /\ extends_by ("90s_played" :: map per90_name counting_stats) df df'
  /\ (forall c, c <> "90s_played" -> ~ In c (map per90_name counting_stats) ->
        Dict.get (cols df') c = Dict.get (cols df) c).
Proof.
  intros Hwf H. destruct (Dict.get m "minutes") as [min_col|] eqn:Hm.
  - destruct (normalize_per_90_loop _ _ _ _ _ Hwf Hm H) as (played & Hwf1 & Hk).
    destruct (per90_loop_shape _ _ _ _ _ Hwf1 Hk) as (-> & Hwf' & He).
    destruct (per90_loop_frame _ _ _ _ _ Hk) as (Hn & Hget).
    split; [reflexivity|]. split; [exact Hn|]. split; [exact Hwf'|]. split.
    + eapply extends_by_trans.
      * apply (extends_by_setitem _ df "90s_played" (FloatCol played)). now left.
      * eapply extends_by_incl; [|exact He]. now apply incl_tl.
    + intros c Hc Hnot. rewrite (Hget c Hnot). now apply setitem_get_other.
  - unfold normalize_per_90 in H. rewrite Hm in H. inversion H; subst.
    repeat split; auto using extends_by_refl.
Qed.

Lemma zero_minutes_table_well_formed : well_formed zero_minutes_table.
Proof. repeat constructor. Qed.

Lemma normalize_per_90_shape_witness :
  well_formed zero_minutes_table
  /\ normalize_per_90 zero_minutes_table (identify_columns zero_minutes_table)
     = Ok (zero_minutes_converted, [])
  /\ nrows zero_minutes_converted = nrows zero_minutes_table
  /\ well_formed zero_minutes_converted
  /\ extends_by ("90s_played" :: map per90_name counting_stats)
       zero_minutes_table zero_minutes_converted
  /\ (forall c, c <> "90s_played" -> ~ In c (map per90_name counting_stats) ->
        Dict.get (cols zero_minutes_converted) c
        = Dict.get (cols zero_minutes_table) c).
Proof.
  split; [exact zero_minutes_table_well_formed|]. split; [reflexivity|].
  exact (proj2 (normalize_per_90_shape zero_minutes_table
                  (identify_columns zero_minutes_table) zero_minutes_converted []
                  zero_minutes_table_well_formed eq_refl)).
Defined.

End Per90Shape.

(** ** When the scaling fails *)

Lemma bind_raise {A B} (m : M A) (k : A -> M B) e :
  bind m k = Raise e ->
  m = Raise e \/ exists a out, m = Ok (a, out) /\ k a = Raise e.
Proof.
  unfold bind. destruct m as [[a out]|e']; [|intros H; left; congruence].
  destruct (k a) as [[b out2]|e'] eqn:E; [discriminate|].
  intros H. right. exists a, out. split; [reflexivity|]. congruence.
Qed.

Section ScalingFailures.
Import Text Frame Config Processor.
Local Open Scope string_scope.

(** What [MinMaxScaler] accepts of a column: at least one cell, no text,
    no infinite value. *)
Definition scalable (col : column) : bool :=
  match col with
  | FloatCol xs =>
      negb (List.length xs =? 0)%nat && negb (existsb is_infinity xs)
  | ObjCol os =>
      negb (List.length os =? 0)%nat && forallb is_none os
  end.

Lemma mapM_raise {A B} (f : A -> M B) (l : list A) e :
  mapM f l = Raise e -> exists a, In a l /\ f a = Raise e.
Proof.
  induction l as [|a l IH]; simpl; [discriminate|].
  intros H. apply bind_raise in H as [H|(b & o & _ & H)].
  - exists a. auto.
  - apply bind_raise in H as [H|(bs & o' & _ & H)]; [|discriminate].
    destruct (IH H) as (a' & Ha & Hf). exists a'. auto.
Qed.

Lemma Forall2_in_r {A B} (R : A -> B -> Prop) l1 l2 b :
  Forall2 R l1 l2 -> In b l2 -> exists a, In a l1 /\ R a b.
Proof.
  induction 1 as [|a b' l1 l2 Hab _ IH]; simpl; [intros []|].
  intros [<-|Hb].
  - exists a. auto.
  - destruct (IH Hb) as (a' & Ha & HR). exists a'. auto.
Qed.

Lemma fit_raise xs e :
  fit xs = Raise e ->
  e = ValueError /\ (xs = [] \/ existsb is_infinity xs = true).
Proof.
  unfold fit. destruct xs as [|x0 rest]; [intros H; inversion H; auto|].
  destruct (existsb is_infinity (x0 :: rest)); [|discriminate].
  intros H; inversion H; auto.
Qed.

Lemma is_infinity_fillna0 x : is_infinity (fillna0 x) = true -> is_infinity x = true.
Proof. unfold fillna0. destruct (is_nan x); [discriminate | trivial]. Qed.

Lemma existsb_infinity_fillna0 xs :
  existsb is_infinity (map fillna0 xs) = true -> existsb is_infinity xs = true.
Proof.
  induction xs as [|x xs IH]; simpl; [trivial|].
  intros H. apply orb_true_iff in H as [H|H]; apply orb_true_iff.
  - left. now apply is_infinity_fillna0.
  - right. auto.
Qed.

Lemma existsb_infinity_nan {A} (os : list A) :
  existsb is_infinity (map (fun _ => nan) os) = false.
Proof. induction os; simpl; auto. Qed.

Lemma scaled_from_scalable df c ys col :
  scaled_from df c ys -> Dict.get (cols df) c = Some col -> scalable col = true.
Proof.
  intros (col' & xs & sc & Hc & Hxs & Hfit & _) Hcol.
  rewrite Hcol in Hc. inversion Hc; subst col'. clear Hc.
  unfold fit in Hfit.
  destruct (map fillna0 xs) as [|y0 rest] eqn:Hys; [discriminate|].
  destruct (existsb is_infinity (y0 :: rest)) eqn:Hinf; [discriminate|].
  rewrite <- Hys in Hinf.
  destruct col as [zs|os]; simpl in *.
  - inversion Hxs; subst zs. apply andb_true_iff. split.
    + destruct xs; [discriminate | reflexivity].
    + apply negb_true_iff. clear - Hinf.
      induction xs as [|x xs IH]; simpl in *; [reflexivity|].
      apply orb_false_iff in Hinf as [Hx Hinf]. rewrite (IH Hinf), orb_false_r.
      unfold fillna0 in Hx. destruct (is_nan x) eqn:En; [|exact Hx].
      apply is_nan_eq in En. now subst x.
  - destruct (forallb is_none os); [|discriminate].
    inversion Hxs; subst xs. destruct os; [discriminate | reflexivity].
Qed.

Lemma normalize_features_ok_scalable df feature_cols df' out c col :
  normalize_features df feature_cols = Ok (df', out) ->
  In c feature_cols -> Dict.get (cols df) c = Some col -> scalable col = true.
Proof.
  intros H Hin Hc.
  assert (Hhas : has_col df c = true) by (apply has_col_get; eauto).
  destruct (normalize_features_scaled _ _ _ _ _ H Hin Hhas) as (ys & _ & Hs).
  eapply scaled_from_scalable; eassumption.
Qed.

Lemma normalize_features_raise df feature_cols e :
  normalize_features df feature_cols = Raise e ->
  e = ValueError
  /\ exists c col, In c feature_cols /\ Dict.get (cols df) c = Some col
       /\ scalable col = false.
Proof.
  intros H. unfold normalize_features in H.
  assert (Hex : forall c, In c (filter (has_col df) feature_cols) ->
            In c feature_cols /\ exists col, Dict.get (cols df) c = Some col).
  { intros c Hc. apply filter_In in Hc as [Hin Hhas]. split; [exact Hin|].
    now apply has_col_get. }
  destruct (filter (has_col df) feature_cols) as [|c0 rest] eqn:Hf; [discriminate|].
  apply bind_raise in H as [H|(X & o & HX & H)].
  - apply mapM_raise in H as (c & Hc & H).
    destruct (Hex c Hc) as (Hin & col & Hcol).
    rewrite (getitem_some _ _ _ Hcol), bind_ret_l in H.
    apply bind_raise in H as [H|(xs & o & _ & H)]; [|discriminate].
    destruct col as [xs|os]; simpl in H; [discriminate|].
    destruct (forallb is_none os) eqn:E; [discriminate|].
    inversion H; subst e. split; [reflexivity|].
    exists c, (ObjCol os). repeat split; auto. simpl. rewrite E. apply andb_false_r.
  - apply bind_raise in H as [H|(X' & o' & _ & H)]; [|discriminate].
    apply mapM_raise in H as (ys & Hys & H).
    apply bind_raise in H as [H|(sc & o' & _ & H)]; [|discriminate].
    apply fit_raise in H as [-> Hbad]. split; [reflexivity|].
    apply mapM_ok in HX.
    destruct (Forall2_in_r _ _ _ _ HX Hys) as (c & Hc & o' & Hprep).
    destruct (Hex c Hc) as (Hin & _).
    apply filled_column_ok in Hprep as (col & xs & Hcol & Hxs & ->).
    exists c, col. repeat split; auto.
    destruct col as [zs|os]; simpl in *.
    + inversion Hxs; subst zs. destruct Hbad as [Hnil|Hinf].
      * destruct xs; [reflexivity | discriminate].
      * apply existsb_infinity_fillna0 in Hinf. rewrite Hinf. apply andb_false_r.
    + destruct (forallb is_none os); [|apply andb_false_r].
      inversion Hxs; subst xs. destruct Hbad as [Hnil|Hinf].
      * destruct os; [reflexivity | discriminate].
      * apply existsb_infinity_fillna0 in Hinf.
        now rewrite existsb_infinity_nan in Hinf.
Qed.

(** X5: [normalize_features] raises nothing but [ValueError], and it
    raises exactly when one of the listed columns that the table has
    cannot be scaled: the column has no cell (the table has no row), or
    holds text, or holds an infinite value. *)
Theorem normalize_features_failure df feature_cols :
  match normalize_features df feature_cols with
  | Ok _ =>
      forall c col, In c feature_cols -> Dict.get (cols df) c = Some col ->
        scalable col = true
  | Raise e =>
      e = ValueError
      /\ exists c col, In c feature_cols /\ Dict.get (cols df) c = Some col
           /\ scalable col = false
  end.
Proof.
  destruct (normalize_features df feature_cols) as [[df' out]|e] eqn:H.
  - intros c col. now apply (normalize_features_ok_scalable df feature_cols df' out).
  - now apply normalize_features_raise.
Qed.

End ScalingFailures.

(** ** The outcome of the inversion *)

Section InversionShape.
Import Text Frame Config Processor.
Local Open Scope string_scope.

Lemma one_minus_ok col xs out :
  one_minus col = Ok (xs, out) -> out = [] /\ List.length xs = col_len col.
Proof.
  destruct col as [ys|os]; simpl.
  - intros H; inversion H; subst. now rewrite length_map.
  - destruct (forallb is_none os); [|discriminate].
    intros H; inversion H; subst. now rewrite length_map.
Qed.

Lemma one_minus_raise col e :
  one_minus col = Raise e ->
  e = TypeError /\ exists os, col = ObjCol os /\ forallb is_none os = false.
Proof.
  destruct col as [ys|os]; simpl; [discriminate|].
  destruct (forallb is_none os) eqn:E; [discriminate|].
  intros H; inversion H. split; [reflexivity|]. now exists os.
Qed.

(** X6: when [invert_negative_metrics] returns, the table has the same
    number of rows and the same column names, every column that is not
    listed is untouched, and one line [Inverted: col] was printed for each
    listed column the table has, in the order of the list.  When it
    raises, the exception is [TypeError] and a listed column of the table
    it was given holds text. *)
Theorem invert_negative_metrics_outcome negative_cols : forall df,
  match invert_negative_metrics df negative_cols with
  | Ok (df', out) =>
      nrows df' = nrows df
      /\ columns df' = columns df
      /\ (forall c, ~ In c negative_cols ->
            Dict.get (cols df') c = Dict.get (cols df) c)
      /\ out = map Inverted (filter (has_col df) negative_cols)
  | Raise e =>
      e = TypeError
      /\ exists c os, In c negative_cols
           /\ Dict.get (cols df) c = Some (ObjCol os)
           /\ forallb is_none os = false
  end.
Proof.
  induction negative_cols as [|col rest IH]; intros df; simpl.
  - repeat split; auto.
  - destruct (has_col df col) eqn:Hhas.
    2:{ specialize (IH df).
        destruct (invert_negative_metrics df rest) as [[df' out]|e].
        - destruct IH as (Hn & Hc & Hget & Hout).
          split; [exact Hn|]. split; [exact Hc|]. split; [|exact Hout].
          intros c Hc'. apply Hget. tauto.
        - destruct IH as (-> & c & os & Hin & Hget & Hos).
          split; [reflexivity|]. exists c, os. auto. }
    apply has_col_get in Hhas as (cv & Hcv).
    rewrite (getitem_some _ _ _ Hcv), bind_ret_l.
    destruct (one_minus cv) as [[xs o]|e] eqn:Hone.
    2:{ apply one_minus_raise in Hone as (-> & os & -> & Hos). simpl.
        split; [reflexivity|]. exists col, os. auto. }
    apply one_minus_ok in Hone as [-> _]. rewrite bind_ret_l.
    specialize (IH (setitem df col (FloatCol xs))).
    assert (Hhas : has_col df col = true) by (apply has_col_get; eauto).
    destruct (invert_negative_metrics (setitem df col (FloatCol xs)) rest)
      as [[df' out]|e].
    + destruct IH as (Hn & Hc & Hget & Hout). split; [exact Hn|].
      split; [now rewrite Hc, setitem_columns|].
      split.
      * intros c Hc'. rewrite Hget by tauto. apply setitem_get_other.
        intros ->. tauto.
      * simpl. f_equal. rewrite Hout. f_equal. apply filter_ext.
        intros c. rewrite setitem_has_col.
        destruct (String.eqb c col) eqn:E; [|reflexivity].
        apply String.eqb_eq in E. subst c. now rewrite Hhas.
    + destruct IH as (-> & c & os & Hin & Hget & Hos).
      split; [reflexivity|]. exists c, os. repeat split; auto.
      destruct (String.eqb col c) eqn:E.
      * apply String.eqb_eq in E. subst c. rewrite setitem_get_same in Hget.
        discriminate.
      * apply String.eqb_neq in E. now rewrite setitem_get_other in Hget.
Qed.

End InversionShape.

(** ** The pipeline, stage by stage *)

Section Pipeline.
Import Text Frame Config Processor.
Local Open Scope string_scope.

Lemma identify_columns_has_col df key col :
  Dict.get (identify_columns df) key = Some col -> has_col df col = true.
Proof.
  intros H.
  destruct (in_dec string_dec key (map fst patterns)) as [Hin|Hout].
  - apply in_map_iff in Hin as ([k names] & Hk & Hin). simpl in Hk. subst k.
    rewrite (identify_columns_get df key names Hin) in H.
    apply scan_columns_some in H as (pre & post & Hcols & _).
    unfold has_col. rewrite Hcols, existsb_app. simpl.
    rewrite String.eqb_refl. now rewrite orb_true_r.
  - now rewrite identify_columns_absent in H.
Qed.

Lemma astype_float_raise col e : astype_float col = Raise e -> e = ValueError.
Proof.
  destruct col as [xs|os]; simpl; [discriminate|].
  destruct (forallb is_none os); [discriminate|]. intros H; now inversion H.
Qed.

Lemma filter_forwards_returns df m :
  (forall c, Dict.get m "position" = Some c -> has_col df c = true) ->
  exists df' out, filter_forwards df m = Ok (df', out).
Proof.
  intros Hm. unfold filter_forwards.
  destruct (Dict.get m "position") as [c|]; [|eexists; eexists; reflexivity].
  destruct (proj1 (has_col_get df c) (Hm c eq_refl)) as (col & Hcol).
  rewrite (getitem_some _ _ _ Hcol), bind_ret_l. eexists; eexists; reflexivity.
Qed.

Lemma filter_minimum_minutes_raise df m e :
  (forall c, Dict.get m "minutes" = Some c -> has_col df c = true) ->
  filter_minimum_minutes df m = Raise e -> e = ValueError.
Proof.
  intros Hm H. unfold filter_minimum_minutes in H.
  destruct (Dict.get m "minutes") as [c|]; [|discriminate].
  destruct (proj1 (has_col_get df c) (Hm c eq_refl)) as (col & Hcol).
  rewrite (getitem_some _ _ _ Hcol), bind_ret_l in H.
  apply bind_raise in H as [H|(xs & o & _ & H)]; [|discriminate].
  now apply astype_float_raise in H.
Qed.

Lemma per90_loop_raise m stats : forall df e,
  has_col df "90s_played" = true ->
  per90_loop m stats df = Raise e -> e = ValueError.
Proof.
  induction stats as [|stat rest IH]; intros df e H90 H; [discriminate|].
  rewrite per90_loop_cons in H.
  destruct (Dict.get m stat) as [col|]; [|eauto].
  destruct (has_col df col) eqn:Hhas; [|eauto].
  apply has_col_get in Hhas as (cv & Hcv).
  pose proof H90 as H90'. apply has_col_get in H90' as (c90 & Hc90).
  rewrite (getitem_some _ _ _ Hcv), bind_ret_l in H.
  apply bind_raise in H as [H|(ss & o & _ & H)];
    [now apply astype_float_raise in H|].
  rewrite (getitem_some _ _ _ Hc90), bind_ret_l in H.
  apply bind_raise in H as [H|(ps & o' & _ & H)];
    [now apply astype_float_raise in H|].
  apply IH in H; [exact H|].
  rewrite setitem_has_col, H90. apply orb_true_r.
Qed.

Lemma normalize_per_90_raise df m e :
  (forall c, Dict.get m "minutes" = Some c -> has_col df c = true) ->
  normalize_per_90 df m = Raise e -> e = ValueError.
Proof.
  intros Hm H. unfold normalize_per_90 in H.
  destruct (Dict.get m "minutes") as [c|]; [|discriminate].
  destruct (proj1 (has_col_get df c) (Hm c eq_refl)) as (col & Hcol).
  rewrite (getitem_some _ _ _ Hcol), bind_ret_l in H.
  apply bind_raise in H as [H|(xs & o & _ & H)];
    [now apply astype_float_raise in H|].
  apply per90_loop_raise in H; [exact H|].
  rewrite setitem_has_col. reflexivity.
Qed.

(** A filter returns a selection of the rows of its input. *)
Definition selection_of (df df' : DataFrame) : Prop :=
  exists mask, List.length mask = nrows df /\ df' = filter_rows mask df.

Lemma selection_of_refl df : well_formed df -> selection_of df df.
Proof.
  intros Hwf. exists (repeat true (nrows df)). split; [apply repeat_length|].
  symmetry. apply filter_rows_all; [exact Hwf | apply repeat_length|].
  apply Forall_forall. intros b Hb. now apply repeat_spec in Hb.
Qed.

Lemma filter_forwards_selection df m df' out :
  well_formed df -> filter_forwards df m = Ok (df', out) -> selection_of df df'.
Proof.
  intros Hwf H. destruct (Dict.get m "position") as [pos_col|] eqn:Hm.
  - destruct (filter_forwards_some _ _ _ _ _ Hm H) as (col & Hc & -> & _).
    exists (forward_mask col). split; [|reflexivity].
    rewrite forward_mask_length. now apply (well_formed_get df pos_col).
  - unfold filter_forwards in H. rewrite Hm in H.
    unfold bind, print, ret in H. inversion H; subst. now apply selection_of_refl.
Qed.

Lemma filter_minimum_minutes_selection df m df' out :
  well_formed df -> filter_minimum_minutes df m = Ok (df', out) ->
  selection_of df df'.
Proof.
  intros Hwf H. destruct (Dict.get m "minutes") as [min_col|] eqn:Hm.
  - destruct (filter_minimum_minutes_some _ _ _ _ _ Hm H)
      as (col & xs & Hc & Hxs & -> & _).
    exists (map (enough_minutes min_col) xs). split; [|reflexivity].
    rewrite length_map. apply astype_float_ok in Hxs as [_ ->].
    now apply (well_formed_get df min_col).
  - unfold filter_minimum_minutes in H. rewrite Hm in H.
    unfold bind, print, ret in H. inversion H; subst. now apply selection_of_refl.
Qed.

Lemma selection_of_well_formed df df' :
  well_formed df -> selection_of df df' -> well_formed df'.
Proof. intros Hwf (mask & Hlen & ->). now apply filter_rows_well_formed. Qed.

Lemma selection_of_has_col df df' c :
  selection_of df df' -> has_col df' c = has_col df c.
Proof. intros (mask & _ & ->). apply filter_rows_has_col. Qed.

Lemma selection_of_nrows df df' :
  selection_of df df' -> (nrows df' <= nrows df)%nat.
Proof. intros (mask & <- & ->). apply filter_rows_nrows. Qed.

Lemma selection_of_columns df df' :
  selection_of df df' -> columns df' = columns df.
Proof. intros (mask & _ & ->). apply filter_rows_columns. Qed.

Lemma assign_well_formed names : forall X df,
  well_formed df ->
  Forall (fun ys => List.length ys = nrows df) X ->
  well_formed (assign df names X).
Proof.
  induction names as [|c names IH]; intros [|ys X] df Hwf HX; simpl; auto.
  inversion HX; subst. apply IH.
  - now apply setitem_well_formed.
  - assumption.
Qed.

Lemma normalize_features_extends df fc df' out :
  well_formed df ->
  normalize_features df fc = Ok (df', out) ->
  nrows df' = nrows df
  /\ columns df' = columns df
  /\ well_formed df'
  /\ (forall c, ~ In c fc -> Dict.get (cols df') c = Dict.get (cols df) c)
  /\ exists n, out = [] \/ out = [NormalizedFeatures n].
Proof.
  intros Hwf H.
  assert (Hout : exists n, out = [] \/ out = [NormalizedFeatures n]).
  { unfold normalize_features in H.
    destruct (filter (has_col df) fc) as [|c0 rest].
    - inversion H. exists 0%nat. now left.
    - bind_inv H X HX H. bind_inv H X' HX' H.
      unfold bind, print, ret in H. inversion H; subst.
      exists (List.length (c0 :: rest)). right.
      assert (out0 = []) as ->.
      { clear - HX. revert X out0 HX.
        induction (c0 :: rest) as [|c l IH]; simpl; intros X out0 HX.
        - now inversion HX.
        - bind_inv HX ys Hys HX. bind_inv HX Y HY HX.
          inversion HX; subst. apply IH in HY. subst.
          bind_inv Hys col Hcol Hys. apply getitem_ok in Hcol as [_ ->].
          bind_inv Hys xs Hxs Hys. apply astype_float_ok in Hxs as [-> _].
          inversion Hys; subst. reflexivity. }
      assert (out2 = []) as ->.
      { clear - HX'. revert X' out2 HX'.
        induction X as [|ys l IH]; simpl; intros X' out2 HX'.
        - now inversion HX'.
        - bind_inv HX' zs Hzs HX'. bind_inv HX' Y HY HX'.
          inversion HX'; subst. apply IH in HY. subst.
          bind_inv Hzs sc Hsc Hzs. apply fit_ok in Hsc. inversion Hzs; subst.
          reflexivity. }
      reflexivity. }
  destruct (normalize_features_columns _ _ _ _ H) as [[Hnil ->]|(X' & HX' & ->)].
  - repeat split; auto.
  - set (names := filter (has_col df) fc) in *.
    assert (Hhas : Forall (fun c => has_col df c = true) names).
    { apply Forall_forall. intros c Hc. now apply filter_In in Hc. }
    assert (Hlen : List.length X' = List.length names).
    { symmetry. eapply Forall2_length; eassumption. }
    destruct (assign_frame names X' df Hhas Hlen) as (Hn & Hc & Hother & _).
    split; [exact Hn|]. split; [exact Hc|]. split; [|split; [|exact Hout]].
    + apply assign_well_formed; [exact Hwf|].
      clear - HX' Hwf. induction HX' as [|c ys l1 l2 Hs _ IH]; constructor; auto.
      destruct Hs as (col & xs & sc & Hcol & Hxs & _ & ->).
      rewrite length_map. apply astype_float_ok in Hxs as [_ ->].
      now apply (well_formed_get df c).
    + intros c Hc'. apply Hother. intros Hin. apply Hc'.
      now apply filter_In in Hin.
Qed.

Lemma process_data_run raw processed out :
  process_data raw = Ok (Some processed, out) ->
  exists df1 o1 df2 o2 df3 o3 o4,
    filter_forwards raw (identify_columns raw) = Ok (df1, o1)
    /\ filter_minimum_minutes df1 (identify_columns raw) = Ok (df2, o2)
    /\ normalize_per_90 df2 (identify_columns raw) = Ok (df3, o3)
    /\ normalize_features df3 feature_cols = Ok (processed, o4)
    /\ out = (IdentifiedColumns (identify_columns raw)
              :: o1 ++ o2 ++ o3 ++ o4 ++ [Saved (nrows processed)])%list.
Proof.
  unfold process_data. destruct (empty raw).
  - intros H. unfold bind, print, ret in H. discriminate.
  - intros H. unfold bind, print, ret in H.
    destruct (filter_forwards raw (identify_columns raw)) as [[df1 o1]|e1] eqn:E1;
      [|discriminate].
    destruct (filter_minimum_minutes df1 (identify_columns raw)) as [[df2 o2]|e2] eqn:E2;
      [|discriminate].
    destruct (normalize_per_90 df2 (identify_columns raw)) as [[df3 o3]|e3] eqn:E3;
      [|discriminate].
    destruct (normalize_features df3 feature_cols) as [[df4 o4]|e4] eqn:E4;
      [|discriminate].
    inversion H; subst. exists df1, o1, df2, o2, df3, o3, o4.
    repeat split; auto.
Qed.

End Pipeline.

(** ** What the pipeline guarantees *)

Section PipelineProperties.
Import Text Frame Config Processor.
Local Open Scope string_scope.

(** A table whose minutes column holds text. *)
Definition text_minutes_table : DataFrame :=
  mkDF 1 [ ("Player", ObjCol [Some "Inaki Williams"]);
           ("Pos",    ObjCol [Some "FW"]);
           ("Min",    ObjCol [Some "n/a"]);
           ("Gls",    FloatCol [4]%float) ].

(** X7: whatever the raw table, the only exception the pipeline of
    [process_data] raises between loading and saving is [ValueError]: a
    column named by the mapping exists at every stage, so no lookup
    fails. *)
Theorem process_data_raises_value_error raw e :
  process_data raw = Raise e -> e = ValueError.
Proof.
  unfold process_data. destruct (empty raw); [discriminate|].
  set (m := identify_columns raw).
  assert (Hm : forall key c, Dict.get m key = Some c -> has_col raw c = true).
  { intros key c. apply identify_columns_has_col. }
  intros H.
  apply bind_raise in H as [H|(u & o & _ & H)]; [discriminate|].
  destruct (filter_forwards_returns raw m (Hm "position")) as (df1 & o1 & H1).
  rewrite H1 in H.
  apply bind_raise in H as [H|(df1' & o1' & E1 & H)]; [discriminate|].
  inversion E1; subst df1' o1'. clear E1.
  assert (Hm1 : forall key c, Dict.get m key = Some c -> has_col df1 c = true).
  { intros key c Hc.
    destruct (Dict.get m "position") as [pos_col|] eqn:Hpos.
    - destruct (filter_forwards_some _ _ _ _ _ Hpos H1) as (col & _ & -> & _).
      rewrite filter_rows_has_col. eauto.
    - unfold filter_forwards in H1. rewrite Hpos in H1.
      unfold bind, print, ret in H1. inversion H1; subst. eauto. }
  apply bind_raise in H as [H|(df2 & o2 & H2 & H)].
  { eapply filter_minimum_minutes_raise; [|exact H]. apply Hm1. }
  assert (Hm2 : forall key c, Dict.get m key = Some c -> has_col df2 c = true).
  { intros key c Hc.
    destruct (Dict.get m "minutes") as [min_col|] eqn:Hmin.
    - destruct (filter_minimum_minutes_some _ _ _ _ _ Hmin H2)
        as (col & xs & _ & _ & -> & _).
      rewrite filter_rows_has_col. eauto.
    - unfold filter_minimum_minutes in H2. rewrite Hmin in H2.
      unfold bind, print, ret in H2. inversion H2; subst. eauto. }
  apply bind_raise in H as [H|(df3 & o3 & H3 & H)].
  { eapply normalize_per_90_raise; [|exact H]. apply Hm2. }
  apply bind_raise in H as [H|(df4 & o4 & H4 & H)].
  { now apply normalize_features_raise in H. }
  discriminate.
Qed.

Lemma process_data_raises_value_error_witness :
  exists e, process_data text_minutes_table = Raise e /\ e = ValueError.
Proof.
  exists ValueError. split; [reflexivity|].
  exact (process_data_raises_value_error text_minutes_table ValueError eq_refl).
Defined.

(** X8: a table written by [process_data] has at most as many rows as
    the raw table and holds one cell per row; the raw columns stay where
    they are, followed only by columns among [90s_played] and the five
    per90 features; every raw column with another name is the raw column
    cut down by the two row filters; and the last line printed reports
    the number of rows written. *)
Theorem process_data_shape raw processed out :
  well_formed raw ->
  process_data raw = Ok (Some processed, out) ->
  (nrows processed <= nrows raw)%nat
  /\ well_formed processed
  /\ extends_by ("90s_played" :: feature_cols) raw processed
  /\ (exists mask1 mask2,
        forall c v, c <> "90s_played" -> ~ In c feature_cols ->
          Dict.get (cols raw) c = Some v ->
          Dict.get (cols processed) c
          = Some (select_col mask2 (select_col mask1 v)))
  /\ exists printed, out = (printed ++ [Saved (nrows processed)])%list.
Proof.
  intros Hwf H.
  destruct (process_data_run _ _ _ H)
    as (df1 & o1 & df2 & o2 & df3 & o3 & o4 & H1 & H2 & H3 & H4 & Hout).
  pose proof (filter_forwards_selection _ _ _ _ Hwf H1) as S1.
  pose proof (selection_of_well_formed _ _ Hwf S1) as Hwf1.
  pose proof (filter_minimum_minutes_selection _ _ _ _ Hwf1 H2) as S2.
  pose proof (selection_of_well_formed _ _ Hwf1 S2) as Hwf2.
  destruct (normalize_per_90_extends _ _ _ _ Hwf2 H3)
    as (_ & Hn3 & Hwf3 & He3 & Hget3).
  destruct (normalize_features_extends _ _ _ _ Hwf3 H4)
    as (Hn4 & Hc4 & Hwf4 & Hget4 & _).
  split.
  { rewrite Hn4, Hn3. eapply Nat.le_trans; eapply selection_of_nrows; eassumption. }
  split; [exact Hwf4|].
  split.
  { destruct He3 as (added & Hadd & Hincl). exists added. split; [|exact Hincl].
    rewrite Hc4, Hadd.
    now rewrite (selection_of_columns _ _ S2), (selection_of_columns _ _ S1). }
  split.
  { destruct S1 as (mask1 & _ & ->). destruct S2 as (mask2 & _ & ->).
    exists mask1, mask2. intros c v Hc Hnot Hv.
    rewrite Hget4 by exact Hnot. rewrite Hget3 by assumption.
    rewrite !filter_rows_get, Hv. reflexivity. }
  exists (IdentifiedColumns (identify_columns raw) :: o1 ++ o2 ++ o3 ++ o4)%list.
  rewrite Hout. simpl. now rewrite !app_assoc.
Qed.

Lemma missing_goals_table_well_formed : well_formed missing_goals_table.
Proof. repeat constructor. Qed.

Lemma process_data_shape_witness :
  well_formed missing_goals_table
  /\ process_data missing_goals_table
     = Ok (Some missing_goals_processed, missing_goals_output)
  /\ (nrows missing_goals_processed <= nrows missing_goals_table)%nat
  /\ well_formed missing_goals_processed
  /\ extends_by ("90s_played" :: feature_cols)
       missing_goals_table missing_goals_processed
  /\ (exists mask1 mask2,
        forall c v, c <> "90s_played" -> ~ In c feature_cols ->
          Dict.get (cols missing_goals_table) c = Some v ->
          Dict.get (cols missing_goals_processed) c
          = Some (select_col mask2 (select_col mask1 v)))
  /\ exists printed,
       missing_goals_output
       = (printed ++ [Saved (nrows missing_goals_processed)])%list.
Proof.
  split; [exact missing_goals_table_well_formed|].
  split; [exact process_data_missing_goals|].
  exact (process_data_shape missing_goals_table missing_goals_processed
           missing_goals_output missing_goals_table_well_formed
           process_data_missing_goals).
Defined.

(** A table whose single player is not a forward. *)
Definition midfielder_table : DataFrame :=
  mkDF 1 [ ("Player", ObjCol [Some "Thomas Partey"]);
           ("Squad",  ObjCol [Some "Arsenal"]);
           ("Pos",    ObjCol [Some "MF"]);
           ("Min",    FloatCol [2700]%float);
           ("Gls",    FloatCol [3]%float) ].

(** X9: when the minutes field and one counting statistic are resolved
    and no row survives the two filters, [process_data] raises
    [ValueError] (the scaler is given no sample): it does not write an
    empty table. *)
Theorem process_data_no_survivor raw converted out1 stat min_col col :
  well_formed raw ->
  empty raw = false ->
  Dict.get (identify_columns raw) "minutes" = Some min_col ->
  In stat counting_stats ->
  Dict.get (identify_columns raw) stat = Some col ->
  before_scaling raw = Ok (converted, out1) ->
  nrows converted = 0%nat ->
  process_data raw = Raise ValueError.
Proof.
  intros Hwf Hne Hmin Hstat Hcol Hconv Hzero.
  unfold before_scaling in Hconv.
  bind_inv Hconv df1 H1 Hconv. bind_inv Hconv df2 H2 H3.
  pose proof (filter_forwards_selection _ _ _ _ Hwf H1) as S1.
  pose proof (selection_of_well_formed _ _ Hwf S1) as Hwf1.
  pose proof (filter_minimum_minutes_selection _ _ _ _ Hwf1 H2) as S2.
  pose proof (selection_of_well_formed _ _ Hwf1 S2) as Hwf2.
  destruct (normalize_per_90_extends _ _ _ _ Hwf2 H3) as (_ & _ & Hwf3 & _).
  assert (Hhas : has_col df2 col = true).
  { rewrite (selection_of_has_col _ _ _ S2), (selection_of_has_col _ _ _ S1).
    eapply identify_columns_has_col; eassumption. }
  destruct (in_split _ _ Hstat) as (pre & post & Hsplit).
  destruct (identify_columns_stat_column raw pre stat post col Hsplit Hcol)
    as (Hne90 & Hnpre).
  destruct (normalize_per_90_columns df2 _ min_col converted _ pre stat post col
              Hmin H3 Hsplit Hcol Hhas Hne90 Hnpre)
    as (mcol & ms & colv & ss & _ & _ & _ & _ & _ & Hrate).
  assert (Hfc : In (per90_name stat) feature_cols).
  { change feature_cols with (map per90_name counting_stats). now apply in_map. }
  pose proof (well_formed_get _ _ _ Hwf3 Hrate) as Hlen. rewrite Hzero in Hlen.
  unfold process_data. rewrite Hne.
  unfold bind, print, ret. rewrite H1, H2, H3.
  destruct (normalize_features converted feature_cols) as [[df4 o4]|e] eqn:H4.
  - pose proof (normalize_features_ok_scalable _ _ _ _ _ _ H4 Hfc Hrate) as Hs.
    simpl in Hs, Hlen. rewrite Hlen in Hs. discriminate.
  - apply normalize_features_raise in H4 as [-> _]. reflexivity.
Qed.

Definition midfielder_converted : DataFrame :=
  mkDF 0 [ ("Player", ObjCol []); ("Squad", ObjCol []); ("Pos", ObjCol []);
           ("Min", FloatCol []); ("Gls", FloatCol []);
           ("90s_played", FloatCol []); ("goals_per90", FloatCol []) ].

Lemma midfielder_table_well_formed : well_formed midfielder_table.
Proof. repeat constructor. Qed.

Lemma process_data_no_survivor_witness :
  well_formed midfielder_table
  /\ before_scaling midfielder_table
     = Ok (midfielder_converted, [FilteredForwards 0; FilteredMinutes 0])
  /\ process_data midfielder_table = Raise ValueError.
Proof.
  split; [exact midfielder_table_well_formed|]. split; [reflexivity|].
  refine (process_data_no_survivor midfielder_table midfielder_converted
            [FilteredForwards 0; FilteredMinutes 0] "goals" "Min" "Gls"
            midfielder_table_well_formed eq_refl eq_refl _ eq_refl eq_refl eq_refl).
  left. reflexivity.
Defined.

End PipelineProperties.

(** ** Duplicate rows *)

Section DuplicateRows.
Import Text Frame Config Processor.
Local Open Scope string_scope.

(** The two columns [deduplicate_players] compares rows on: a column
    spelled [player] (resp. [squad]) in any case if the table has one,
    else the mapped column, else [Player] (resp. [Squad]). *)
Definition key_columns (df : DataFrame) (col_mapping : Dict.dict string)
  : string * string :=
  (match find (fun c => String.eqb (lower c) "player") (columns df) with
   | Some c => c
   | None => dict_get_default col_mapping "player" "Player"
   end,
   match find (fun c => String.eqb (lower c) "squad") (columns df) with
   | Some c => c
   | None => dict_get_default col_mapping "team" "Squad"
   end).

(** The key of each row. *)
Definition row_keys (df : DataFrame) (a b : string) : option (list (cell * cell)) :=
  match Dict.get (cols df) a, Dict.get (cols df) b with
  | Some ca, Some cb => Some (combine (cells ca) (cells cb))
  | _, _ => None
  end.

Lemma deduplicate_players_unfold df m :
  deduplicate_players df m
  = (df' <- drop_duplicates df (fst (key_columns df m)) (snd (key_columns df m)) ;;
     print (Deduplicated (nrows df) (nrows df')) ;;; ret df')%py.
Proof. reflexivity. Qed.

Lemma drop_duplicates_ok df a b df' out :
  drop_duplicates df a b = Ok (df', out) ->
  exists keys,
    row_keys df a b = Some keys
    /\ df' = filter_rows (first_occurrences [] keys) df
    /\ out = [].
Proof.
  unfold drop_duplicates, row_keys, getitem.
  destruct (Dict.get (cols df) a) as [ca|]; [|discriminate].
  destruct (Dict.get (cols df) b) as [cb|]; [|discriminate].
  unfold bind, ret. intros H; inversion H; subst. eauto.
Qed.

Lemma drop_duplicates_some df a b keys :
  row_keys df a b = Some keys ->
  drop_duplicates df a b = Ok (filter_rows (first_occurrences [] keys) df, []).
Proof.
  unfold drop_duplicates, row_keys, getitem.
  destruct (Dict.get (cols df) a) as [ca|]; [|discriminate].
  destruct (Dict.get (cols df) b) as [cb|]; [|discriminate].
  intros H; inversion H; subst. reflexivity.
Qed.

Lemma select_combine {A B} mask : forall (xs : list A) (ys : list B),
  combine (select mask xs) (select mask ys) = select mask (combine xs ys).
Proof.
  induction mask as [|b mask IH]; intros [|x xs] [|y ys]; simpl; try reflexivity;
    destruct b; simpl; try reflexivity; try (now rewrite IH);
    now destruct (select mask xs).
Qed.

Lemma select_in {A} mask : forall (xs : list A) x,
  In x (select mask xs) -> In x xs.
Proof.
  induction mask as [|b mask IH]; intros [|x0 xs] x; simpl; try tauto.
  - now destruct b.
  - destruct b; simpl; intros Hin.
    + destruct Hin as [->|Hin]; auto.
    + auto.
Qed.

Lemma cells_select mask c : cells (select_col mask c) = select mask (cells c).
Proof. destruct c; simpl; symmetry; apply select_map_comm. Qed.

Lemma row_keys_filter_rows mask df a b keys :
  row_keys df a b = Some keys ->
  row_keys (filter_rows mask df) a b = Some (select mask keys).
Proof.
  unfold row_keys. rewrite !filter_rows_get.
  destruct (Dict.get (cols df) a) as [ca|]; [|discriminate].
  destruct (Dict.get (cols df) b) as [cb|]; [|discriminate].
  intros H; inversion H; subst. simpl.
  now rewrite !cells_select, select_combine.
Qed.

Lemma cells_length c : List.length (cells c) = col_len c.
Proof. destruct c; simpl; apply length_map. Qed.

Lemma row_keys_length df a b keys :
  well_formed df -> row_keys df a b = Some keys -> List.length keys = nrows df.
Proof.
  unfold row_keys. intros Hwf.
  destruct (Dict.get (cols df) a) as [ca|] eqn:Ha; [|discriminate].
  destruct (Dict.get (cols df) b) as [cb|] eqn:Hb; [|discriminate].
  intros H; inversion H; subst. rewrite length_combine, !cells_length.
  rewrite (well_formed_get _ _ _ Hwf Ha), (well_formed_get _ _ _ Hwf Hb).
  apply Nat.min_id.
Qed.

Lemma cell_eqb_refl c : cell_eqb c c = true.
Proof.
  destruct c as [x|[s|]]; simpl; auto using String.eqb_refl.
  unfold is_nan. now destruct (x =? x)%float.
Qed.

Lemma key_eqb_refl k : key_eqb k k = true.
Proof. unfold key_eqb. now rewrite !cell_eqb_refl. Qed.

(** No key is lost: every key met so far is the key of a row kept. *)
Lemma first_occurrences_covers keys : forall seen k,
  In k keys ->
  existsb (key_eqb k) (select (first_occurrences seen keys) keys ++ seen) = true.
Proof.
  induction keys as [|k0 rest IH]; intros seen k Hin; [destruct Hin|].
  simpl. destruct (existsb (key_eqb k0) seen) eqn:E; simpl.
  - destruct Hin as [->|Hin]; [|now apply IH].
    rewrite existsb_app, E. apply orb_true_r.
  - destruct Hin as [->|Hin].
    + now rewrite key_eqb_refl.
    + specialize (IH (k0 :: seen) k Hin).
      rewrite existsb_app in *. simpl in IH.
      destruct (key_eqb k k0); [reflexivity|]. exact IH.
Qed.

Lemma distinct_first_occurrences keys : forall seen,
  distinct_keys seen keys ->
  Forall (fun b => b = true) (first_occurrences seen keys).
Proof.
  induction keys as [|k rest IH]; intros seen H; simpl; [constructor|].
  destruct H as [Hk H]. rewrite Hk. constructor; auto.
Qed.

Lemma key_columns_filter_rows mask df m :
  key_columns (filter_rows mask df) m = key_columns df m.
Proof. unfold key_columns. now rewrite filter_rows_columns. Qed.

Lemma deduplicate_players_ok df m df' out :
  deduplicate_players df m = Ok (df', out) ->
  exists keys,
    row_keys df (fst (key_columns df m)) (snd (key_columns df m)) = Some keys
    /\ df' = filter_rows (first_occurrences [] keys) df
    /\ out = [Deduplicated (nrows df) (nrows df')].
Proof.
  rewrite deduplicate_players_unfold. intros H.
  bind_inv H df1 H1 H. apply drop_duplicates_ok in H1 as (keys & Hk & -> & ->).
  unfold bind, print, ret in H. inversion H; subst. eauto.
Qed.

(** X10: when [deduplicate_players] returns, the rows it keeps are a
    selection of the rows of its input, their (player, team) keys are
    pairwise different, every key of the input is still the key of a row
    kept, and the line printed reports the two row counts.  The key
    columns are a column spelled [player] (resp. [squad]) in any case if
    the table has one, else the mapped column, else [Player] (resp.
    [Squad]). *)
Theorem deduplicate_players_distinct df m df' out :
  well_formed df ->
  deduplicate_players df m = Ok (df', out) ->
  exists keys keys',
    row_keys df (fst (key_columns df m)) (snd (key_columns df m)) = Some keys
    /\ row_keys df' (fst (key_columns df m)) (snd (key_columns df m)) = Some keys'
    /\ distinct_keys [] keys'
    /\ (forall k, In k keys -> existsb (key_eqb k) keys' = true)
    /\ (forall k, In k keys' -> In k keys)
    /\ selection_of df df'
    /\ out = [Deduplicated (nrows df) (nrows df')].
Proof.
  intros Hwf H. apply deduplicate_players_ok in H as (keys & Hk & -> & ->).
  exists keys, (select (first_occurrences [] keys) keys).
  split; [exact Hk|]. split; [now apply row_keys_filter_rows|].
  split; [apply first_occurrences_distinct|].
  split.
  { intros k Hin. pose proof (first_occurrences_covers keys [] k Hin) as Hc.
    now rewrite app_nil_r in Hc. }
  split.
  { intros k. apply select_in. }
  split; [|reflexivity].
  exists (first_occurrences [] keys). split; [|reflexivity].
  rewrite first_occurrences_length. now apply (row_keys_length df _ _ keys Hwf Hk).
Qed.

Lemma two_seasons_table_well_formed : well_formed two_seasons_table.
Proof. repeat constructor. Qed.

Lemma deduplicate_players_distinct_witness :
  well_formed two_seasons_table
  /\ deduplicate_players two_seasons_table (identify_columns two_seasons_table)
     = Ok (two_seasons_deduplicated, [Deduplicated 2 1])
  /\ key_columns two_seasons_table (identify_columns two_seasons_table)
     = ("Player", "Squad")
  /\ exists keys keys',
       row_keys two_seasons_table "Player" "Squad" = Some keys
       /\ row_keys two_seasons_deduplicated "Player" "Squad" = Some keys'
       /\ distinct_keys [] keys'
       /\ (forall k, In k keys -> existsb (key_eqb k) keys' = true)
       /\ (forall k, In k keys' -> In k keys)
       /\ selection_of two_seasons_table two_seasons_deduplicated
       /\ [Deduplicated 2 1]
          = [Deduplicated (nrows two_seasons_table)
               (nrows two_seasons_deduplicated)].
Proof.
  split; [exact two_seasons_table_well_formed|].
  split; [exact deduplicate_players_two_seasons|].
  split; [reflexivity|].
  exact (deduplicate_players_distinct two_seasons_table
           (identify_columns two_seasons_table) two_seasons_deduplicated
           [Deduplicated 2 1] two_seasons_table_well_formed
           deduplicate_players_two_seasons).
Defined.

(** X11: [deduplicate_players] is idempotent: applied with the same
    mapping to the table it returned, it returns that table again and
    reports that no row was removed. *)
Theorem deduplicate_players_idempotent df m df' out :
  well_formed df ->
  deduplicate_players df m = Ok (df', out) ->
  deduplicate_players df' m
  = Ok (df', [Deduplicated (nrows df') (nrows df')]).
Proof.
  intros Hwf H. apply deduplicate_players_ok in H as (keys & Hk & Hdf & _).
  set (mask := first_occurrences [] keys) in *.
  assert (Hwf' : well_formed df').
  { subst df'. apply filter_rows_well_formed; [exact Hwf|]. unfold mask.
    rewrite first_occurrences_length. now apply (row_keys_length df _ _ keys Hwf Hk). }
  assert (Hk' : row_keys df' (fst (key_columns df' m)) (snd (key_columns df' m))
                = Some (select mask keys)).
  { subst df'. rewrite key_columns_filter_rows. now apply row_keys_filter_rows. }
  pose proof (row_keys_length df' _ _ _ Hwf' Hk') as Hlen.
  rewrite deduplicate_players_unfold.
  rewrite (drop_duplicates_some _ _ _ _ Hk'), bind_ret_l.
  rewrite filter_rows_all.
  - reflexivity.
  - exact Hwf'.
  - now rewrite first_occurrences_length.
  - apply distinct_first_occurrences. apply first_occurrences_distinct.
Qed.

Lemma deduplicate_players_idempotent_witness :
  well_formed two_seasons_table
  /\ deduplicate_players two_seasons_table (identify_columns two_seasons_table)
     = Ok (two_seasons_deduplicated, [Deduplicated 2 1])
  /\ deduplicate_players two_seasons_deduplicated
       (identify_columns two_seasons_table)
     = Ok (two_seasons_deduplicated, [Deduplicated 1 1]).
Proof.
  split; [exact two_seasons_table_well_formed|].
  split; [exact deduplicate_players_two_seasons|].
  exact (deduplicate_players_idempotent two_seasons_table
           (identify_columns two_seasons_table) two_seasons_deduplicated
           [Deduplicated 2 1] two_seasons_table_well_formed
           deduplicate_players_two_seasons).
Defined.

Lemma unmatched_key_column names key default (l : list string) :
  (forall c, lower c = key -> hits names c = true) ->
  hits names default = true ->
  Forall (fun c => hits names c = false) l ->
  find (fun c => String.eqb (lower c) key) l = None
  /\ existsb (String.eqb default) l = false.
Proof.
  intros Hkey Hdef H. induction H as [|c l Hc _ IH]; simpl; [auto|].
  destruct IH as [IH1 IH2].
  destruct (String.eqb (lower c) key) eqn:E.
  - apply String.eqb_eq in E. rewrite (Hkey c E) in Hc. discriminate.
  - split; [exact IH1|]. rewrite IH2, orb_false_r.
    destruct (String.eqb default c) eqn:E'; [|reflexivity].
    apply String.eqb_eq in E'. subst c. congruence.
Qed.

Lemma find_player_column df :
  Forall (fun c => hits ["player"; "Player"; "name"; "Name"] c = false) (columns df) ->
  find (fun c => String.eqb (lower c) "player") (columns df) = None
  /\ has_col df "Player" = false.
Proof.
  apply unmatched_key_column; [|reflexivity].
  intros c Hc. unfold hits. simpl. now rewrite Hc.
Qed.

Lemma find_squad_column df :
  Forall (fun c => hits ["team"; "Team"; "squad"; "Squad"] c = false) (columns df) ->
  find (fun c => String.eqb (lower c) "squad") (columns df) = None
  /\ has_col df "Squad" = false.
Proof.
  apply unmatched_key_column; [|reflexivity].
  intros c Hc. unfold hits. simpl. rewrite Hc. reflexivity.
Qed.

Lemma find_has_col (f : string -> bool) df c :
  find f (columns df) = Some c -> has_col df c = true.
Proof.
  intros H. apply find_some in H as [Hin _]. unfold has_col.
  apply existsb_exists. exists c. split; [exact Hin | apply String.eqb_refl].
Qed.

Lemma key_columns_resolved df :
  let m := identify_columns df in
  (match Dict.get m "player" with
   | Some _ => has_col df (fst (key_columns df m)) = true
   | None => fst (key_columns df m) = "Player" /\ has_col df "Player" = false
   end)
  /\ (match Dict.get m "team" with
      | Some _ => has_col df (snd (key_columns df m)) = true
      | None => snd (key_columns df m) = "Squad" /\ has_col df "Squad" = false
      end).
Proof.
  intros m. unfold key_columns, dict_get_default. simpl fst. simpl snd. split.
  - destruct (Dict.get m "player") as [pc|] eqn:Hp.
    + destruct (find _ (columns df)) as [c|] eqn:Hf.
      * eapply find_has_col; exact Hf.
      * eapply identify_columns_has_col; exact Hp.
    + unfold m in Hp.
      rewrite (identify_columns_get df "player" ["player"; "Player"; "name"; "Name"])
        in Hp by (simpl; tauto).
      apply scan_columns_none in Hp. apply find_player_column in Hp as [-> Hn].
      auto.
  - destruct (Dict.get m "team") as [tc|] eqn:Ht.
    + destruct (find _ (columns df)) as [c|] eqn:Hf.
      * eapply find_has_col; exact Hf.
      * eapply identify_columns_has_col; exact Ht.
    + unfold m in Ht.
      rewrite (identify_columns_get df "team" ["team"; "Team"; "squad"; "Squad"])
        in Ht by (simpl; tauto).
      apply scan_columns_none in Ht. apply find_squad_column in Ht as [-> Hn].
      auto.
Qed.

Lemma has_col_false_get df c : has_col df c = false -> Dict.get (cols df) c = None.
Proof.
  intros H. destruct (Dict.get (cols df) c) as [col|] eqn:E; [|reflexivity].
  assert (has_col df c = true) by (apply has_col_get; eauto). congruence.
Qed.

(** X12: with the mapping [identify_columns] resolves on the same
    table, [deduplicate_players] returns exactly when both the [player]
    and the [team] field were resolved; otherwise it raises [KeyError],
    its fallback names [Player] and [Squad] not being columns of the
    table. *)
Theorem deduplicate_players_resolved df :
  let m := identify_columns df in
  match deduplicate_players df m with
  | Ok _ => Dict.mem m "player" = true /\ Dict.mem m "team" = true
  | Raise e =>
      (exists k, e = KeyError k)
      /\ (Dict.mem m "player" = false \/ Dict.mem m "team" = false)
  end.
Proof.
  intros m. destruct (key_columns_resolved df) as [Hp Ht]. fold m in Hp, Ht.
  rewrite deduplicate_players_unfold. unfold drop_duplicates, getitem, Dict.mem.
  destruct (Dict.get m "player") as [pc|].
  - apply has_col_get in Hp as (ca & Hca). rewrite Hca.
    unfold ret at 1. rewrite bind_ret_l.
    destruct (Dict.get m "team") as [tc|].
    + apply has_col_get in Ht as (cb & Hcb). rewrite Hcb. simpl. auto.
    + destruct Ht as [Hb Hn]. rewrite Hb. rewrite (has_col_false_get _ _ Hn).
      simpl. split; [eauto | now right].
  - destruct Hp as [Ha Hn]. rewrite Ha. rewrite (has_col_false_get _ _ Hn).
    simpl. split; [eauto | now left].
Qed.

End DuplicateRows.

(** ** The feature selection *)

Section FeatureSelection.
Import Text Frame Processor Features.
Local Open Scope string_scope.

(** The names [select_clustering_features] settles on. *)
Definition available (df : DataFrame) : list string :=
  match filter (has_col df) feature_candidates with
  | [] => filter fallback_feature (columns df)
  | _ :: _ => filter (has_col df) feature_candidates
  end.

Definition no_missing (vs : list value) : Prop :=
  Forall (fun v => match v with Num x => is_nan x = false | Str _ => True end) vs.

Lemma fillna0_not_nan x : is_nan (fillna0 x) = false.
Proof. unfold fillna0. destruct (is_nan x) eqn:E; [reflexivity | exact E]. Qed.

Lemma fillna_no_missing c : no_missing (fillna c).
Proof.
  unfold no_missing. destruct c as [xs|os]; simpl; apply Forall_map, Forall_forall.
  - intros x _. apply fillna0_not_nan.
  - intros [s|] _; [exact I | reflexivity].
Qed.

Lemma has_col_in df c : has_col df c = true <-> In c (columns df).
Proof.
  unfold has_col. rewrite existsb_exists. split.
  - intros (c' & Hin & E). apply String.eqb_eq in E. now subst.
  - intros Hin. exists c. split; [exact Hin | apply String.eqb_refl].
Qed.

Lemma available_columns df : Forall (fun c => has_col df c = true) (available df).
Proof.
  unfold available.
  destruct (filter (has_col df) feature_candidates) as [|c l] eqn:E.
  - apply Forall_forall. intros c Hc. apply filter_In in Hc as [Hc _].
    now apply has_col_in.
  - rewrite <- E. apply Forall_forall. intros c' Hc'. apply filter_In in Hc' as [_ Hc']. exact Hc'.
Qed.

Lemma gather_columns df names :
  Forall (fun c => has_col df c = true) names ->
  exists X,
    mapM (fun c => col <- getitem df c ;; ret (c, fillna col))%py names = Ok (X, [])
    /\ map fst X = names
    /\ Forall (fun cv => exists col, Dict.get (cols df) (fst cv) = Some col
                 /\ snd cv = fillna col) X.
Proof.
  induction 1 as [|c names Hc _ (X & HX & Hn & Hv)]; simpl.
  - exists []. repeat split; constructor.
  - apply has_col_get in Hc as (col & Hcol).
    exists ((c, fillna col) :: X).
    rewrite (getitem_some _ _ _ Hcol), bind_ret_l. unfold ret at 1.
    rewrite bind_ret_l, HX, bind_ret_l. simpl. rewrite Hn.
    repeat split. constructor; [|exact Hv]. exists col. auto.
Qed.

Lemma select_clustering_features_unfold df :
  select_clustering_features df
  = (X <- mapM (fun c => col <- getitem df c ;; ret (c, fillna col)) (available df) ;;
     ret (X, available df))%py.
Proof.
  unfold select_clustering_features, available.
  destruct (filter (has_col df) feature_candidates); reflexivity.
Qed.

Lemma select_clustering_features_returns df :
  exists X,
    select_clustering_features df = Ok ((X, available df), [])
    /\ map fst X = available df
    /\ Forall (fun cv => exists col, Dict.get (cols df) (fst cv) = Some col
                 /\ snd cv = fillna col) X.
Proof.
  destruct (gather_columns df (available df) (available_columns df))
    as (X & HX & Hn & Hv).
  exists X. split; [|now split].
  rewrite select_clustering_features_unfold, HX, bind_ret_l. reflexivity.
Qed.

Lemma available_candidates df c :
  In c feature_candidates -> In c (columns df) ->
  available df = filter (has_col df) feature_candidates.
Proof.
  intros Hc Hin. unfold available.
  destruct (filter (has_col df) feature_candidates) as [|c0 l] eqn:E; [|reflexivity].
  assert (Hf : In c (filter (has_col df) feature_candidates)).
  { apply filter_In. split; [exact Hc|]. now apply has_col_in. }
  rewrite E in Hf. destruct Hf.
Qed.

(** X13: [select_clustering_features] never raises.  The names it
    returns are columns of the table and are the names of the matrix
    columns, in the same order; each matrix column is the table column
    with its missing cells replaced by 0, so the matrix holds no missing
    value.  When the table has at least one of the thirteen candidate
    columns, the names are the candidates the table has, in candidate
    order; when it has none, they are the columns, in table order, whose
    name contains [per90] in any case or ends with [_norm]. *)
Theorem select_clustering_features_selection df :
  exists X names,
    select_clustering_features df = Ok ((X, names), [])
    /\ map fst X = names
    /\ Forall (fun c => In c (columns df)) names
    /\ Forall (fun cv => exists col, Dict.get (cols df) (fst cv) = Some col
                 /\ snd cv = fillna col /\ no_missing (snd cv)) X
    /\ ((exists c, In c feature_candidates /\ In c (columns df)) ->
          names = filter (has_col df) feature_candidates)
    /\ ((forall c, In c feature_candidates -> ~ In c (columns df)) ->
          names = filter fallback_feature (columns df)).
Proof.
  destruct (select_clustering_features_returns df) as (X & HX & Hn & Hv).
  exists X, (available df). split; [exact HX|].
  split; [exact Hn|]. split.
  { eapply Forall_impl; [|apply available_columns].
    intros c. apply has_col_in. }
  split.
  { eapply Forall_impl; [|exact Hv]. intros [c vs] (col & Hc & Hvs).
    exists col. repeat split; auto. simpl in *. subst vs. apply fillna_no_missing. }
  split.
  - intros (c & Hc & Hin). now apply (available_candidates df c).
  - intros Hnone. unfold available.
    destruct (filter (has_col df) feature_candidates) as [|c0 l] eqn:E; [reflexivity|].
    assert (Hf : In c0 (filter (has_col df) feature_candidates))
      by (rewrite E; now left).
    apply filter_In in Hf as [Hc Hhas]. apply has_col_in in Hhas.
    destruct (Hnone c0 Hc Hhas).
Qed.

(** X14: on a table written by [process_data] from a raw table in which
    the minutes field and one of [goals], [npxg], [xag] are resolved,
    [select_clustering_features] uses the candidate columns only: the
    rate of that statistic is among the features, while [assists_per90]
    and [xg_per90], which the pipeline also computes and scales, are
    not. *)
Theorem clustering_ignores_assists_and_xg raw processed out stat min_col col :
  well_formed raw ->
  process_data raw = Ok (Some processed, out) ->
  Dict.get (identify_columns raw) "minutes" = Some min_col ->
  In stat ["goals"; "npxg"; "xag"] ->
  Dict.get (identify_columns raw) stat = Some col ->
  exists X names,
    select_clustering_features processed = Ok ((X, names), [])
    /\ In (per90_name stat) names
    /\ incl names feature_candidates
    /\ ~ In "assists_per90" names
    /\ ~ In "xg_per90" names.
Proof.
  intros Hwf H Hmin Hstat Hcol.
  destruct (process_data_run _ _ _ H)
    as (df1 & o1 & df2 & o2 & df3 & o3 & o4 & H1 & H2 & H3 & H4 & _).
  pose proof (filter_forwards_selection _ _ _ _ Hwf H1) as S1.
  pose proof (selection_of_well_formed _ _ Hwf S1) as Hwf1.
  pose proof (filter_minimum_minutes_selection _ _ _ _ Hwf1 H2) as S2.
  pose proof (selection_of_well_formed _ _ Hwf1 S2) as Hwf2.
  destruct (normalize_per_90_extends _ _ _ _ Hwf2 H3) as (_ & _ & Hwf3 & _).
  destruct (normalize_features_extends _ _ _ _ Hwf3 H4) as (_ & Hc4 & _).
  assert (Hcs : In stat counting_stats).
  { simpl in *. intuition. }
  assert (Hhas : has_col df2 col = true).
  { rewrite (selection_of_has_col _ _ _ S2), (selection_of_has_col _ _ _ S1).
    eapply identify_columns_has_col; eassumption. }
  destruct (in_split _ _ Hcs) as (pre & post & Hsplit).
  destruct (identify_columns_stat_column raw pre stat post col Hsplit Hcol)
    as (Hne90 & Hnpre).
  destruct (normalize_per_90_columns df2 _ min_col df3 _ pre stat post col
              Hmin H3 Hsplit Hcol Hhas Hne90 Hnpre)
    as (mcol & ms & colv & ss & _ & _ & _ & _ & _ & Hrate).
  assert (Hin : In (per90_name stat) (columns processed)).
  { rewrite Hc4. apply has_col_in. apply has_col_get. eauto. }
  assert (Hcand : In (per90_name stat) feature_candidates).
  { simpl in Hstat. destruct Hstat as [<-|[<-|[<-|[]]]]; simpl; tauto. }
  destruct (select_clustering_features_returns processed) as (X & HX & _).
  rewrite (available_candidates processed _ Hcand Hin) in *.
  exists X, (filter (has_col processed) feature_candidates).
  split; [exact HX|]. split.
  { apply filter_In. split; [exact Hcand|]. now apply has_col_in. }
  assert (Hincl : incl (filter (has_col processed) feature_candidates)
                       feature_candidates).
  { intros c Hc. apply filter_In in Hc as [Hc _]. exact Hc. }
  split; [exact Hincl|].
  split; intros Hbad; apply Hincl in Hbad; simpl in Hbad;
    repeat (destruct Hbad as [Hbad|Hbad]; [discriminate|]); exact Hbad.
Qed.

Lemma clustering_ignores_assists_and_xg_witness :
  well_formed missing_goals_table
  /\ process_data missing_goals_table
     = Ok (Some missing_goals_processed, missing_goals_output)
  /\ Dict.get (identify_columns missing_goals_table) "minutes" = Some "Min"
  /\ Dict.get (identify_columns missing_goals_table) "goals" = Some "Gls"
  /\ exists X names,
       select_clustering_features missing_goals_processed = Ok ((X, names), [])
       /\ In (per90_name "goals") names
       /\ incl names feature_candidates
       /\ ~ In "assists_per90" names
       /\ ~ In "xg_per90" names.
Proof.
  split; [exact missing_goals_table_well_formed|].
  split; [exact process_data_missing_goals|].
  split; [reflexivity|]. split; [reflexivity|].
  exact (clustering_ignores_assists_and_xg missing_goals_table
           missing_goals_processed missing_goals_output "goals" "Min" "Gls"
           missing_goals_table_well_formed process_data_missing_goals
           eq_refl (or_introl eq_refl) eq_refl).
Defined.

End FeatureSelection.

(** ** The outcome of the cluster-count search *)

Section ClusterCountOutcome.
Import Config Clustering.
Local Open Scope float_scope.

Lemma argmax_loop_bound xs : forall i mp max_ind,
  (max_ind < i)%nat ->
  (argmax_loop xs i mp max_ind < i + List.length xs)%nat.
Proof.
  induction xs as [|x rest IH]; intros i mp max_ind Hlt; simpl; [lia|].
  destruct (negb (x <=? mp)).
  - destruct (is_nan x); [lia|].
    specialize (IH (S i) x i ltac:(lia)). lia.
  - specialize (IH (S i) mp max_ind ltac:(lia)). lia.
Qed.

Lemma argmax_bound xs :
  xs <> [] -> exists r, argmax xs = Ok r /\ (r < List.length xs)%nat.
Proof.
  destruct xs as [|x rest]; [congruence|]. intros _. simpl.
  destruct (is_nan x).
  - exists 0%nat. split; [reflexivity | lia].
  - eexists. split; [reflexivity|].
    pose proof (argmax_loop_bound rest 1 x 0 ltac:(lia)). lia.
Qed.

Section Search.
Variable matrix : Type.
Variable silhouette_of_fit : matrix -> Z -> result float.

Lemma silhouette_scores_outcome X ks :
  match silhouette_scores silhouette_of_fit X ks with
  | Ok scores => Forall2 (fun k s => silhouette_of_fit X k = Ok s) ks scores
  | Raise e =>
      exists pre k post,
        ks = (pre ++ k :: post)%list
        /\ silhouette_of_fit X k = Raise e
        /\ Forall (fun k' => exists s, silhouette_of_fit X k' = Ok s) pre
  end.
Proof.
  induction ks as [|k rest IH]; simpl; [constructor|].
  destruct (silhouette_of_fit X k) as [s|e] eqn:E.
  - destruct (silhouette_scores silhouette_of_fit X rest) as [scores|e].
    + constructor; assumption.
    + destruct IH as (pre & k' & post & -> & Hk' & Hpre).
      exists (k :: pre), k', post. repeat split; auto.
      constructor; eauto.
  - exists [], k, rest. repeat split; auto.
Qed.

Lemma best_of_outcome X ks :
  ks <> [] ->
  match best_of silhouette_of_fit X ks with
  | Ok k =>
      In k ks /\ Forall (fun k' => exists s, silhouette_of_fit X k' = Ok s) ks
  | Raise e =>
      exists pre k post,
        ks = (pre ++ k :: post)%list
        /\ silhouette_of_fit X k = Raise e
        /\ Forall (fun k' => exists s, silhouette_of_fit X k' = Ok s) pre
  end.
Proof.
  intros Hne. unfold best_of.
  pose proof (silhouette_scores_outcome X ks) as H.
  destruct (silhouette_scores silhouette_of_fit X ks) as [scores|e]; [|exact H].
  pose proof (Forall2_length H) as Hlen.
  assert (Hs : scores <> []).
  { destruct scores; [|congruence]. destruct ks; [congruence | discriminate]. }
  destruct (argmax_bound scores Hs) as (r & -> & Hr).
  split.
  - apply nth_In. lia.
  - clear - H. induction H; constructor; eauto.
Qed.

End Search.

Local Open Scope Z_scope.

(** X15: whatever scores the fits produce, when
    [find_optimal_clusters] returns, the number it returns is one of the
    candidates 4, ..., 9 and every candidate was fitted and scored; when
    it raises, it raises the exception of the first candidate whose fit
    or score raised, every smaller candidate having been scored. *)
Theorem find_optimal_clusters_outcome
  (matrix : Type) (silhouette_of_fit : matrix -> Z -> result float) (X : matrix) :
  match find_optimal_clusters silhouette_of_fit X with
  | Ok k =>
      4 <= k <= 9
      /\ forall k', 4 <= k' <= 9 -> exists s, silhouette_of_fit X k' = Ok s
  | Raise e =>
      exists k,
        4 <= k <= 9
        /\ silhouette_of_fit X k = Raise e
        /\ forall k', 4 <= k' < k -> exists s, silhouette_of_fit X k' = Ok s
  end.
Proof.
  unfold find_optimal_clusters.
  pose proof (best_of_outcome matrix silhouette_of_fit X N_CLUSTERS_RANGE
                ltac:(discriminate)) as H.
  destruct (best_of silhouette_of_fit X N_CLUSTERS_RANGE) as [k|e].
  - destruct H as [Hin Hall]. split; [now apply cluster_range_spec|].
    intros k' Hk'. rewrite Forall_forall in Hall. apply Hall.
    now apply cluster_range_spec.
  - destruct H as (pre & k & post & Hks & Hk & Hpre).
    assert (Hrange : 4 <= k <= 9).
    { apply cluster_range_spec. rewrite Hks. apply in_elt. }
    exists k. split; [exact Hrange|].
    split; [exact Hk|].
    intros k' Hk'. rewrite Forall_forall in Hpre. apply Hpre.
    assert (Hin : In k' N_CLUSTERS_RANGE) by (apply cluster_range_spec; lia).
    assert (Hsorted : forall a b pre' post',
              N_CLUSTERS_RANGE = (pre' ++ b :: post')%list -> In a post' -> b < a).
    { clear. intros a b pre' post' H Hin. unfold N_CLUSTERS_RANGE in H.
      repeat (destruct pre' as [|? pre'];
              [ simpl in H; inversion H; subst; simpl in Hin;
                intuition lia
              | simpl in H; injection H as <- H ]).
      destruct pre'; discriminate. }
    rewrite Hks in Hin. apply in_app_or in Hin as [Hin|[->|Hin]]; [exact Hin|lia|].
    specialize (Hsorted k' k pre post Hks Hin). lia.
Qed.

End ClusterCountOutcome.

(** ** The fallback of the naming heuristic *)

Section NamingFallback.
Import Text Clustering.
Local Open Scope string_scope.

Definition archetypes : list string :=
  ["Goal Poacher"; "Creative Playmaker"; "Ball Carrier"; "Target Man";
   "Hybrid Forward"].

(** X16: the name [suggest_cluster_name] returns is one of the five
    archetype names and depends on the first three traits only; it is
    [Hybrid Forward] whenever none of the first three z-scores is above
    0.5 (a strongly negative z-score does not count), so that any other
    name implies a z-score above 0.5 among the first three. *)
Theorem suggest_cluster_name_range (traits : list (string * trait_stats)) :
  In (suggest_cluster_name traits) archetypes
  /\ suggest_cluster_name traits = suggest_cluster_name (firstn 3 traits)
  /\ (Forall (fun t => (0.5 <? z_score (snd t))%float = false) (firstn 3 traits) ->
      suggest_cluster_name traits = "Hybrid Forward")
  /\ (suggest_cluster_name traits <> "Hybrid Forward" ->
      exists t, In t (firstn 3 traits) /\ (0.5 <? z_score (snd t))%float = true).
Proof.
  assert (Hhigh : any_high (map (fun t => z_score (snd t)) (firstn 3 traits)) = false
                  -> suggest_cluster_name traits = "Hybrid Forward").
  { intros H. unfold suggest_cluster_name. rewrite H. now rewrite !andb_false_r. }
  split; [|split; [|split]].
  - unfold suggest_cluster_name, archetypes.
    repeat match goal with
    | |- context [if ?b then _ else _] => destruct b
    end; simpl; tauto.
  - unfold suggest_cluster_name. rewrite firstn_firstn. reflexivity.
  - intros H. apply Hhigh. clear Hhigh. unfold any_high. rewrite existsb_map.
    induction H as [|t l Ht _ IH]; simpl; [reflexivity|]. rewrite Ht. exact IH.
  - intros Hne.
    destruct (any_high (map (fun t => z_score (snd t)) (firstn 3 traits))) eqn:E.
    + unfold any_high in E. rewrite existsb_map in E.
      apply existsb_exists in E as (t & Hin & Ht). eauto.
    + destruct (Hne (Hhigh eq_refl)).
Qed.

End NamingFallback.

(** ** The rows of a roster lookup *)

Section RosterRows.
Import Text GhanaAnalysis.
Local Open Scope string_scope.

Lemma match_here_refl pat : match_here pat pat = true.
Proof.
  induction pat as [|a pat IH]; simpl; [reflexivity|]. rewrite IH, andb_true_r.
  destruct (Ascii.eqb a ".") eqn:E.
  - apply Ascii.eqb_eq in E. subst a. reflexivity.
  - apply Ascii.eqb_refl.
Qed.

Lemma re_search_refl pat : re_search pat pat = true.
Proof.
  destruct pat as [|a pat]; [reflexivity|].
  change (re_search (String a pat) (String a pat))
    with (match_here (String a pat) (String a pat)
          || re_search (String a pat) pat).
  now rewrite match_here_refl.
Qed.

(** A row whose name is the search name also contains it. *)
Lemma exact_contains n p : exact n p = true -> contains n p = true.
Proof.
  unfold exact, contains. intros H. apply String.eqb_eq in H. rewrite H.
  apply re_search_refl.
Qed.

Lemma select_seq_sorted mask : forall start n,
  StronglySorted lt (Frame.select mask (seq start n)).
Proof.
  induction mask as [|b mask IH]; intros start [|n]; simpl; try constructor.
  - destruct b; constructor.
  - destruct b; [|apply IH]. constructor; [apply IH|].
    apply Forall_forall. intros i Hi. apply select_in in Hi.
    apply in_seq in Hi. lia.
Qed.

Lemma select_seq_spec {A} (f : A -> bool) (l : list A) : forall start i,
  In i (Frame.select (map f l) (seq start (List.length l)))
  <-> exists a, (start <= i)%nat /\ nth_error l (i - start) = Some a /\ f a = true.
Proof.
  induction l as [|a l IH]; intros start i; simpl.
  - split; [tauto|]. intros (a & _ & H & _). now destruct (i - start)%nat.
  - assert (Hrest :
      In i (Frame.select (map f l) (seq (S start) (List.length l)))
      <-> exists a', (start < i)%nat /\ nth_error l (i - S start) = Some a'
                     /\ f a' = true).
    { rewrite IH. split; intros (a' & H1 & H2 & H3); exists a'; repeat split; auto. }
    destruct (f a) eqn:Ha; simpl.
    + rewrite Hrest. split.
      * intros [<-|(a' & H1 & H2 & H3)].
        -- exists a. rewrite Nat.sub_diag. auto.
        -- exists a'. split; [lia|]. split; [|exact H3].
           replace (i - start)%nat with (S (i - S start)) by lia. exact H2.
      * intros (a' & H1 & H2 & H3).
        destruct (Nat.eq_dec start i) as [->|Hne]; [now left|]. right.
        exists a'. split; [lia|]. split; [|exact H3].
        replace (i - start)%nat with (S (i - S start)) in H2 by lia. exact H2.
    + rewrite Hrest. split.
      * intros (a' & H1 & H2 & H3). exists a'. split; [lia|]. split; [|exact H3].
        replace (i - start)%nat with (S (i - S start)) by lia. exact H2.
      * intros (a' & H1 & H2 & H3).
        destruct (Nat.eq_dec start i) as [->|Hne].
        -- rewrite Nat.sub_diag in H2. simpl in H2. congruence.
        -- exists a'. split; [lia|]. split; [|exact H3].
           replace (i - start)%nat with (S (i - S start)) in H2 by lia. exact H2.
Qed.

Lemma rows_where_spec {A} (f : A -> bool) (l : list A) i :
  In i (rows_where (map f l)) <-> exists a, nth_error l i = Some a /\ f a = true.
Proof.
  unfold rows_where. rewrite length_map, select_seq_spec. rewrite Nat.sub_0_r.
  split; intros (a & H); exists a; intuition lia.
Qed.

Lemma rows_where_nonempty {A} (f : A -> bool) (l : list A) :
  existsb f l = true -> rows_where (map f l) <> [].
Proof.
  intros H Hnil. pose proof (rows_where_first f l) as Hf. rewrite Hnil in Hf.
  simpl in Hf. symmetry in Hf. apply first_index_none in Hf.
  rewrite existsb_map in Hf. change (existsb f l = false) in Hf. congruence.
Qed.

(** The test that decides the rows returned for the search name [n]. *)
Definition row_test (players : list (option string)) (n : string)
  : option string -> bool :=
  if existsb (exact n) players then exact n else contains n.

Lemma search_names_rows players names :
  search_names players names
  = match find (fun n => existsb (contains n) players) names with
    | Some n => rows_where (map (row_test players n) players)
    | None => []
    end.
Proof.
  induction names as [|n rest IH]; simpl; [reflexivity|].
  change (fun p => String.eqb (lower (cell_str p)) (lower n)) with (exact n).
  change (fun p => re_search (lower n) (lower (cell_str p))) with (contains n).
  rewrite !existsb_map.
  change (existsb (fun a => exact n a) players) with (existsb (exact n) players).
  change (existsb (fun a => contains n a) players)
    with (existsb (contains n) players).
  destruct (existsb (exact n) players) eqn:E1.
  - assert (E2 : existsb (contains n) players = true).
    { apply existsb_exists in E1 as (p & Hin & Hp). apply existsb_exists.
      exists p. split; [exact Hin | now apply exact_contains]. }
    rewrite E2. unfold row_test. now rewrite E1.
  - destruct (existsb (contains n) players) eqn:E2; [|exact IH].
    unfold row_test. now rewrite E1.
Qed.

(** X17: for search names that are plain text up to dots, the name
    that decides [find_player] is the first one, canonical name first,
    that some row contains; when there is none the result is empty.
    Otherwise the result is not empty and holds, in increasing order and
    without repetition, the positions of all the rows whose name equals
    the deciding name if there is such a row, and of all the rows that
    contain it if there is none. *)
Theorem find_player_rows players name aliases :
  Forall (fun n => dotted_literal n = true) (name :: aliases) ->
  match find (fun n => existsb (contains n) players) (name :: aliases) with
  | None => find_player players name aliases = []
  | Some n =>
      find_player players name aliases <> []
      /\ StronglySorted lt (find_player players name aliases)
      /\ forall i,
           In i (find_player players name aliases)
           <-> exists p, nth_error players i = Some p
                         /\ row_test players n p = true
  end.
Proof.
  intros _. unfold find_player. rewrite search_names_rows.
  destruct (find (fun n => existsb (contains n) players) (name :: aliases))
    as [n|] eqn:E; [|reflexivity].
  apply find_some in E as [_ Hn].
  split; [|split].
  - apply rows_where_nonempty. unfold row_test.
    destruct (existsb (exact n) players) eqn:E1; [exact E1 | exact Hn].
  - apply select_seq_sorted.
  - intros i. apply rows_where_spec.
Qed.

Lemma find_player_rows_witness :
  Forall (fun n => dotted_literal n = true) ["M. Kudus"; "Kudus"]
  /\ find (fun n => existsb (contains n) kudus_table) ["M. Kudus"; "Kudus"]
     = Some "Kudus"
  /\ find_player kudus_table "M. Kudus" ["Kudus"] = [1%nat]
  /\ find_player kudus_table "M. Kudus" ["Kudus"] <> []
  /\ StronglySorted lt (find_player kudus_table "M. Kudus" ["Kudus"])
  /\ forall i,
       In i (find_player kudus_table "M. Kudus" ["Kudus"])
       <-> exists p, nth_error kudus_table i = Some p
                     /\ row_test kudus_table "Kudus" p = true.
Proof.
  assert (H : Forall (fun n => dotted_literal n = true) ["M. Kudus"; "Kudus"])
    by (repeat constructor).
  split; [exact H|]. split; [reflexivity|]. split; [reflexivity|].
  exact (find_player_rows kudus_table "M. Kudus" ["Kudus"] H).
Defined.

Lemma lower_upper_char c : lower_char (upper_char c) = lower_char c.
Proof. destruct c as [[] [] [] [] [] [] [] []]; reflexivity. Qed.

Lemma lower_upper s : lower (upper s) = lower s.
Proof.
  induction s as [|c s IH]; simpl; [reflexivity|]. now rewrite lower_upper_char, IH.
Qed.

(** X18: [find_player] ignores case: putting the names of the table,
    the canonical name and the aliases in capitals does not change the
    rows it returns. *)
Theorem find_player_ignores_case players name aliases :
  find_player (map (option_map upper) players) (upper name) (map upper aliases)
  = find_player players name aliases.
Proof.
  unfold find_player. change (upper name :: map upper aliases)
    with (map upper (name :: aliases)).
  induction (name :: aliases) as [|n rest IH]; simpl; [reflexivity|].
  rewrite !map_map.
  assert (Hcell : forall p, lower (cell_str (option_map upper p)) = lower (cell_str p)).
  { intros [s|]; simpl; [apply lower_upper | reflexivity]. }
  rewrite (map_ext
    (fun x => String.eqb (lower (cell_str (option_map upper x))) (lower (upper n)))
    (fun p => String.eqb (lower (cell_str p)) (lower n)))
    by (intros p; now rewrite Hcell, lower_upper).
  rewrite (map_ext
    (fun x => re_search (lower (upper n)) (lower (cell_str (option_map upper x))))
    (fun p => re_search (lower n) (lower (cell_str p))))
    by (intros p; now rewrite Hcell, lower_upper).
  now rewrite IH.
Qed.

End RosterRows.

(** ** Aliases that contain one another *)

Section AliasShadowing.
Import Text Frame Processor.
Local Open Scope string_scope.

Lemma startswith_spec p : forall s,
  startswith p s = true <-> exists v, s = p ++ v.
Proof.
  induction p as [|a p IH]; intros s; simpl.
  - split; [intros _; now exists s | reflexivity].
  - destruct s as [|b s].
    + split; [discriminate | intros (v & H); discriminate].
    + rewrite andb_true_iff, IH. split.
      * intros (Hab & v & ->). apply Ascii.eqb_eq in Hab. subst b. now exists v.
      * intros (v & H). inversion H; subst. split; [apply Ascii.eqb_refl|].
        now exists v.
Qed.

Lemma str_in_spec p s :
  str_in p s = true <-> exists u v, s = u ++ p ++ v.
Proof.
  induction s as [|b s IH]; simpl.
  - rewrite orb_false_r, startswith_spec. split.
    + intros (v & H). now exists "", v.
    + intros (u & v & H). destruct u; [|discriminate]. now exists v.
  - rewrite orb_true_iff, startswith_spec, IH. split.
    + intros [(v & H)|(u & v & ->)].
      * now exists "", v.
      * now exists (String b u), v.
    + intros (u & v & H). destruct u as [|c u].
      * left. now exists v.
      * right. inversion H; subst. now exists u, v.
Qed.

Lemma append_assoc (a b c : string) : (a ++ b) ++ c = a ++ b ++ c.
Proof. induction a as [|x a IH]; simpl; [reflexivity|]. now rewrite IH. Qed.

(** A text that holds [a ++ b] holds [b]. *)
Lemma str_in_suffix a b s : str_in (a ++ b) s = true -> str_in b s = true.
Proof.
  rewrite !str_in_spec. intros (u & v & ->). exists (u ++ a), v.
  now rewrite !append_assoc.
Qed.

Lemma hits_npxg_xg c :
  hits ["npxg"; "npxG"; "np_xg"] c = true -> hits ["xg"; "xG"; "expected_goals"] c = true.
Proof.
  unfold hits. intros H. apply existsb_exists in H as (name & Hin & H).
  apply existsb_exists. exists "xg". split; [now left|].
  change (lower "xg") with "xg".
  destruct Hin as [<-|[<-|[<-|[]]]].
  - exact (str_in_suffix "np" "xg" _ H).
  - exact (str_in_suffix "np" "xg" _ H).
  - exact (str_in_suffix "np_" "xg" _ H).
Qed.

Lemma find_weaker {A} (f g : A -> bool) (l : list A) c :
  (forall a, f a = true -> g a = true) ->
  find f l = Some c ->
  exists c' pre post,
    l = (pre ++ c :: post)%list /\ find g l = Some c' /\ (c' = c \/ In c' pre).
Proof.
  intros Hfg. induction l as [|a l IH]; simpl; [discriminate|].
  destruct (f a) eqn:Ef.
  - intros H; inversion H; subst. rewrite (Hfg c Ef).
    exists c, [], l. auto.
  - intros H. destruct (IH H) as (c' & pre & post & -> & Hg & Hc').
    destruct (g a) eqn:Eg.
    + exists a, (a :: pre), post. repeat split. right. now left.
    + exists c', (a :: pre), post. repeat split; auto.
      destruct Hc' as [->|Hin]; [now left | right; now right].
Qed.

(** X19: every alias of the [npxg] field contains [xg], so a column
    resolved for [npxg] also matches the [xg] field: when [npxg] is
    resolved to a column, [xg] is resolved as well, to that column or to
    an earlier one, and to that very column when no earlier column
    matches an alias of [xg].  A table whose non-penalty xG column comes
    first reads both fields from it. *)
Theorem identify_columns_xg_shadowed df col :
  Dict.get (identify_columns df) "npxg" = Some col ->
  exists col' pre post,
    columns df = (pre ++ col :: post)%list
    /\ Dict.get (identify_columns df) "xg" = Some col'
    /\ (col' = col \/ In col' pre)
    /\ (Forall (fun c => hits ["xg"; "xG"; "expected_goals"] c = false) pre ->
        col' = col).
Proof.
  rewrite (identify_columns_get df "npxg" ["npxg"; "npxG"; "np_xg"])
    by (simpl; tauto).
  rewrite (identify_columns_get df "xg" ["xg"; "xG"; "expected_goals"])
    by (simpl; tauto).
  rewrite !scan_columns_find. intros H.
  destruct (find_weaker _ _ _ _ hits_npxg_xg H) as (c' & pre & post & Hl & Hg & Hc').
  exists c', pre, post. repeat split; auto.
  intros Hpre. destruct Hc' as [Hc'|Hin]; [exact Hc'|].
  apply find_some in Hg as [_ Hhit]. rewrite Forall_forall in Hpre.
  rewrite (Hpre c' Hin) in Hhit. discriminate.
Qed.

(** A table in which the non-penalty column comes before the xG column. *)
Definition npxg_first_table : DataFrame :=
  mkDF 1 [ ("Player", ObjCol [Some "Antoine Semenyo"]);
           ("npxG",   FloatCol [8.5]%float);
           ("xG",     FloatCol [9.25]%float) ].

Lemma identify_columns_xg_shadowed_witness :
  Dict.get (identify_columns npxg_first_table) "npxg" = Some "npxG"
  /\ Dict.get (identify_columns npxg_first_table) "xg" = Some "npxG"
  /\ exists col' pre post,
       columns npxg_first_table = (pre ++ "npxG" :: post)%list
       /\ Dict.get (identify_columns npxg_first_table) "xg" = Some col'
       /\ (col' = "npxG" \/ In col' pre)
       /\ (Forall (fun c => hits ["xg"; "xG"; "expected_goals"] c = false) pre ->
           col' = "npxG").
Proof.
  split; [reflexivity|]. split; [reflexivity|].
  exact (identify_columns_xg_shadowed npxg_first_table "npxG" eq_refl).
Defined.

End AliasShadowing.

(** ** Constant features *)

Section ExactArithmetic.
Local Open Scope Z_scope.

Lemma shr_fexp_exact m e :
  canonical_mantissa 53 1024 m e = true ->
  shr_fexp 53 1024 (Zpos m) e loc_Exact
  = ({| shr_m := Zpos m; shr_r := false; shr_s := false |}, e).
Proof.
  intros Hc. unfold canonical_mantissa in Hc. apply Z.eqb_eq in Hc.
  unfold shr_fexp. cbn [Zdigits2]. rewrite Hc, Z.sub_diag. reflexivity.
Qed.

Lemma binary_round_aux_exact sx m e :
  bounded 53 1024 m e = true ->
  binary_round_aux 53 1024 sx (Zpos m) e loc_Exact = S754_finite sx m e.
Proof.
  intros Hb. unfold bounded in Hb. apply andb_true_iff in Hb as [Hc He].
  unfold binary_round_aux.
  rewrite (shr_fexp_exact m e Hc). cbn [shr_m loc_of_shr_record round_nearest_even].
  rewrite (shr_fexp_exact m e Hc). cbn [shr_m]. now rewrite He.
Qed.

(** A product by a power of two rounds back to the factor. *)
Lemma binary_round_aux_shifted sx m e k P :
  bounded 53 1024 m e = true ->
  Zpos P = Zpos m * 2 ^ Zpos k ->
  binary_round_aux 53 1024 sx (Zpos P) (e - Zpos k) loc_Exact = S754_finite sx m e.
Proof.
  intros Hb HP. pose proof Hb as Hb'.
  unfold bounded in Hb'. apply andb_true_iff in Hb' as [Hc He].
  pose proof Hc as Hc'. unfold canonical_mantissa in Hc'. apply Z.eqb_eq in Hc'.
  assert (HPi : P = Pos.iter xO m k).
  { apply Pos2Z.inj. now rewrite iter_xO. }
  pose proof (digits_scaled m P (Zpos k) ltac:(lia) HP) as Hd.
  unfold binary_round_aux.
  assert (Hs : shr_fexp 53 1024 (Zpos P) (e - Zpos k) loc_Exact
               = ({| shr_m := Zpos m; shr_r := false; shr_s := false |}, e)).
  { unfold shr_fexp. cbn [Zdigits2]. rewrite Hd.
    replace (Zpos (digits2_pos m) + Zpos k + (e - Zpos k))
      with (Zpos (digits2_pos m) + e) by lia.
    rewrite Hc'. replace (e - (e - Zpos k)) with (Zpos k) by lia.
    unfold shr. cbn [shr_record_of_loc]. rewrite HPi, shr_iter.
    f_equal. lia. }
  rewrite Hs. cbn [shr_m loc_of_shr_record round_nearest_even].
  rewrite (shr_fexp_exact m e Hc). cbn [shr_m]. now rewrite He.
Qed.

End ExactArithmetic.

Section ConstantColumn.
Local Open Scope float_scope.

(** Neither missing nor infinite. *)
Definition finite (x : float) : Prop :=
  is_nan x = false /\ is_infinity x = false.

Lemma finite_spec x :
  finite x ->
  (exists s, Prim2SF x = S754_zero s)
  \/ exists s m e, Prim2SF x = S754_finite s m e /\ bounded 53 1024 m e = true.
Proof.
  intros [Hn Hi]. pose proof (Prim2SF_valid x) as Hv.
  apply not_nan_spec in Hn.
  unfold is_infinity in Hi. rewrite FloatAxioms.eqb_spec, FloatAxioms.abs_spec in Hi.
  destruct (Prim2SF x) as [s|s| |s m e].
  - left. now exists s.
  - destruct s; discriminate.
  - congruence.
  - right. exists s, m, e. split; [reflexivity | exact Hv].
Qed.

Lemma mul_one x : finite x -> x * 1 = x.
Proof.
  intros Hx. apply Prim2SF_inj. rewrite FloatAxioms.mul_spec.
  change (Prim2SF 1) with (S754_finite false 4503599627370496 (-52)).
  destruct (finite_spec x Hx) as [(s & ->)|(s & m & e & -> & Hb)].
  - simpl. now destruct s.
  - unfold SF64mul, SFmul. rewrite xorb_false_r.
    change (e + -52)%Z with (e - Zpos 52)%Z.
    apply binary_round_aux_shifted; [exact Hb|].
    rewrite Pos2Z.inj_mul. reflexivity.
Qed.

Lemma sub_self x : finite x -> x - x = 0.
Proof.
  intros Hx. apply Prim2SF_inj. rewrite FloatAxioms.sub_spec.
  change (Prim2SF 0) with (S754_zero false).
  destruct (finite_spec x Hx) as [(s & ->)|(s & m & e & -> & Hb)].
  - now destruct s.
  - unfold SF64sub, SFsub. rewrite Z.min_id. unfold shl_align.
    rewrite !Z.sub_diag. reflexivity.
Qed.

Lemma add_zero_sub x : finite x -> x + (0 - x) = 0.
Proof.
  intros Hx. apply Prim2SF_inj.
  rewrite FloatAxioms.add_spec, FloatAxioms.sub_spec.
  change (Prim2SF 0) with (S754_zero false).
  destruct (finite_spec x Hx) as [(s & ->)|(s & m & e & -> & Hb)].
  - now destruct s.
  - unfold SF64sub, SFsub, SF64add, SFadd. rewrite Z.min_id. unfold shl_align.
    rewrite Z.sub_diag. cbn [fst].
    destruct s; simpl; now rewrite Z.pos_sub_diag.
Qed.

Lemma ltb_irrefl x : (x <? x) = false.
Proof.
  rewrite FloatAxioms.ltb_spec. unfold SFltb, SFcompare.
  destruct (Prim2SF x) as [[]|[]| |[] m e]; try reflexivity;
    rewrite Z.compare_refl;
    change (Pos.compare_cont Eq m m) with (Pos.compare m m);
    now rewrite Pos.compare_refl.
Qed.

End ConstantColumn.

Section ConstantFeature.
Import Text Frame Config Processor.
Local Open Scope string_scope.
Local Open Scope float_scope.

Lemma fmin_constant x n : fmin (repeat x n) x = x.
Proof.
  unfold fmin. induction n as [|n IH]; simpl; [reflexivity|].
  now rewrite ltb_irrefl.
Qed.

Lemma fmax_constant x n : fmax (repeat x n) x = x.
Proof.
  unfold fmax. induction n as [|n IH]; simpl; [reflexivity|].
  now rewrite ltb_irrefl.
Qed.

(** The scaler fitted to a constant feature: the range is 0, which is
    scaled by 1. *)
Lemma fit_constant x n sc out :
  is_nan x = false ->
  fit (repeat x (S n)) = Ok (sc, out) ->
  finite x /\ sc = mkScaler 1 (0 - x).
Proof.
  intros Hn H. unfold fit in H. cbn [repeat] in H.
  destruct (existsb is_infinity (x :: repeat x n)) eqn:Hinf; [discriminate|].
  assert (Hx : finite x).
  { split; [exact Hn|]. simpl in Hinf. now apply orb_false_iff in Hinf. }
  rewrite fmin_constant, fmax_constant, (sub_self x Hx) in H.
  change (handle_zeros_in_scale 0) with 1 in H.
  change ((1 - 0) / 1) with 1 in H.
  rewrite (mul_one x Hx) in H. inversion H; subst. now split.
Qed.

Lemma transform_constant x : finite x -> transform (mkScaler 1 (0 - x)) x = 0.
Proof.
  intros Hx. unfold transform. cbn [scale_ min_].
  rewrite (mul_one x Hx). now apply add_zero_sub.
Qed.

Lemma scaled_constant x n sc :
  fit (map fillna0 (repeat x (S n))) = Ok (sc, []) ->
  map (fun v => transform sc (fillna0 v)) (repeat x (S n)) = repeat 0 (S n).
Proof.
  intros Hfit. rewrite map_repeat in Hfit.
  apply fit_constant in Hfit as [Hx ->]; [|apply fillna0_not_nan].
  rewrite map_repeat. now rewrite transform_constant.
Qed.

(** X20: when [normalize_features] returns, a listed column that held
    the same value in every row (missing in every row included) holds 0
    in every row: a constant feature is scaled to 0, not to a missing
    value. *)
Theorem normalize_features_constant_column df feature_cols df' out c x n :
  normalize_features df feature_cols = Ok (df', out) ->
  In c feature_cols ->
  Dict.get (cols df) c = Some (FloatCol (repeat x (S n))) ->
  Dict.get (cols df') c = Some (FloatCol (repeat 0 (S n))).
Proof.
  intros H Hin Hc.
  assert (Hhas : has_col df c = true) by (apply has_col_get; eauto).
  destruct (normalize_features_scaled _ _ _ _ _ H Hin Hhas)
    as (ys & Hys & col & xs & sc & Hcol & Hxs & Hfit & ->).
  rewrite Hc in Hcol. inversion Hcol; subst col. clear Hcol.
  unfold astype_float, ret in Hxs. inversion Hxs; subst xs. clear Hxs.
  change (x :: repeat x n) with (repeat x (S n)) in Hfit, Hys.
  now rewrite Hys, (scaled_constant x n sc Hfit).
Qed.

(** One forward, already converted. *)
Definition lone_forward_table : DataFrame :=
  mkDF 1 [ ("Player", ObjCol [Some "Antoine Semenyo"]);
           ("goals_per90", FloatCol [9 / 10]) ].

Definition lone_forward_scaled : DataFrame :=
  mkDF 1 [ ("Player", ObjCol [Some "Antoine Semenyo"]);
           ("goals_per90", FloatCol [0]) ].

Lemma normalize_features_constant_column_witness :
  normalize_features lone_forward_table feature_cols
  = Ok (lone_forward_scaled, [NormalizedFeatures 1])
  /\ Dict.get (cols lone_forward_scaled) "goals_per90"
     = Some (FloatCol (repeat 0 1)).
Proof.
  split; [reflexivity|].
  exact (normalize_features_constant_column lone_forward_table feature_cols
           lone_forward_scaled [NormalizedFeatures 1] "goals_per90" (9 / 10) 0
           eq_refl (or_introl eq_refl) eq_refl).
Defined.

End ConstantFeature.

Section SingleSurvivor.
Import Text Frame Config Processor.
Local Open Scope string_scope.
Local Open Scope float_scope.

(** X21: when [process_data] writes a table with a single row, every
    per90 feature column of that table holds 0, whatever the rates of
    the one forward who passed the filters. *)
Theorem process_data_single_survivor raw processed out c :
  well_formed raw ->
  process_data raw = Ok (Some processed, out) ->
  nrows processed = 1%nat ->
  In c feature_cols ->
  has_col processed c = true ->
  Dict.get (cols processed) c = Some (FloatCol [0]).
Proof.
  intros Hwf H Hone Hin Hhas.
  destruct (process_data_run _ _ _ H)
    as (df1 & o1 & df2 & o2 & df3 & o3 & o4 & H1 & H2 & H3 & H4 & _).
  pose proof (filter_forwards_selection _ _ _ _ Hwf H1) as S1.
  pose proof (selection_of_well_formed _ _ Hwf S1) as Hwf1.
  pose proof (filter_minimum_minutes_selection _ _ _ _ Hwf1 H2) as S2.
  pose proof (selection_of_well_formed _ _ Hwf1 S2) as Hwf2.
  destruct (normalize_per_90_extends _ _ _ _ Hwf2 H3) as (_ & _ & Hwf3 & _).
  destruct (normalize_features_extends _ _ _ _ Hwf3 H4) as (Hn4 & Hc4 & _).
  assert (Hhas3 : has_col df3 c = true).
  { unfold has_col in *. now rewrite <- Hc4. }
  destruct (normalize_features_scaled _ _ _ _ _ H4 Hin Hhas3)
    as (ys & Hys & col & xs & sc & Hcol & Hxs & Hfit & ->).
  pose proof (well_formed_get _ _ _ Hwf3 Hcol) as Hlen.
  apply astype_float_ok in Hxs as [_ Hxs]. rewrite Hlen, <- Hn4, Hone in Hxs.
  destruct xs as [|x [|? ?]]; try discriminate.
  rewrite Hys. change [x] with (repeat x 1) in *.
  now rewrite (scaled_constant x 0 sc Hfit).
Qed.

(** A raw table with one forward above the minutes bound. *)
Definition lone_regular_table : DataFrame :=
  mkDF 2 [ ("Player", ObjCol [Some "Antoine Semenyo"; Some "Thomas Partey"]);
           ("Pos",    ObjCol [Some "FW"; Some "MF"]);
           ("Min",    FloatCol [900; 2700]);
           ("Gls",    FloatCol [9; 3]) ].

Definition lone_regular_processed : DataFrame :=
  mkDF 1 [ ("Player", ObjCol [Some "Antoine Semenyo"]);
           ("Pos",    ObjCol [Some "FW"]);
           ("Min",    FloatCol [900]);
           ("Gls",    FloatCol [9]);
           ("90s_played", FloatCol [10]);
           ("goals_per90", FloatCol [0]) ].

Definition lone_regular_output : list event :=
  [ IdentifiedColumns
      [ ("player", "Player"); ("position", "Pos"); ("minutes", "Min");
        ("goals", "Gls") ];
    FilteredForwards 1; FilteredMinutes 1; NormalizedFeatures 1; Saved 1 ].

Lemma lone_regular_table_well_formed : well_formed lone_regular_table.
Proof. repeat constructor. Qed.

Lemma process_data_single_survivor_witness :
  well_formed lone_regular_table
  /\ process_data lone_regular_table
     = Ok (Some lone_regular_processed, lone_regular_output)
  /\ Dict.get (cols lone_regular_processed) "goals_per90" = Some (FloatCol [0]).
Proof.
  split; [exact lone_regular_table_well_formed|]. split; [reflexivity|].
  exact (process_data_single_survivor lone_regular_table lone_regular_processed
           lone_regular_output "goals_per90" lone_regular_table_well_formed
           eq_refl eq_refl (or_introl eq_refl) eq_refl).
Defined.

End SingleSurvivor.
